(** * lyricist: a shallow embedding of [lyricist.py]

    The development follows the source file top to bottom: the text helpers
    ([_remove_punctuation] and the lyric clean-up steps), the [Artist] and
    [Song] entities with their class-level registries, the id resolver, the
    lyric fetcher, the search, and the JSON snapshot.

    Python objects live in a store and are named by their address, so that
    "the same object" is equality of addresses; the two class dictionaries
    [_artists] and [_songs] map ids to addresses. *)

From Stdlib Require Import ZArith NArith Ascii String Sorted.
From Stdlib Require Decimal DecimalString DecimalZ DecimalPos.
From stdpp Require Import base option list gmap.

Set Warnings "-register-all".

Local Open Scope Z_scope.

(** ** Text *)

(** A Python [str] is a sequence of code points. *)
Definition pystr : Type := list N.

(** Literals of the source, written as Rocq strings. *)
Definition py (s : string) : pystr :=
  List.map N_of_ascii (list_ascii_of_string s).

Definition newline : N := 10%N.
Definition lbracket : N := 91%N.
Definition rbracket : N := 93%N.

Fixpoint str_eqb (s t : pystr) : bool :=
  match s, t with
  | [], [] => true
  | c :: s', d :: t' => N.eqb c d && str_eqb s' t'
  | _, _ => false
  end.

(** [startswith p s]: [s] begins with [p]. *)
Fixpoint startswith (p s : pystr) : bool :=
  match p, s with
  | [], _ => true
  | c :: p', d :: s' => N.eqb c d && startswith p' s'
  | _ :: _, [] => false
  end.

(** [contains q s] is Python's [q in s] on two strings. *)
Fixpoint contains (q s : pystr) : bool :=
  startswith q s ||
  match s with
  | [] => false
  | _ :: s' => contains q s'
  end.

(** The tables of the Unicode database that the source reaches through
    [unicodedata.normalize], [str.casefold] and the classes [\w] and [\s]
    of [re].  Case folding works code point by code point and may yield
    several code points; NFKD reorders marks and is kept as a function on
    whole strings. *)
Class Unicode := {
  nfkd : pystr -> pystr;
  casefold_char : N -> pystr;
  is_word : N -> bool;
  is_space : N -> bool
}.

Section Text.
Context {U : Unicode}.

Definition casefold (s : pystr) : pystr := flat_map casefold_char s.

(** What [[^\w\s]] does not match. *)
Definition kept (c : N) : bool := is_word c || is_space c.

(** [re.sub(r"[^\w\s]", "", string)] *)
Definition _remove_punctuation (s : pystr) : pystr := List.filter kept s.

(** A match of [\[.*?\]\n] whose opening bracket has just been read:
    the number of further code points it spans.  [.] stops at a newline,
    and the lazy star takes the first closing bracket that a newline
    follows. *)
Fixpoint header_span (s : pystr) : option nat :=
  match s with
  | [] => None
  | c :: s' =>
      if N.eqb c newline then None
      else if N.eqb c rbracket then
        match s' with
        | d :: _ => if N.eqb d newline then Some 2%nat
                    else option_map S (header_span s')
        | [] => None
        end
      else option_map S (header_span s')
  end.

(** [re.sub(r"(\[.*?\])\n{1}", "", lyrics)]: scan from the left; where a
    match starts, drop it and go on after its end.  [skip] counts the
    code points of the current match that are still to be dropped. *)
Fixpoint strip_from (skip : nat) (s : pystr) : pystr :=
  match s with
  | [] => []
  | c :: s' =>
      match skip with
      | S k => strip_from k s'
      | O =>
          if N.eqb c lbracket then
            match header_span s' with
            | Some k => strip_from k s'
            | None => c :: strip_from O s'
            end
          else c :: strip_from O s'
      end
  end.

Definition strip_headers (s : pystr) : pystr := strip_from O s.

(** [lyrics.replace("\n\n", "\n")]: the occurrences are taken from the
    left and do not overlap. *)
Fixpoint collapse_newlines (s : pystr) : pystr :=
  match s with
  | [] => []
  | c :: s' =>
      match s' with
      | d :: s'' =>
          if N.eqb c newline && N.eqb d newline
          then newline :: collapse_newlines s''
          else c :: collapse_newlines s'
      | [] => [c]
      end
  end.

(** Lines 348-352 of [get_song_lyrics], applied to the container text. *)
Definition normalize_lyrics (text : pystr) : pystr :=
  let lyrics := nfkd text in
  let lyrics := strip_headers lyrics in
  let lyrics := collapse_newlines lyrics in
  let lyrics := _remove_punctuation lyrics in
  casefold lyrics.

End Text.

(** The tables restricted to Basic Latin: ASCII text has no decomposition,
    folds by lowering A-Z, [\w] is a letter, a digit or the underscore and
    [\s] is one of tab, newline, VT, FF, CR, FS, GS, RS, US and space.
    They agree with CPython's tables on every code point below 128. *)
Definition ascii_fold (c : N) : pystr :=
  if (N.leb 65 c && N.leb c 90)%N then [(c + 32)%N] else [c].

Definition ascii_word (c : N) : bool :=
  ((N.leb 48 c && N.leb c 57) || (N.leb 65 c && N.leb c 90)
   || (N.leb 97 c && N.leb c 122) || N.eqb c 95)%N.

Definition ascii_space (c : N) : bool :=
  ((N.leb 9 c && N.leb c 13) || (N.leb 28 c && N.leb c 32))%N.

Definition basic_latin : Unicode :=
  {| nfkd := fun s => s;
     casefold_char := ascii_fold;
     is_word := ascii_word;
     is_space := ascii_space |}.

Example normalize_sample :
  @normalize_lyrics basic_latin (py "[Chorus]
Hello, World!

Bye") = py "hello world
bye".
Proof. reflexivity. Qed.

(** ** Python values and exceptions *)

(** The values that [json.loads] produces and [json.dump] accepts.  A
    [float] is a dyadic number [m * 2^e]; an object keeps its items in
    insertion order. *)
Inductive json : Type :=
  | JNull
  | JBool (b : bool)
  | JInt (z : Z)
  | JFloat (m e : Z)
  | JStr (s : pystr)
  | JArr (items : list json)
  | JObj (fields : list (pystr * json)).

(** [KeyboardInterrupt] stands for the exceptions that do not derive from
    [Exception]; [Failure] for an [Exception] of a library or of the
    system (a failed connection, [Exception("Request status code is not
    200")], a [FileNotFoundError], ...). *)
Inductive exn : Type :=
  | KeyError
  | TypeError
  | ValueError
  | IndexError
  | AttributeError
  | UnboundLocalError
  | Failure
  | KeyboardInterrupt.

(** [isinstance(e, Exception)] *)
Definition is_Exception (e : exn) : bool :=
  match e with
  | KeyboardInterrupt => false
  | _ => true
  end.

(** The outcome of a call.  [Unmodelled] marks an input this embedding
    does not describe: the dataclasses declare [id: int], and a record
    whose ["id"] is not a JSON integer is not followed further. *)
Inductive result (A : Type) : Type :=
  | Ok (a : A)
  | Raise (e : exn)
  | Unmodelled.
Arguments Ok {A} a.
Arguments Raise {A} e.
Arguments Unmodelled {A}.

Definition rbind {A B} (r : result A) (k : A -> result B) : result B :=
  match r with
  | Ok a => k a
  | Raise e => Raise e
  | Unmodelled => Unmodelled
  end.

Fixpoint assoc (k : pystr) (fields : list (pystr * json)) : option json :=
  match fields with
  | [] => None
  | (k', v) :: rest => if str_eqb k k' then Some v else assoc k rest
  end.

(** [d[k]] for a string key [k]. *)
Definition getitem (d : json) (k : string) : result json :=
  match d with
  | JObj fields =>
      match assoc (py k) fields with
      | Some v => Ok v
      | None => Raise KeyError
      end
  | _ => Raise TypeError
  end.

(** The elements a [for] loop draws from a value. *)
Definition py_iter (v : json) : result (list json) :=
  match v with
  | JArr items => Ok items
  | JObj fields => Ok (List.map (fun kv => JStr (fst kv)) fields)
  | JStr s => Ok (List.map (fun c => JStr [c]) s)
  | _ => Raise TypeError
  end.

(** [v == s] for a string [s]. *)
Definition eq_str (v : json) (s : pystr) : bool :=
  match v with
  | JStr t => str_eqb t s
  | _ => false
  end.

(** The [lyrics] of a song are [None] or a string, as the dataclass
    declares them; these two functions pass between that and JSON.  A
    snapshot whose ["lyrics"] is anything else was not written by
    [Artist.save] and is not followed further. *)
Definition lyrics_json (v : option pystr) : json :=
  match v with
  | None => JNull
  | Some s => JStr s
  end.

Definition as_lyrics (v : json) : result (option pystr) :=
  match v with
  | JNull => Ok None
  | JStr s => Ok (Some s)
  | _ => Unmodelled
  end.

(** The key under which a registry files an id. *)
Definition as_id (v : json) : result Z :=
  match v with
  | JInt z => Ok z
  | JArr _ | JObj _ => Raise TypeError
  | _ => Unmodelled
  end.

(** [unicodedata.normalize("NFKD", v)] *)
Definition normalize_NFKD {U : Unicode} (v : json) : result pystr :=
  match v with
  | JStr s => Ok (nfkd s)
  | _ => Raise TypeError
  end.

(** ** The object store *)

Abbreviation loc := nat (only parsing).

Record Artist : Type := mkArtist {
  a_id : Z;
  a_name : json;
  a_url : json;
  a_songs : list loc;
  a_featured_on : list loc
}.

Record Song : Type := mkSong {
  s_id : Z;
  s_title : pystr;
  s_full_title : pystr;
  s_url : json;
  s_artist : loc;
  s_featured_artists : list loc;
  s_lyrics : option pystr
}.

(** [artists] and [songs] hold the objects by address; [_artists] and
    [_songs] are the class dictionaries; [requests] lists the pages asked
    of the web host, oldest first. *)
Record world : Type := mkWorld {
  artists : list Artist;
  songs : list Song;
  _artists : gmap Z loc;
  _songs : gmap Z loc;
  requests : list json
}.

Definition fresh : world := mkWorld [] [] ∅ ∅ [].

(** A computation on the store that may raise. *)
Definition M (A : Type) : Type := world -> result A * world.

Definition ret {A} (a : A) : M A := fun w => (Ok a, w).

Definition bind {A B} (m : M A) (k : A -> M B) : M B :=
  fun w =>
    match m w with
    | (Ok a, w') => k a w'
    | (Raise e, w') => (Raise e, w')
    | (Unmodelled, w') => (Unmodelled, w')
    end.

Definition lift {A} (r : result A) : M A := fun w => (r, w).

Notation "x <- m ;; k" := (bind m (fun x => k))
  (at level 100, m at next level, right associativity).
Notation "m ;;; k" := (bind m (fun _ => k))
  (at level 100, right associativity).

Fixpoint mapM {A B} (f : A -> M B) (l : list A) : M (list B) :=
  match l with
  | [] => ret []
  | x :: l' => y <- f x ;; ys <- mapM f l' ;; ret (y :: ys)
  end.

Fixpoint forM_ {A} (l : list A) (f : A -> M unit) : M unit :=
  match l with
  | [] => ret tt
  | x :: l' => f x ;;; forM_ l' f
  end.

Definition new_artist (a : Artist) : M loc := fun w =>
  (Ok (length (artists w)),
   mkWorld (artists w ++ [a]) (songs w) (_artists w) (_songs w) (requests w)).

Definition new_song (s : Song) : M loc := fun w =>
  (Ok (length (songs w)),
   mkWorld (artists w) (songs w ++ [s]) (_artists w) (_songs w) (requests w)).

Definition update_artist (l : loc) (f : Artist -> Artist) : M unit := fun w =>
  (Ok tt,
   mkWorld (alter f l (artists w)) (songs w) (_artists w) (_songs w) (requests w)).

Definition update_song (l : loc) (f : Song -> Song) : M unit := fun w =>
  (Ok tt,
   mkWorld (artists w) (alter f l (songs w)) (_artists w) (_songs w) (requests w)).

Definition register_artist (i : Z) (l : loc) : M unit := fun w =>
  (Ok tt,
   mkWorld (artists w) (songs w) (<[i:=l]> (_artists w)) (_songs w) (requests w)).

Definition register_song (i : Z) (l : loc) : M unit := fun w =>
  (Ok tt,
   mkWorld (artists w) (songs w) (_artists w) (<[i:=l]> (_songs w)) (requests w)).

Definition log_request (url : json) : M unit := fun w =>
  (Ok tt,
   mkWorld (artists w) (songs w) (_artists w) (_songs w) (requests w ++ [url])).

Definition append_song (s : loc) (a : Artist) : Artist :=
  mkArtist (a_id a) (a_name a) (a_url a) (a_songs a ++ [s]) (a_featured_on a).

Definition append_featured_on (s : loc) (a : Artist) : Artist :=
  mkArtist (a_id a) (a_name a) (a_url a) (a_songs a) (a_featured_on a ++ [s]).

Definition set_lyrics (v : option pystr) (s : Song) : Song :=
  mkSong (s_id s) (s_title s) (s_full_title s) (s_url s) (s_artist s)
         (s_featured_artists s) v.

(** ** Entities *)

(** The test [id_ in cls._artists] together with the read
    [cls._artists[id_]], and the same for [cls._songs]: the address filed
    under an id, if any. *)
Definition find_artist (i : Z) : M (option loc) := fun w =>
  (Ok (_artists w !! i), w).

Definition find_song (i : Z) : M (option loc) := fun w =>
  (Ok (_songs w !! i), w).

Definition get_artist (l : loc) : M Artist := fun w =>
  match artists w !! l with
  | Some a => (Ok a, w)
  | None => (Unmodelled, w)
  end.

Definition get_song (l : loc) : M Song := fun w =>
  match songs w !! l with
  | Some s => (Ok s, w)
  | None => (Unmodelled, w)
  end.

Module Artist.

(** [Artist.from_data] *)
Definition from_data (data : json) : M loc :=
  id_ <- lift (rbind (getitem data "id") as_id) ;;
  found <- find_artist id_ ;;
  match found with
  | Some artist => ret artist
  | None =>
      name <- lift (getitem data "name") ;;
      url <- lift (getitem data "url") ;;
      artist <- new_artist (mkArtist id_ name url [] []) ;;
      register_artist id_ artist ;;;
      ret artist
  end.

(** [Artist.to_dict] *)
Definition to_dict (self : loc) : M json :=
  a <- get_artist self ;;
  ret (JObj [(py "id", JInt (a_id a));
             (py "name", a_name a);
             (py "url", a_url a)]).

End Artist.

Module Song.
Section WithUnicode.
Context {U : Unicode}.

(** [Song.from_data] *)
Definition from_data (data : json) : M loc :=
  id_ <- lift (rbind (getitem data "id") as_id) ;;
  found <- find_song id_ ;;
  match found with
  | Some song => ret song
  | None =>
      title <- lift (rbind (getitem data "title") normalize_NFKD) ;;
      full_title <- lift (rbind (getitem data "full_title") normalize_NFKD) ;;
      url <- lift (getitem data "url") ;;
      primary <- lift (getitem data "primary_artist") ;;
      artist <- Artist.from_data primary ;;
      featured <- lift (rbind (getitem data "featured_artists") py_iter) ;;
      featured_artists <- mapM Artist.from_data featured ;;
      song <- new_song (mkSong id_ title full_title url artist
                               featured_artists None) ;;
      update_artist artist (append_song song) ;;;
      forM_ featured_artists
            (fun featured_artist =>
               update_artist featured_artist (append_featured_on song)) ;;;
      register_song id_ song ;;;
      ret song
  end.

End WithUnicode.

(** [Song.to_dict] *)
Definition to_dict (self : loc) : M json :=
  s <- get_song self ;;
  featured_artists_dicts <- mapM Artist.to_dict (s_featured_artists s) ;;
  primary <- Artist.to_dict (s_artist s) ;;
  ret (JObj [(py "id", JInt (s_id s));
             (py "title", JStr (s_title s));
             (py "full_title", JStr (s_full_title s));
             (py "url", s_url s);
             (py "primary_artist", primary);
             (py "featured_artists", JArr featured_artists_dicts);
             (py "lyrics", lyrics_json (s_lyrics s))]).

End Song.

(** [Artist.save]: the value handed to [json.dump].  [now] is the reading
    of [time.time()]. *)
Definition Artist_save (self : loc) (now : json) : M json :=
  a <- get_artist self ;;
  song_dicts <- mapM Song.to_dict (a_songs a) ;;
  featured_on_dicts <- mapM Song.to_dict (a_featured_on a) ;;
  ret (JObj [(py "id", JInt (a_id a));
             (py "name", a_name a);
             (py "url", a_url a);
             (py "time", now);
             (py "songs", JArr song_dicts);
             (py "featured_on", JArr featured_on_dicts)]).

(** ** Lyricist *)

(** [try: m except Exception: h] *)
Definition try_except {A} (m h : M A) : M A := fun w =>
  match m w with
  | (Raise e, w') => if is_Exception e then h w' else (Raise e, w')
  | r => r
  end.

(** [q in v] for a string [q] and the lyrics [v] of a song: [None] is
    not iterable. *)
Definition py_in (q : pystr) (v : option pystr) : result bool :=
  match v with
  | Some s => Ok (contains q s)
  | None => Raise TypeError
  end.

(** [v == ""] *)
Definition is_empty_str (v : option pystr) : bool :=
  match v with
  | Some [] => true
  | _ => false
  end.

Fixpoint mapR {A B} (f : A -> result B) (l : list A) : result (list B) :=
  match l with
  | [] => Ok []
  | x :: l' => rbind (f x) (fun y => rbind (mapR f l') (fun ys => Ok (y :: ys)))
  end.

Module Lyricist.
Section WithHost.
Context {U : Unicode}.

(** The platform, as the requester and the HTML parser show it:
    - [genius_name alias] is what [get_artist_genius_name] returns;
    - [artist_songs name] is the value under ["artist_songs"] of the
      payload embedded in the artist's page;
    - [search name] is the answer to the API query [search?q=name];
    - [web_page asked path] is the text of a page of the web host when
      [asked] is the list of pages requested so far;
    - [lyrics_container html] is the text of the first lyrics container
      of a page ([<br>] turned into newlines), or the exception that the
      parser or the indexing raises. *)
Variable genius_name : pystr -> result pystr.
Variable artist_songs : pystr -> result json.
Variable search : pystr -> result json.
Variable web_page : list json -> pystr -> result pystr.
Variable lyrics_container : pystr -> result pystr.

(** The inner loop of both scans: the id of the first record named
    [name]. *)
Fixpoint scan_featured (name : pystr) (featured : list json)
  : result (option json) :=
  match featured with
  | [] => Ok None
  | featured_artist :: rest =>
      rbind (getitem featured_artist "name") (fun n =>
      if eq_str n name then
        rbind (getitem featured_artist "id") (fun i => Ok (Some i))
      else scan_featured name rest)
  end.

(** The first loop of [get_artist_id].  [inl i]: the function returns
    [i].  [inr song]: the loop ran out, and [song] is what the loop
    variable is bound to afterwards ([last] before the first turn). *)
Fixpoint scan_songs (name : pystr) (songs : list json) (last : option json)
  : result (json + option json) :=
  match songs with
  | [] => Ok (inr last)
  | song :: rest =>
      rbind (getitem song "primary_artist") (fun primary_artist =>
      rbind (getitem primary_artist "name") (fun n =>
      if eq_str n name then
        rbind (getitem primary_artist "id") (fun i => Ok (inl i))
      else
        rbind (rbind (getitem song "featured_artists") py_iter)
              (fun featured =>
        rbind (scan_featured name featured) (fun found =>
        match found with
        | Some i => Ok (inl i)
        | None => scan_songs name rest (Some song)
        end))))
  end.

(** The second loop.  Its inner loop reads [song], the variable of the
    first loop, which is unbound when that loop had nothing to run on. *)
Fixpoint scan_hits (name : pystr) (hits : list json) (song : option json)
  : result (option json) :=
  match hits with
  | [] => Ok None
  | hit :: rest =>
      rbind (getitem hit "result") (fun r =>
      rbind (getitem r "primary_artist") (fun primary_artist =>
      rbind (getitem primary_artist "name") (fun n =>
      if eq_str n name then
        rbind (getitem primary_artist "id") (fun i => Ok (Some i))
      else
        match song with
        | None => Raise UnboundLocalError
        | Some song =>
            rbind (rbind (getitem song "featured_artists") py_iter)
                  (fun featured =>
            rbind (scan_featured name featured) (fun found =>
            match found with
            | Some i => Ok (Some i)
            | None => scan_hits name rest (Some song)
            end))
        end)))
  end.

(** [Lyricist.get_artist_id] *)
Definition get_artist_id (name : pystr) : result json :=
  rbind (genius_name name) (fun name =>
  rbind (rbind (artist_songs name) py_iter) (fun songs =>
  rbind (scan_songs name songs None) (fun r =>
  match r with
  | inl i => Ok i
  | inr song =>
      rbind (search name) (fun res =>
      rbind (rbind (getitem res "hits") py_iter) (fun hits =>
      rbind (scan_hits name hits song) (fun found =>
      match found with
      | Some i => Ok i
      | None => Raise ValueError
      end)))
  end))).

(** [self._requester.request(url, web=True)] as [get_song_lyrics] calls
    it: [path.startswith] needs a string. *)
Definition request_web (url : json) : M pystr :=
  match url with
  | JStr path =>
      fun w =>
        (log_request url ;;; lift (web_page (requests w) path)) w
  | _ => lift (Raise AttributeError)
  end.

(** [Lyricist.get_song_lyrics] *)
Definition get_song_lyrics (song : loc) : M (option pystr) :=
  s <- get_song song ;;
  match s_lyrics s with
  | None =>
      try_except
        (html <- request_web (s_url s) ;;
         text <- lift (lyrics_container html) ;;
         update_song song (set_lyrics (Some (normalize_lyrics text))))
        (update_song song (set_lyrics (Some [])))
  | Some _ => ret tt
  end ;;;
  s <- get_song song ;;
  ret (s_lyrics s).

(** [Lyricist.get_artist_lyrics] *)
Definition get_artist_lyrics (artist : loc) : M unit :=
  a <- get_artist artist ;;
  forM_ (a_songs a ++ a_featured_on a)
        (fun song => get_song_lyrics song ;;; ret tt).

(** The [lyrics] argument of [search_artist_lyrics]: one string or a
    list of strings. *)
Inductive queries : Type :=
  | One (lyric : pystr)
  | Many (lyrics : list pystr).

(** [all] or [any], as [has_lyrics] is bound. *)
Definition has_lyrics (match_all : bool) (tests : list bool) : bool :=
  if match_all then forallb (fun b => b) tests
  else existsb (fun b => b) tests.

(** The loop of [search_artist_lyrics] over [all_songs]. *)
Fixpoint search_loop (lyrics : list pystr) (match_all : bool)
                     (all_songs : list loc) : M (list loc) :=
  match all_songs with
  | [] => ret []
  | song :: rest =>
      s <- get_song song ;;
      if is_empty_str (s_lyrics s) then search_loop lyrics match_all rest
      else
        tests <- lift (mapR (fun lyric => py_in lyric (s_lyrics s)) lyrics) ;;
        matches <- search_loop lyrics match_all rest ;;
        ret (if has_lyrics match_all tests then song :: matches else matches)
  end.

(** [Lyricist.search_artist_lyrics] *)
Definition search_artist_lyrics (artist : loc) (lyrics : queries)
                                (featured match_all : bool) : M (list loc) :=
  let lyrics := match lyrics with One lyric => [lyric] | Many l => l end in
  let lyrics := List.map (fun lyric => _remove_punctuation (casefold lyric))
                         lyrics in
  a <- get_artist artist ;;
  let all_songs :=
    if featured then a_songs a ++ a_featured_on a else a_songs a in
  search_loop lyrics match_all all_songs.

(** The document that [Lyricist.save_artist] has [Artist.save] write to
    [f"{save_dir}/{artist.id}.json"].  Only the store is looked at here;
    the opening of the file and the writing, which can fail, are in
    [save_artist_file]. *)
Definition save_artist (artist : loc) (now : json) : M json :=
  Artist_save artist now.

(** The body of the loop of [load_artist]. *)
Definition load_song (song_json : json) : M unit :=
  song <- Song.from_data song_json ;;
  lyrics <- lift (rbind (getitem song_json "lyrics") as_lyrics) ;;
  update_song song (set_lyrics lyrics).

(** [Lyricist.load_artist], from the value [artist_json] that
    [json.load] read from the file.  [itertools.chain] evaluates both
    subscripts at once and asks each value for its elements only when
    the loop reaches it. *)
Definition load_artist (artist_json : json) : M loc :=
  artist <- Artist.from_data artist_json ;;
  saved_songs <- lift (getitem artist_json "songs") ;;
  saved_featured_on <- lift (getitem artist_json "featured_on") ;;
  song_jsons <- lift (py_iter saved_songs) ;;
  forM_ song_jsons load_song ;;;
  song_jsons <- lift (py_iter saved_featured_on) ;;
  forM_ song_jsons load_song ;;;
  ret artist.

End WithHost.
End Lyricist.

(** * Properties *)

(** ** The lyric cache *)

Section Fetch.
Context {U : Unicode}.
Variable web_page : list json -> pystr -> result pystr.
Variable lyrics_container : pystr -> result pystr.

Abbreviation get_song_lyrics :=
    (Lyricist.get_song_lyrics web_page lyrics_container).
Abbreviation get_artist_lyrics :=
    (Lyricist.get_artist_lyrics web_page lyrics_container).

(** What the body of the [try] comes to for a song at [url] when the
      pages in [asked] were requested before. *)
Definition fetched (asked : list json) (url : json) : result pystr :=
    match url with
    | JStr path => rbind (web_page asked path) lyrics_container
    | _ => Raise AttributeError
    end.

(** A failure of class [Exception]. *)
Definition caught {A} (r : result A) : Prop :=
  exists e, r = Raise e /\ is_Exception e = true.

(** An answer of the host that is a value or a failure of class
    [Exception]. *)
Definition ordinary {A} (r : result A) : Prop :=
  match r with
  | Ok _ => True
  | Raise e => is_Exception e = true
  | Unmodelled => False
  end.

Definition with_requests (w : world) (asked : list json) : world :=
  mkWorld (artists w) (songs w) (_artists w) (_songs w) asked.

Definition with_songs (w : world) (l : list Song) : world :=
  mkWorld (artists w) l (_artists w) (_songs w) (requests w).

(** The requests that fetching [url] adds to the log. *)
Definition asked_for (url : json) : list json :=
  match url with
  | JStr _ => [url]
  | _ => []
  end.

(** A miss: one request at most, and the song gets what the pipeline
    gave, or the empty string when it failed. *)
Lemma get_song_lyrics_miss (w : world) (song : loc) (s : Song) :
  songs w !! song = Some s ->
  s_lyrics s = None ->
  ordinary (fetched (requests w) (s_url s)) ->
  let v := match fetched (requests w) (s_url s) with
           | Ok text => Some (normalize_lyrics text)
           | _ => Some []
           end in
  get_song_lyrics song w =
    (Ok v,
     with_songs (with_requests w (requests w ++ asked_for (s_url s)))
                (<[song := set_lyrics v s]> (songs w))).
Proof.
  intros Hs Hl Hord v. subst v.
  assert (Hlt : (song < length (songs w))%nat) by (eapply lookup_lt_Some; eauto).
  assert (Hupd : forall x, alter (set_lyrics x) song (songs w) !! song
                           = Some (set_lyrics x s)).
  { intros x. rewrite list_lookup_alter_eq, Hs. reflexivity. }
  assert (Hins : forall x, alter (set_lyrics x) song (songs w)
                           = <[song := set_lyrics x s]> (songs w)).
  { intros x. apply list_eq. intros i. destruct (decide (i = song)) as [->|Hne].
    - rewrite Hupd, list_lookup_insert_eq; auto.
    - rewrite list_lookup_alter_ne, list_lookup_insert_ne; auto. }
  unfold Lyricist.get_song_lyrics, bind, get_song. cbn beta. rewrite Hs, Hl.
  unfold try_except, bind, Lyricist.request_web, fetched in *.
  destruct (s_url s) as [| | | |path| |]; simpl in *;
    try (rewrite Hupd, Hins, app_nil_r; destruct w; reflexivity).
  destruct (web_page (requests w) path) as [html|e|]; simpl in *;
    [ | rewrite Hord; simpl; rewrite Hupd, Hins; reflexivity | contradiction ].
  destruct (lyrics_container html) as [text|e|]; simpl in *;
    [ | rewrite Hord; simpl | contradiction ];
    rewrite Hupd, Hins; reflexivity.
Qed.

Lemma get_song_lyrics_hit (w : world) (song : loc) (s : Song) :
  songs w !! song = Some s ->
  s_lyrics s <> None ->
  get_song_lyrics song w = (Ok (s_lyrics s), w).
Proof.
  intros Hs Hl.
  unfold Lyricist.get_song_lyrics, bind, get_song. cbn beta. rewrite Hs.
  destruct (s_lyrics s) eqn:E; try congruence; simpl; rewrite Hs;
    unfold ret; rewrite E; reflexivity.
Qed.

Definition hosts_ordinary : Prop :=
  (forall asked path, ordinary (web_page asked path)) /\
  (forall html, ordinary (lyrics_container html)).

Lemma fetched_ordinary (asked : list json) (url : json) :
  hosts_ordinary -> ordinary (fetched asked url).
Proof.
  intros [Hw Hc]. destruct url as [| | | |path| |]; simpl; auto.
  specialize (Hw asked path). destruct (web_page asked path); simpl; auto.
Qed.

Lemma get_song_lyrics_total (w : world) (song : loc) :
  hosts_ordinary ->
  is_Some (songs w !! song) ->
  exists v w', get_song_lyrics song w = (Ok v, w')
               /\ length (songs w') = length (songs w)
               /\ artists w' = artists w.
Proof.
  intros Hh [s Hs].
  assert (Hdec : s_lyrics s = None \/ s_lyrics s <> None)
    by (destruct (s_lyrics s); auto; left; discriminate).
  destruct Hdec as [Hl|Hl].
  - eexists _, _. split.
    + apply (get_song_lyrics_miss w song s Hs Hl), fetched_ordinary, Hh.
    + simpl. rewrite length_insert. auto.
  - exists (s_lyrics s), w. split; [apply get_song_lyrics_hit; auto | auto].
Qed.

Lemma get_artist_lyrics_loop (l : list loc) :
  hosts_ordinary ->
  forall w,
    Forall (fun song => is_Some (songs w !! song)) l ->
    exists w', forM_ l (fun song => get_song_lyrics song ;;; ret tt) w
               = (Ok tt, w')
               /\ length (songs w') = length (songs w)
               /\ artists w' = artists w.
Proof.
  intros Hh. induction l as [|song l IH]; intros w Hall.
  - exists w. auto.
  - apply Forall_cons in Hall as [Hsong Hall].
    destruct (get_song_lyrics_total w song Hh Hsong) as (v & w1 & E & Hlen & Ha).
    destruct (IH w1) as (w2 & E2 & Hlen2 & Ha2).
    { eapply Forall_impl; [exact Hall|]. intros x Hx. simpl in *.
      apply lookup_lt_is_Some. rewrite Hlen. apply lookup_lt_is_Some, Hx. }
    exists w2. simpl. unfold bind at 1 2. rewrite E. unfold ret at 1.
    rewrite E2. split; [reflexivity | split; congruence].
Qed.

(** C9.  A song whose [lyrics] is set, be it to the empty string, is
    answered from the song itself: [get_song_lyrics] returns the stored
    value and leaves the whole store as it was, the log of requests
    included, so no page is asked for and no field changes. *)
Theorem get_song_lyrics_cached (w : world) (song : loc) (s : Song) :
  songs w !! song = Some s ->
  s_lyrics s <> None ->
  get_song_lyrics song w = (Ok (s_lyrics s), w).
Proof. apply get_song_lyrics_hit. Qed.

(** C6.  Whatever [Exception] the request, the search for the container
    or the parser raises for a song whose lyrics are unset, the call
    returns the empty string and stores it in the song; and with a host
    whose failures are all of class [Exception], [get_artist_lyrics]
    returns normally on every artist. *)
Theorem lyric_failures_contained (w : world) (artist : loc) (a : Artist) :
  hosts_ordinary ->
  artists w !! artist = Some a ->
  Forall (fun song => is_Some (songs w !! song))
         (a_songs a ++ a_featured_on a) ->
  (exists w', get_artist_lyrics artist w = (Ok tt, w')) /\
  (forall w0 song s,
     songs w0 !! song = Some s ->
     s_lyrics s = None ->
     caught (fetched (requests w0) (s_url s)) ->
     exists w', get_song_lyrics song w0 = (Ok (Some []), w')
                /\ songs w' !! song = Some (set_lyrics (Some []) s)).
Proof.
  intros Hh Ha Hall. split.
  - destruct (get_artist_lyrics_loop _ Hh w Hall) as (w' & E & _).
    exists w'. unfold Lyricist.get_artist_lyrics, bind, get_artist.
    cbn beta. rewrite Ha. exact E.
  - intros w0 song s Hs Hl (e & He & Hexc).
    pose proof (get_song_lyrics_miss w0 song s Hs Hl) as Hm.
    rewrite He in Hm. specialize (Hm Hexc). simpl in Hm.
    eexists. split; [exact Hm|]. simpl.
    apply list_lookup_insert_eq. eapply lookup_lt_Some; eauto.
Qed.

End Fetch.

(** ** Search *)

Section Search.
Context {U : Unicode}.

(** The queries as the loop sees them. *)
Definition normalized (lyrics : Lyricist.queries) : list pystr :=
  List.map (fun lyric => _remove_punctuation (casefold lyric))
           (match lyrics with
            | Lyricist.One lyric => [lyric]
            | Lyricist.Many l => l
            end).

(** Every query is part of [text], or at least one is. *)
Definition text_matches (qs : list pystr) (match_all : bool) (text : pystr)
  : bool :=
  if match_all then forallb (fun q => contains q text) qs
  else existsb (fun q => contains q text) qs.

(** The song at [song] has lyrics, they are not empty, and they match. *)
Definition wanted (w : world) (qs : list pystr) (match_all : bool) (song : loc)
  : bool :=
  match songs w !! song with
  | Some s =>
      match s_lyrics s with
      | Some text => negb (str_eqb text []) && text_matches qs match_all text
      | None => false
      end
  | None => false
  end.

Definition has_text (w : world) (song : loc) : Prop :=
  exists s text, songs w !! song = Some s /\ s_lyrics s = Some text.

Definition unfetched (w : world) (song : loc) : Prop :=
  exists s, songs w !! song = Some s /\ s_lyrics s = None.

Lemma mapR_py_in_text (qs : list pystr) (text : pystr) :
  mapR (fun lyric => py_in lyric (Some text)) qs
  = Ok (List.map (fun q => contains q text) qs).
Proof.
  induction qs as [|q qs IH]; [reflexivity|].
  cbn [mapR List.map]. rewrite IH. reflexivity.
Qed.

Lemma has_lyrics_map (qs : list pystr) (match_all : bool) (text : pystr) :
  Lyricist.has_lyrics match_all (List.map (fun q => contains q text) qs)
  = text_matches qs match_all text.
Proof.
  unfold Lyricist.has_lyrics, text_matches. destruct match_all.
  - induction qs as [|q qs IH]; simpl; [reflexivity|]. rewrite IH. reflexivity.
  - induction qs as [|q qs IH]; simpl; [reflexivity|]. rewrite IH. reflexivity.
Qed.

Lemma is_empty_str_eqb (text : pystr) :
  is_empty_str (Some text) = str_eqb text [].
Proof. destruct text; reflexivity. Qed.

Lemma search_loop_fetched (w : world) (qs : list pystr) (match_all : bool)
      (all_songs : list loc) :
  Forall (has_text w) all_songs ->
  Lyricist.search_loop qs match_all all_songs w
  = (Ok (List.filter (wanted w qs match_all) all_songs), w).
Proof.
  induction all_songs as [|song rest IH]; intros Hall; [reflexivity|].
  apply Forall_cons in Hall as [(s & text & Hs & Hl) Hall].
  specialize (IH Hall). simpl.
  unfold bind at 1, get_song. rewrite Hs. unfold wanted at 1.
  rewrite Hs, Hl, is_empty_str_eqb.
  destruct (str_eqb text []) eqn:E; cbn [negb andb]; [exact IH|].
  unfold bind, lift. rewrite mapR_py_in_text, IH, has_lyrics_map.
  unfold ret. destruct (text_matches qs match_all text); reflexivity.
Qed.

Lemma search_loop_unfetched (w : world) (qs : list pystr) (match_all : bool)
      (all_songs : list loc) :
  qs <> [] ->
  Forall (fun song => is_Some (songs w !! song)) all_songs ->
  Exists (unfetched w) all_songs ->
  Lyricist.search_loop qs match_all all_songs w = (Raise TypeError, w).
Proof.
  intros Hqs.
  induction all_songs as [|song rest IH]; intros Hall Hex.
  - inversion Hex.
  - apply Forall_cons in Hall as [[s Hs] Hall]. simpl.
    unfold bind at 1, get_song. rewrite Hs.
    destruct (s_lyrics s) as [text|] eqn:Hl.
    + assert (Hrest : Exists (unfetched w) rest).
      { inversion Hex as [? ? (s' & Hs' & Hl')|]; subst; [|assumption].
        congruence. }
      specialize (IH Hall Hrest).
      destruct (is_empty_str (Some text)); [exact IH|].
      unfold bind, lift. rewrite mapR_py_in_text, IH. reflexivity.
    + destruct qs as [|q qs]; [congruence|reflexivity].
Qed.

Definition all_songs_of (a : Artist) (featured : bool) : list loc :=
  if featured then a_songs a ++ a_featured_on a else a_songs a.

Lemma search_artist_lyrics_unfold (w : world) (artist : loc) (a : Artist)
      (lyrics : Lyricist.queries) (featured match_all : bool) :
  artists w !! artist = Some a ->
  Lyricist.search_artist_lyrics artist lyrics featured match_all w
  = Lyricist.search_loop (normalized lyrics) match_all
                         (all_songs_of a featured) w.
Proof.
  intros Ha. unfold Lyricist.search_artist_lyrics, bind, get_artist.
  cbn beta. rewrite Ha. reflexivity.
Qed.

(** C2, as amended.  When every song among the candidates has lyrics,
    [search_artist_lyrics] returns, without changing anything, the songs
    of [artist.songs] and then (if [featured]) those of
    [artist.featured_on], each list in its order, whose lyrics are not
    the empty string and contain every normalized query ([match_all]) or
    at least one of them. *)
Theorem search_artist_lyrics_result (w : world) (artist : loc) (a : Artist)
        (lyrics : Lyricist.queries) (featured match_all : bool) :
  artists w !! artist = Some a ->
  Forall (has_text w) (all_songs_of a featured) ->
  Lyricist.search_artist_lyrics artist lyrics featured match_all w
  = (Ok (List.filter (wanted w (normalized lyrics) match_all) (a_songs a)
         ++ (if featured
             then List.filter (wanted w (normalized lyrics) match_all)
                              (a_featured_on a)
             else [])),
     w).
Proof.
  intros Ha Hall.
  rewrite (search_artist_lyrics_unfold w artist a) by exact Ha.
  rewrite search_loop_fetched by exact Hall.
  unfold all_songs_of. destruct featured.
  - rewrite List.filter_app. reflexivity.
  - rewrite app_nil_r. reflexivity.
Qed.

(** C10, as amended.  With at least one query, a candidate whose lyrics
    are still [None] makes [search_artist_lyrics] raise [TypeError]; songs
    with the empty string are passed over on the way to it. *)
Theorem search_artist_lyrics_unfetched (w : world) (artist : loc) (a : Artist)
        (lyrics : Lyricist.queries) (featured match_all : bool) :
  artists w !! artist = Some a ->
  Forall (fun song => is_Some (songs w !! song)) (all_songs_of a featured) ->
  Exists (unfetched w) (all_songs_of a featured) ->
  normalized lyrics <> [] ->
  Lyricist.search_artist_lyrics artist lyrics featured match_all w
  = (Raise TypeError, w).
Proof.
  intros Ha Hall Hex Hqs.
  rewrite (search_artist_lyrics_unfold w artist a) by exact Ha.
  apply search_loop_unfetched; assumption.
Qed.

End Search.

(** ** The resolver *)

Lemma str_eqb_eq (s t : pystr) : str_eqb s t = true <-> s = t.
Proof.
  revert t. induction s as [|c s IH]; intros [|d t]; simpl;
    try (split; [discriminate|congruence]); [tauto|].
  rewrite andb_true_iff, N.eqb_eq, IH. split.
  - intros [-> ->]. reflexivity.
  - intros E. inversion E. auto.
Qed.

Definition is_ok {A} (r : result A) : bool :=
  match r with Ok _ => true | _ => false end.

(** A credit record: it has a name and an id. *)
Definition wf_record (r : json) : bool :=
  is_ok (getitem r "name") && is_ok (getitem r "id").

(** The credits of a song in the order the loop reads them: the primary
    artist, then the featured artists. *)
Definition song_credits (song : json) : list json :=
  match getitem song "primary_artist",
        rbind (getitem song "featured_artists") py_iter with
  | Ok primary_artist, Ok featured => primary_artist :: featured
  | _, _ => []
  end.

Definition wf_song (song : json) : bool :=
  is_ok (getitem song "primary_artist")
  && is_ok (rbind (getitem song "featured_artists") py_iter)
  && forallb wf_record (song_credits song).

(** [r["name"] == name] *)
Definition is_named (name : pystr) (r : json) : bool :=
  match getitem r "name" with
  | Ok n => eq_str n name
  | _ => false
  end.

Definition id_of (r : json) : json :=
  match getitem r "id" with
  | Ok i => i
  | _ => JNull
  end.

(** The id of the first credit named [name], songs taken in page order. *)
Definition first_credit (name : pystr) (songs : list json) : option json :=
  option_map id_of (List.find (is_named name) (flat_map song_credits songs)).

Lemma is_named_spec (name : pystr) (r : json) :
  is_named name r = true <-> getitem r "name" = Ok (JStr name).
Proof.
  unfold is_named. destruct (getitem r "name") as [n| |]; try (split; discriminate).
  destruct n; simpl; try (split; discriminate).
  rewrite str_eqb_eq. split; congruence.
Qed.

Lemma scan_featured_spec (name : pystr) (featured : list json) :
  forallb wf_record featured = true ->
  Lyricist.scan_featured name featured
  = Ok (option_map id_of (List.find (is_named name) featured)).
Proof.
  induction featured as [|r rest IH]; intros Hwf; [reflexivity|].
  simpl in Hwf. apply andb_true_iff in Hwf as [Hr Hrest].
  unfold wf_record in Hr. apply andb_true_iff in Hr as [Hn Hi].
  cbn [Lyricist.scan_featured List.find]. unfold is_named at 1.
  destruct (getitem r "name") as [n| |]; try discriminate.
  destruct (getitem r "id") as [i| |] eqn:Ei; try discriminate.
  cbn [rbind]. destruct (eq_str n name); [|apply IH, Hrest].
  cbn [option_map]. unfold id_of. rewrite Ei. reflexivity.
Qed.

Lemma find_app {A} (f : A -> bool) (l1 l2 : list A) :
  List.find f (l1 ++ l2)
  = match List.find f l1 with
    | Some x => Some x
    | None => List.find f l2
    end.
Proof.
  induction l1 as [|x l1 IH]; simpl; [reflexivity|].
  destruct (f x); [reflexivity|exact IH].
Qed.

Fixpoint last_song (songs : list json) (last : option json) : option json :=
  match songs with
  | [] => last
  | song :: rest => last_song rest (Some song)
  end.

Lemma scan_songs_spec (name : pystr) (songs : list json) :
  forallb wf_song songs = true ->
  forall last,
    Lyricist.scan_songs name songs last
    = Ok (match first_credit name songs with
          | Some i => inl i
          | None => inr (last_song songs last)
          end).
Proof.
  unfold first_credit.
  induction songs as [|song rest IH]; intros Hwf last; [reflexivity|].
  simpl in Hwf. apply andb_true_iff in Hwf as [Hsong Hrest].
  unfold wf_song in Hsong.
  apply andb_true_iff in Hsong as [Hsong Hcred].
  apply andb_true_iff in Hsong as [Hp Hf].
  cbn [Lyricist.scan_songs flat_map last_song]. unfold song_credits in *.
  destruct (getitem song "primary_artist") as [p| |]; try discriminate.
  destruct (rbind (getitem song "featured_artists") py_iter) as [fs| |];
    try discriminate.
  cbn [forallb] in Hcred. apply andb_true_iff in Hcred as [Hrp Hfs].
  unfold wf_record in Hrp. apply andb_true_iff in Hrp as [Hn Hi].
  cbn [rbind app List.find]. unfold is_named at 1, id_of at 1.
  destruct (getitem p "name") as [n| |]; try discriminate.
  destruct (getitem p "id") as [i| |] eqn:Ei; try discriminate.
  cbn [rbind]. destruct (eq_str n name).
  - cbn [option_map]. unfold id_of. rewrite Ei. reflexivity.
  - rewrite (scan_featured_spec name fs Hfs). cbn [rbind].
    rewrite find_app.
    destruct (List.find (is_named name) fs) as [r|]; [reflexivity|].
    cbn [option_map]. apply IH, Hrest.
Qed.

(** A search hit: its result names a primary artist with a name and an
    id. *)
Definition hit_artist (hit : json) : json :=
  match rbind (getitem hit "result") (fun r => getitem r "primary_artist") with
  | Ok primary_artist => primary_artist
  | _ => JNull
  end.

Definition wf_hit (hit : json) : bool :=
  is_ok (rbind (getitem hit "result") (fun r => getitem r "primary_artist"))
  && wf_record (hit_artist hit).

(** With the loop variable bound to a song none of whose credits is named
    [name], the second loop comes to a scan of the primary artists of the
    hits. *)
Lemma scan_hits_spec (name : pystr) (song : json) (hits : list json) :
  wf_song song = true ->
  List.find (is_named name) (song_credits song) = None ->
  forallb wf_hit hits = true ->
  Lyricist.scan_hits name hits (Some song)
  = Ok (option_map id_of (List.find (is_named name) (List.map hit_artist hits))).
Proof.
  intros Hsong Hnone. unfold wf_song in Hsong.
  apply andb_true_iff in Hsong as [Hsong Hcred].
  apply andb_true_iff in Hsong as [Hp Hf]. unfold song_credits in *.
  destruct (getitem song "primary_artist") as [p| |]; try discriminate.
  destruct (rbind (getitem song "featured_artists") py_iter) as [fs| |] eqn:Efs;
    try discriminate.
  cbn [forallb List.find] in Hcred, Hnone.
  apply andb_true_iff in Hcred as [_ Hfs].
  destruct (is_named name p); [discriminate|].
  induction hits as [|hit rest IH]; intros Hwf; [reflexivity|].
  cbn [forallb] in Hwf. apply andb_true_iff in Hwf as [Hhit Hrest].
  unfold wf_hit in Hhit. apply andb_true_iff in Hhit as [Hr Hrec].
  cbn [Lyricist.scan_hits List.map List.find].
  destruct (getitem hit "result") as [r| |] eqn:Er; try discriminate.
  cbn [rbind] in Hr |- *.
  destruct (getitem r "primary_artist") as [q| |] eqn:Eq; try discriminate.
  assert (Hq : hit_artist hit = q).
  { unfold hit_artist. rewrite Er. cbn [rbind]. rewrite Eq. reflexivity. }
  rewrite Hq in *. cbn [rbind].
  unfold wf_record in Hrec. apply andb_true_iff in Hrec as [Hn Hi].
  unfold is_named at 1.
  destruct (getitem q "name") as [n| |]; try discriminate.
  destruct (getitem q "id") as [i| |] eqn:Ei; try discriminate.
  cbn [rbind]. destruct (eq_str n name).
  - cbn [option_map]. unfold id_of. rewrite Ei. reflexivity.
  - rewrite Efs. cbn [rbind]. rewrite (scan_featured_spec name fs Hfs), Hnone.
    cbn [option_map rbind]. apply IH, Hrest.
Qed.

Lemma first_credit_none_last (name : pystr) (songs : list json) (song : json) :
  first_credit name (songs ++ [song]) = None ->
  List.find (is_named name) (song_credits song) = None.
Proof.
  unfold first_credit. rewrite flat_map_app, find_app. simpl.
  rewrite app_nil_r.
  destruct (List.find (is_named name) (flat_map song_credits songs));
    [discriminate|].
  destruct (List.find (is_named name) (song_credits song)); [discriminate|auto].
Qed.

Lemma last_song_app (songs : list json) (song : json) (last : option json) :
  last_song (songs ++ [song]) last = Some song.
Proof. revert last. induction songs as [|x l IH]; intros; simpl; auto. Qed.

(** Songs whose credits are in order, with a credit named [name] among
    them: the loop stops there and never reads what follows. *)
Lemma scan_songs_found (name : pystr) (songs rest : list json) (i : json) :
  forallb wf_song songs = true ->
  first_credit name songs = Some i ->
  forall last, Lyricist.scan_songs name (songs ++ rest) last = Ok (inl i).
Proof.
  unfold first_credit.
  induction songs as [|song songs IH]; intros Hwf Hi last; [discriminate|].
  simpl in Hwf. apply andb_true_iff in Hwf as [Hsong Hrest].
  unfold wf_song in Hsong.
  apply andb_true_iff in Hsong as [Hsong Hcred].
  apply andb_true_iff in Hsong as [Hp Hf].
  cbn [Lyricist.scan_songs flat_map app] in *. unfold song_credits in *.
  destruct (getitem song "primary_artist") as [p| |]; try discriminate.
  destruct (rbind (getitem song "featured_artists") py_iter) as [fs| |];
    try discriminate.
  cbn [forallb] in Hcred. apply andb_true_iff in Hcred as [Hrp Hfs].
  unfold wf_record in Hrp. apply andb_true_iff in Hrp as [Hn Hid].
  cbn [rbind app List.find] in *. unfold is_named at 1 in Hi.
  destruct (getitem p "name") as [n| |]; try discriminate.
  destruct (getitem p "id") as [j| |] eqn:Ej; try discriminate.
  cbn [rbind]. destruct (eq_str n name).
  - cbn [option_map] in Hi. unfold id_of in Hi. rewrite Ej in Hi.
    injection Hi as <-. reflexivity.
  - rewrite (scan_featured_spec name fs Hfs). cbn [rbind].
    rewrite find_app in Hi.
    destruct (List.find (is_named name) fs) as [r|].
    + cbn [option_map] in *. congruence.
    + cbn [option_map]. apply IH; assumption.
Qed.

Section Resolver.
Variable genius_name : pystr -> result pystr.
Variable artist_songs : pystr -> result json.
Variable search : pystr -> result json.

Abbreviation get_artist_id :=
  (Lyricist.get_artist_id genius_name artist_songs search).

(** C3.  The first loop of [get_artist_id] goes through the songs in
    page order and, within a song, reads the primary artist and then the
    featured artists; at the first credit whose name equals the canonical
    name it returns that credit's id.  The songs up to that credit are
    taken to have the shape of the payload (a primary artist and a list
    of featured artists, each with a name and an id); what follows them
    is never read. *)
Theorem get_artist_id_first_credit (alias name : pystr)
        (songs rest : list json) (i : json) :
  genius_name alias = Ok name ->
  rbind (artist_songs name) py_iter = Ok (songs ++ rest) ->
  forallb wf_song songs = true ->
  first_credit name songs = Some i ->
  get_artist_id alias = Ok i.
Proof.
  intros Hname Hsongs Hwf Hfirst.
  unfold Lyricist.get_artist_id. rewrite Hname. cbn [rbind].
  rewrite Hsongs. cbn [rbind].
  rewrite (scan_songs_found name songs rest i Hwf Hfirst). reflexivity.
Qed.

(** When the page lists at least one song and no credit on it is named
    [name], [get_artist_id] goes on to the search and answers with the
    first hit whose primary artist is named [name], or raises the
    [ValueError] of its last line. *)
Lemma get_artist_id_fallback (alias name : pystr) (songs : list json)
      (song res : json) (hits : list json) :
  genius_name alias = Ok name ->
  rbind (artist_songs name) py_iter = Ok (songs ++ [song]) ->
  forallb wf_song (songs ++ [song]) = true ->
  first_credit name (songs ++ [song]) = None ->
  search name = Ok res ->
  rbind (getitem res "hits") py_iter = Ok hits ->
  forallb wf_hit hits = true ->
  get_artist_id alias
  = match List.find (is_named name) (List.map hit_artist hits) with
    | Some r => Ok (id_of r)
    | None => Raise ValueError
    end.
Proof.
  intros Hname Hsongs Hwf Hnone Hsearch Hhits Hwfh.
  unfold Lyricist.get_artist_id. rewrite Hname. cbn [rbind].
  rewrite Hsongs. cbn [rbind].
  rewrite (scan_songs_spec name _ Hwf), Hnone, last_song_app. cbn [rbind].
  rewrite Hsearch. cbn [rbind]. rewrite Hhits. cbn [rbind].
  rewrite (scan_hits_spec name song hits); auto.
  - destruct (List.find (is_named name) (List.map hit_artist hits)); reflexivity.
  - rewrite forallb_app in Hwf. apply andb_true_iff in Hwf as [_ Hs].
    simpl in Hs. rewrite andb_true_r in Hs. exact Hs.
  - eapply first_credit_none_last; eauto.
Qed.

End Resolver.

Definition credit (name : string) (i : Z) : json :=
  JObj [(py "name", JStr (py name)); (py "id", JInt i)].

Definition hit (primary_artist : json) : json :=
  JObj [(py "result", JObj [(py "primary_artist", primary_artist)])].

(** A host whose page for the artist lists no song, and whose search
    finds the artist in its second hit. *)
Definition empty_page : pystr -> result json := fun _ => Ok (JArr []).

Definition two_hits : pystr -> result json := fun _ =>
  Ok (JObj [(py "hits", JArr [hit (credit "Someone Else" 7);
                              hit (credit "A. G. Cook" 5)])]).

Definition one_hit : pystr -> result json := fun _ =>
  Ok (JObj [(py "hits", JArr [hit (credit "Someone Else" 7)])]).

(** C4.  With an empty list of songs on the page, the first hit whose
    primary artist has another name makes the second loop read the unbound
    loop variable [song]: [get_artist_id] raises [UnboundLocalError], not
    the [ValueError] of its last line, and never reaches a later hit that
    matches. *)
Theorem get_artist_id_unbound_song :
  Lyricist.get_artist_id (fun alias => Ok alias) empty_page one_hit
                         (py "A. G. Cook")
  = Raise UnboundLocalError
  /\ Lyricist.get_artist_id (fun alias => Ok alias) empty_page two_hits
                            (py "A. G. Cook")
     = Raise UnboundLocalError.
Proof. split; reflexivity. Qed.


(** ** Lyric normalization *)

Section Normalization.
Context {U : Unicode}.

(** The pipeline as the specification words it: five steps, one after
    the other. *)
Definition normalize_in_order (text : pystr) : pystr :=
  casefold
    (_remove_punctuation
       (collapse_newlines
          (strip_headers
             (nfkd text)))).

Definition ends_with_newline (s : pystr) : Prop := last s = Some newline.
Definition starts_with_newline (s : pystr) : Prop := head s = Some newline.

Lemma collapse_newlines_cons (c : N) (s : pystr) :
  c <> newline ->
  collapse_newlines (c :: s) = c :: collapse_newlines s.
Proof.
  intros Hc. destruct s as [|d s]; [reflexivity|]. simpl.
  apply N.eqb_neq in Hc. rewrite Hc. reflexivity.
Qed.

Lemma collapse_newlines_two (c d : N) (s : pystr) :
  collapse_newlines (c :: d :: s)
  = if N.eqb c newline && N.eqb d newline
    then newline :: collapse_newlines s
    else c :: collapse_newlines (d :: s).
Proof. reflexivity. Qed.

Lemma collapse_newlines_pair (s : pystr) :
  collapse_newlines (newline :: newline :: s) = newline :: collapse_newlines s.
Proof. reflexivity. Qed.

Lemma collapse_newlines_single (s : pystr) :
  ~ starts_with_newline s ->
  collapse_newlines (newline :: s) = newline :: collapse_newlines s.
Proof.
  intros Hs. destruct s as [|d s]; [reflexivity|].
  assert (Hd : d <> newline) by (intros ->; apply Hs; reflexivity).
  apply N.eqb_neq in Hd. simpl. rewrite Hd. reflexivity.
Qed.

(** A piece that does not end in a newline is collapsed on its own. *)
Lemma collapse_newlines_app (pre s : pystr) :
  ~ ends_with_newline pre ->
  collapse_newlines (pre ++ s) = collapse_newlines pre ++ collapse_newlines s.
Proof.
  remember (length pre) as n eqn:Hn. revert pre Hn.
  induction n as [n IH] using lt_wf_ind. intros pre Hn Hend.
  destruct pre as [|c pre]; [reflexivity|].
  destruct (N.eq_dec c newline) as [->|Hc].
  - destruct pre as [|d pre]; [exfalso; apply Hend; reflexivity|].
    destruct (N.eq_dec d newline) as [->|Hd].
    + change ((newline :: newline :: pre) ++ s)
        with (newline :: newline :: (pre ++ s)).
      rewrite !collapse_newlines_pair. cbn [app]. f_equal.
      apply (IH (length pre)); [simpl in Hn; lia|reflexivity|].
      intros H. apply Hend. unfold ends_with_newline in *.
      destruct pre; [discriminate|]. exact H.
    + change ((newline :: d :: pre) ++ s) with (newline :: (d :: pre) ++ s).
      rewrite !collapse_newlines_single
        by (unfold starts_with_newline; simpl; congruence).
      cbn [app]. f_equal. rewrite app_comm_cons.
      apply (IH (length (d :: pre))); [simpl in *; lia|reflexivity|].
      intros H. apply Hend. exact H.
  - cbn [app]. rewrite !collapse_newlines_cons by exact Hc.
    cbn [app]. f_equal.
    destruct pre as [|d pre]; [reflexivity|].
    apply (IH (length (d :: pre))); [simpl in *; lia|reflexivity|].
    intros H. apply Hend. exact H.
Qed.

(** A run of [n] newlines comes out as a run of [n/2] rounded up. *)
Lemma collapse_newlines_run (n : nat) (rest : pystr) :
  ~ starts_with_newline rest ->
  collapse_newlines (repeat newline n ++ rest)
  = repeat newline (Nat.div2 (S n)) ++ collapse_newlines rest.
Proof.
  intros Hrest. induction n as [n IH] using lt_wf_ind.
  destruct n as [|[|n]].
  - reflexivity.
  - cbn [repeat app]. apply collapse_newlines_single, Hrest.
  - change (repeat newline (S (S n)) ++ rest)
      with (newline :: newline :: (repeat newline n ++ rest)).
    rewrite collapse_newlines_pair, (IH n) by lia. reflexivity.
Qed.

Lemma no_double_collapse (s : pystr) :
  contains [newline; newline] s = false ->
  collapse_newlines s = s.
Proof.
  induction s as [|c s IH]; intros H; [reflexivity|].
  cbn [contains] in H. apply orb_false_iff in H as [Hhere Hrest].
  destruct s as [|d s]; [reflexivity|].
  cbn [collapse_newlines].
  destruct (N.eqb c newline && N.eqb d newline) eqn:E.
  - exfalso. apply andb_true_iff in E as [Ec Ed].
    cbn [startswith] in Hhere.
    rewrite (N.eqb_sym newline c), (N.eqb_sym newline d), Ec, Ed in Hhere.
    discriminate.
  - f_equal. apply IH. exact Hrest.
Qed.

End Normalization.

(** Three newlines in a row: the first two become one, the third stays,
    and the result still holds two newlines in a row. *)
Definition three_newlines : pystr := [97; 10; 10; 10; 98]%N.

(** C7, at a text where the claim fails.  Nothing of [three_newlines] is
    a header, so it is the text the collapsing step receives; the pair of
    newlines at its third and fourth code points is not collapsed, and
    the result of the whole pipeline still contains two newlines in a
    row. *)
Lemma doubled_newline_survives :
  @strip_headers (@nfkd basic_latin three_newlines) = three_newlines
  /\ contains [newline; newline] three_newlines = true
  /\ @normalize_lyrics basic_latin three_newlines = [97; 10; 10; 98]%N
  /\ contains [newline; newline]
              (@normalize_lyrics basic_latin three_newlines) = true.
Proof. repeat split; reflexivity. Qed.

(** C7, as amended.  [normalize_lyrics] is NFKD, then the removal of
    headers, then the collapsing of newlines, then the removal of
    punctuation, then case folding; and the collapsing step replaces the
    pairs of newlines it meets from the left, so that a run of [n]
    newlines, wherever it stands, becomes a run of [n/2] rounded up. *)
Theorem normalize_lyrics_steps {U : Unicode} (text pre rest : pystr) (n : nat) :
  ~ ends_with_newline pre ->
  ~ starts_with_newline rest ->
  normalize_lyrics text = normalize_in_order text
  /\ collapse_newlines (pre ++ repeat newline n ++ rest)
     = collapse_newlines pre ++ repeat newline (Nat.div2 (S n))
       ++ collapse_newlines rest.
Proof.
  intros Hpre Hrest. split; [reflexivity|].
  rewrite collapse_newlines_app by exact Hpre.
  rewrite collapse_newlines_run by exact Hrest. reflexivity.
Qed.

(** *** Idempotence *)

(** A code point that [_remove_punctuation] keeps and NFKD leaves alone. *)
Definition plain {U : Unicode} (c : N) : Prop :=
  kept c = true /\ nfkd [c] = [c].

(** What idempotence rests on in the Unicode tables: a code point of a
    decomposed string has no decomposition of its own; a string of plain
    code points is in NFKD (they are all starters); folding a plain code
    point gives plain code points, and these fold to themselves; the
    opening bracket is punctuation. *)
Class UnicodeLaws (U : Unicode) : Prop := {
  nfkd_parts : forall s c, In c (nfkd s) -> nfkd [c] = [c];
  nfkd_plain : forall s, Forall plain s -> nfkd s = s;
  casefold_plain : forall c, plain c -> Forall plain (casefold_char c);
  casefold_fixed : forall c d, In d (casefold_char c) -> casefold_char d = [d];
  bracket_is_punctuation : kept lbracket = false
}.

Section Idempotence.
Context {U : Unicode}.

Lemma strip_from_Forall (P : N -> Prop) (s : pystr) :
  Forall P s -> forall skip, Forall P (strip_from skip s).
Proof.
  induction 1 as [|c s Hc Hs IH]; intros skip; [constructor|].
  cbn [strip_from]. destruct skip as [|k]; [|apply IH].
  destruct (N.eqb c lbracket).
  - destruct (header_span s); [apply IH|constructor; auto].
  - constructor; auto.
Qed.

Lemma collapse_newlines_Forall (P : N -> Prop) (s : pystr) :
  Forall P s -> Forall P (collapse_newlines s).
Proof.
  remember (length s) as n eqn:Hn. revert s Hn.
  induction n as [n IH] using lt_wf_ind. intros s Hn Hs.
  destruct s as [|c [|d s]]; [constructor|exact Hs|].
  rewrite collapse_newlines_two.
  inversion Hs as [|? ? Hc Hs']; subst. inversion Hs' as [|? ? Hd Hs'']; subst.
  destruct (N.eqb c newline && N.eqb d newline) eqn:E.
  - apply andb_true_iff in E as [Ec _]. apply N.eqb_eq in Ec. subst c.
    constructor; [exact Hc|].
    apply (IH (length s)); [simpl; lia|reflexivity|exact Hs''].
  - constructor; [exact Hc|].
    apply (IH (length (d :: s))); [simpl; lia|reflexivity|exact Hs'].
Qed.

Lemma filter_Forall (P : N -> Prop) (f : N -> bool) (s : pystr) :
  Forall P s -> Forall P (List.filter f s).
Proof.
  induction 1 as [|c s Hc Hs IH]; simpl; [constructor|].
  destruct (f c); [constructor|]; auto.
Qed.

Lemma filter_kept (f : N -> bool) (s : pystr) :
  Forall (fun c => f c = true) (List.filter f s).
Proof.
  induction s as [|c s IH]; simpl; [constructor|].
  destruct (f c) eqn:E; [constructor|]; auto.
Qed.

Lemma filter_all (f : N -> bool) (s : pystr) :
  Forall (fun c => f c = true) s -> List.filter f s = s.
Proof.
  induction 1 as [|c s Hc Hs IH]; simpl; [reflexivity|].
  rewrite Hc, IH. reflexivity.
Qed.

Lemma strip_headers_no_bracket (s : pystr) :
  Forall (fun c => c <> lbracket) s -> strip_headers s = s.
Proof.
  unfold strip_headers. induction 1 as [|c s Hc Hs IH]; [reflexivity|].
  cbn [strip_from]. apply N.eqb_neq in Hc. rewrite Hc, IH. reflexivity.
Qed.

Lemma casefold_fixed_text (s : pystr) :
  Forall (fun c => casefold_char c = [c]) s -> casefold s = s.
Proof.
  unfold casefold. induction 1 as [|c s Hc Hs IH]; [reflexivity|].
  cbn [flat_map]. rewrite Hc, IH. reflexivity.
Qed.

Context {L : UnicodeLaws U}.

(** Before folding, the text is made of plain code points. *)
Lemma cleaned_plain (text : pystr) :
  Forall plain
    (_remove_punctuation (collapse_newlines (strip_headers (nfkd text)))).
Proof.
  unfold plain, _remove_punctuation. apply Forall_and; split.
  - apply filter_kept.
  - apply filter_Forall, collapse_newlines_Forall, strip_from_Forall.
    apply List.Forall_forall. intros c Hc. eapply nfkd_parts, Hc.
Qed.

(** After folding, it is made of plain code points that fold to
    themselves. *)
Lemma normalized_plain (text : pystr) :
  Forall (fun c => plain c /\ casefold_char c = [c]) (normalize_lyrics text).
Proof.
  unfold normalize_lyrics, casefold.
  pose proof (cleaned_plain text) as H.
  induction H as [|c s Hc Hs IH]; [constructor|].
  cbn [flat_map]. apply Forall_app. split; [|exact IH].
  pose proof (casefold_plain c Hc) as Hp.
  apply List.Forall_forall. intros d Hd. split.
  - rewrite List.Forall_forall in Hp. apply Hp, Hd.
  - eapply casefold_fixed, Hd.
Qed.

Lemma normalize_lyrics_fixed (text : pystr) :
  contains [newline; newline] (normalize_lyrics text) = false ->
  normalize_lyrics (normalize_lyrics text) = normalize_lyrics text.
Proof.
  intros Hnl. pose proof (normalized_plain text) as H.
  set (t := normalize_lyrics text) in *.
  unfold normalize_lyrics at 1.
  rewrite nfkd_plain
    by (eapply Forall_impl; [exact H|]; intros c [Hc _]; exact Hc).
  rewrite strip_headers_no_bracket.
  2:{ eapply Forall_impl; [exact H|]. intros c [[Hk _] _] ->.
      rewrite bracket_is_punctuation in Hk. discriminate. }
  rewrite no_double_collapse by exact Hnl.
  unfold _remove_punctuation. rewrite filter_all.
  2:{ eapply Forall_impl; [exact H|]. intros c [[Hk _] _]. exact Hk. }
  apply casefold_fixed_text.
  eapply Forall_impl; [exact H|]. intros c [_ Hc]. exact Hc.
Qed.

End Idempotence.

(** The Basic Latin tables obey the laws. *)
Lemma basic_latin_laws : UnicodeLaws basic_latin.
Proof.
  assert (Hfold : forall c d, In d (ascii_fold c) ->
                    ascii_fold d = [d]
                    /\ (ascii_word c || ascii_space c = true ->
                        ascii_word d || ascii_space d = true)).
  { intros c d. unfold ascii_fold, ascii_word, ascii_space.
    destruct (N.leb 65 c && N.leb c 90)%N eqn:E; intros [<-|[]].
    - apply andb_true_iff in E as [E1 E2].
      apply N.leb_le in E1, E2.
      assert (H1 : N.leb (c + 32) 90 = false) by (apply N.leb_gt; lia).
      assert (H2 : N.leb 97 (c + 32) = true) by (apply N.leb_le; lia).
      assert (H3 : N.leb (c + 32) 122 = true) by (apply N.leb_le; lia).
      rewrite H1, H2, H3, andb_false_r. split; [reflexivity|].
      intros _. rewrite !orb_true_r. reflexivity.
    - rewrite E. split; [reflexivity|auto]. }
  constructor; unfold plain, kept; cbn [nfkd casefold_char is_word is_space basic_latin].
  - reflexivity.
  - reflexivity.
  - intros c [Hk _]. apply List.Forall_forall. intros d Hd.
    split; [|reflexivity]. eapply Hfold; eauto.
  - intros c d Hd. eapply Hfold; eauto.
  - reflexivity.
Qed.

(** C8, at a text where the claim fails: normalizing three newlines
    gives two, and normalizing those gives one. *)
Lemma normalize_lyrics_not_idempotent :
  @normalize_lyrics basic_latin
     (@normalize_lyrics basic_latin [10; 10; 10]%N)
  <> @normalize_lyrics basic_latin [10; 10; 10]%N.
Proof. vm_compute. discriminate. Qed.

(** C8, as amended.  On a text whose normalized form holds no two
    newlines in a row, normalizing twice is normalizing once. *)
Theorem normalize_lyrics_idempotent {U : Unicode} (text : pystr) :
  UnicodeLaws U ->
  contains [newline; newline] (normalize_lyrics text) = false ->
  normalize_lyrics (normalize_lyrics text) = normalize_lyrics text.
Proof. intros L. apply normalize_lyrics_fixed. Qed.

(** ** The registries *)

(** *** What the constructors do to the store *)

(** A new artist, filed under its id. *)
Definition add_artist (a : Artist) (w : world) : world :=
  mkWorld (artists w ++ [a]) (songs w)
          (<[a_id a := length (artists w)]> (_artists w)) (_songs w)
          (requests w).

(** The artists after the song at [song] has been appended to the
    [songs] of its artist and to the [featured_on] of each featured
    artist, one append for each time the artist is listed. *)
Definition link_song (song : loc) (s : Song) (h : list Artist) : list Artist :=
  foldl (fun h f => alter (append_featured_on song) f h)
        (alter (append_song song) (s_artist s) h)
        (s_featured_artists s).

(** A new song, linked and filed under its id. *)
Definition add_song (s : Song) (w : world) : world :=
  mkWorld (link_song (length (songs w)) s (artists w)) (songs w ++ [s])
          (_artists w) (<[s_id s := length (songs w)]> (_songs w))
          (requests w).

Definition put_lyrics (song : loc) (v : option pystr) (w : world) : world :=
  with_songs w (alter (set_lyrics v) song (songs w)).

Definition registered (w : world) (l : loc) : Prop :=
  exists i, _artists w !! i = Some l.

(** One change of the store. *)
Inductive step {U : Unicode} : world -> world -> Prop :=
  | step_artist w i name url :
      _artists w !! i = None ->
      step w (add_artist (mkArtist i name url [] []) w)
  | step_song w i title full_title url artist featured_artists :
      _songs w !! i = None ->
      registered w artist ->
      Forall (registered w) featured_artists ->
      step w (add_song (mkSong i (nfkd title) (nfkd full_title) url artist
                               featured_artists None) w)
  | step_lyrics w song v :
      step w (put_lyrics song v w)
  | step_request w url :
      step w (with_requests w (requests w ++ [url])).

(** A store that the program can build. *)
Definition built {U : Unicode} (w : world) : Prop := rtc step fresh w.

Lemma Artist_from_data_run (data : json) (w : world) :
  Artist.from_data data w
  = match rbind (getitem data "id") as_id with
    | Ok i =>
        match _artists w !! i with
        | Some l => (Ok l, w)
        | None =>
            match getitem data "name" with
            | Ok name =>
                match getitem data "url" with
                | Ok url => (Ok (length (artists w)),
                             add_artist (mkArtist i name url [] []) w)
                | Raise e => (Raise e, w)
                | Unmodelled => (Unmodelled, w)
                end
            | Raise e => (Raise e, w)
            | Unmodelled => (Unmodelled, w)
            end
        end
    | Raise e => (Raise e, w)
    | Unmodelled => (Unmodelled, w)
    end.
Proof.
  unfold Artist.from_data, bind, lift, find_artist.
  destruct (rbind (getitem data "id") as_id) as [i| |]; [|reflexivity..].
  destruct (_artists w !! i); [reflexivity|].
  destruct (getitem data "name"); [|reflexivity..].
  destruct (getitem data "url"); reflexivity.
Qed.

Lemma forM_update_artist (f : Artist -> Artist) (ls : list loc) (w : world) :
  forM_ ls (fun l => update_artist l f) w
  = (Ok tt,
     mkWorld (foldl (fun h l => alter f l h) (artists w) ls) (songs w)
             (_artists w) (_songs w) (requests w)).
Proof.
  revert w. induction ls as [|l ls IH]; intros w; [destruct w; reflexivity|].
  cbn [forM_ foldl]. unfold bind at 1, update_artist at 1. rewrite IH.
  reflexivity.
Qed.

(** The last lines of [Song.from_data], from the construction of the
    song on. *)
Lemma Song_construct_run (s : Song) (w : world) :
  (song <- new_song s ;;
   update_artist (s_artist s) (append_song song) ;;;
   forM_ (s_featured_artists s)
         (fun featured_artist =>
            update_artist featured_artist (append_featured_on song)) ;;;
   register_song (s_id s) song ;;;
   ret song) w
  = (Ok (length (songs w)), add_song s w).
Proof.
  unfold bind at 1, new_song. unfold bind at 1, update_artist at 1.
  unfold bind at 1. rewrite forM_update_artist. reflexivity.
Qed.

(** *** What a change never touches *)

(** The fields of an artist that come from the record it was made of. *)
Definition artist_core (a : Artist) : Z * json * json :=
  (a_id a, a_name a, a_url a).

(** The fields of a song that come from the record it was made of. *)
Definition song_core (s : Song)
  : Z * pystr * pystr * json * loc * list loc :=
  (s_id s, s_title s, s_full_title s, s_url s, s_artist s,
   s_featured_artists s).

(** [w'] keeps what [w] has: every id filed in [w] is filed in [w'] under
    the same address, and every object of [w] is still at its address
    with the fields it was made with. *)
Definition keeps (w w' : world) : Prop :=
  _artists w ⊆ _artists w'
  /\ _songs w ⊆ _songs w'
  /\ (artist_core <$> artists w) `prefix_of` (artist_core <$> artists w')
  /\ (song_core <$> songs w) `prefix_of` (song_core <$> songs w').

Lemma keeps_refl (w : world) : keeps w w.
Proof. repeat split; reflexivity. Qed.

Lemma keeps_trans (w1 w2 w3 : world) : keeps w1 w2 -> keeps w2 w3 -> keeps w1 w3.
Proof.
  intros (A1 & B1 & C1 & D1) (A2 & B2 & C2 & D2).
  repeat split; etransitivity; eassumption.
Qed.

Lemma fmap_alter_same {A B} (g : A -> B) (f : A -> A) (k : nat) (l : list A) :
  (forall x, g (f x) = g x) -> g <$> alter f k l = g <$> l.
Proof.
  intros H. revert k. induction l as [|x l IH]; intros [|k]; simpl;
    try reflexivity.
  - rewrite H. reflexivity.
  - f_equal. apply IH.
Qed.

Lemma link_song_core (song : loc) (s : Song) (h : list Artist) :
  artist_core <$> link_song song s h = artist_core <$> h.
Proof.
  unfold link_song.
  rewrite <- (fmap_alter_same artist_core (append_song song) (s_artist s) h)
    by reflexivity.
  generalize (alter (append_song song) (s_artist s) h). clear h.
  induction (s_featured_artists s) as [|f fs IH]; intros h; [reflexivity|].
  cbn [foldl]. rewrite IH. apply fmap_alter_same. reflexivity.
Qed.

Lemma step_keeps {U : Unicode} (w w' : world) : step w w' -> keeps w w'.
Proof.
  intros []; unfold keeps; cbn [_artists _songs artists songs add_artist
    add_song put_lyrics with_songs with_requests a_id s_id].
  - repeat split; try reflexivity.
    + apply insert_subseteq. assumption.
    + rewrite fmap_app. apply prefix_app_r. reflexivity.
  - repeat split; try reflexivity.
    + apply insert_subseteq. assumption.
    + rewrite link_song_core. reflexivity.
    + rewrite fmap_app. apply prefix_app_r. reflexivity.
  - repeat split; try reflexivity.
    rewrite fmap_alter_same by (intros []; reflexivity). reflexivity.
  - repeat split; reflexivity.
Qed.

Lemma steps_keep {U : Unicode} (w w' : world) : rtc step w w' -> keeps w w'.
Proof.
  induction 1 as [|w1 w2 w3 Hs _ IH]; [apply keeps_refl|].
  eapply keeps_trans; [apply step_keeps, Hs|exact IH].
Qed.

Lemma keeps_registered (w w' : world) (l : loc) :
  keeps w w' -> registered w l -> registered w' l.
Proof.
  intros (Ha & _) [i Hi]. exists i. eapply lookup_weaken; eassumption.
Qed.

Lemma keeps_artist (w w' : world) (l : loc) (a : Artist) :
  keeps w w' -> artists w !! l = Some a ->
  exists a', artists w' !! l = Some a' /\ artist_core a' = artist_core a.
Proof.
  intros (_ & _ & Hp & _) Ha.
  assert (H : (artist_core <$> artists w') !! l = Some (artist_core a)).
  { eapply prefix_lookup_Some; [|exact Hp]. rewrite list_lookup_fmap, Ha.
    reflexivity. }
  rewrite list_lookup_fmap in H.
  destruct (artists w' !! l) as [a'|]; [|discriminate].
  exists a'. split; [reflexivity|]. simpl in H. congruence.
Qed.

Lemma keeps_song (w w' : world) (l : loc) (s : Song) :
  keeps w w' -> songs w !! l = Some s ->
  exists s', songs w' !! l = Some s' /\ song_core s' = song_core s.
Proof.
  intros (_ & _ & _ & Hp) Hs.
  assert (H : (song_core <$> songs w') !! l = Some (song_core s)).
  { eapply prefix_lookup_Some; [|exact Hp]. rewrite list_lookup_fmap, Hs.
    reflexivity. }
  rewrite list_lookup_fmap in H.
  destruct (songs w' !! l) as [s'|]; [|discriminate].
  exists s'. split; [reflexivity|]. simpl in H. congruence.
Qed.

(** *** Calls as sequences of changes *)

(** [does m w Q]: run from [w], the computation [m] changes the store by
    steps only, and if it returns [a] in the store [w'] then [Q a w']. *)
Definition does {U : Unicode} {A} (m : M A) (w : world)
           (Q : A -> world -> Prop) : Prop :=
  rtc step w (snd (m w))
  /\ forall a, fst (m w) = Ok a -> Q a (snd (m w)).

Section Does.
Context {U : Unicode}.

Lemma does_ret {A} (a : A) (w : world) (Q : A -> world -> Prop) :
  Q a w -> does (ret a) w Q.
Proof. intros H. split; [reflexivity|]. intros b [= <-]. exact H. Qed.

Lemma does_bind {A B} (m : M A) (k : A -> M B) (w : world)
      (Q : B -> world -> Prop) :
  does m w (fun a w' => rtc step w w' -> does (k a) w' Q) ->
  does (bind m k) w Q.
Proof.
  intros [Hs Hk]. unfold does, bind in *.
  destruct (m w) as [[a| |] w'] eqn:E; cbn [fst snd] in *; try (split; [exact Hs|discriminate]).
  destruct (Hk a eq_refl Hs) as [Hs' Hq].
  split; [etransitivity; eassumption|exact Hq].
Qed.

Lemma does_weaken {A} (m : M A) (w : world) (Q Q' : A -> world -> Prop) :
  does m w Q -> (forall a w', rtc step w w' -> Q a w' -> Q' a w') -> does m w Q'.
Proof. intros [Hs Hq] H. split; [exact Hs|]. intros a E. apply H; auto. Qed.

Lemma does_run {A} (m : M A) (w : world) (Q : A -> world -> Prop)
      (r : result A) (w' : world) :
  does m w Q -> m w = (r, w') ->
  rtc step w w' /\ forall a, r = Ok a -> Q a w'.
Proof. intros [Hs Hq] E. rewrite E in *. auto. Qed.

Lemma does_bind' {A B} (m : M A) (k : A -> M B) (w : world)
      (P : A -> world -> Prop) (Q : B -> world -> Prop) :
  does m w P ->
  (forall a w', rtc step w w' -> P a w' -> does (k a) w' Q) ->
  does (bind m k) w Q.
Proof.
  intros Hm Hk. apply does_bind. eapply does_weaken; [exact Hm|].
  intros a w' _ Hp Hs. apply Hk; assumption.
Qed.

(** The songs are as they were. *)
Definition same_songs (w w' : world) : Prop :=
  songs w' = songs w /\ _songs w' = _songs w.

(** The id of a record is filed under the address that [from_data]
    returns. *)
Definition filed_artist (data : json) (l : loc) (w : world) : Prop :=
  exists i, rbind (getitem data "id") as_id = Ok i /\ _artists w !! i = Some l.

Lemma Artist_from_data_does (data : json) (w : world) :
  does (Artist.from_data data) w
       (fun l w' => filed_artist data l w' /\ same_songs w w').
Proof.
  unfold does, filed_artist, same_songs. rewrite Artist_from_data_run.
  destruct (rbind (getitem data "id") as_id) as [i| |];
    try (split; [reflexivity|discriminate]).
  destruct (_artists w !! i) as [l|] eqn:Ei.
  { split; [reflexivity|]. intros a [= <-]. eauto. }
  destruct (getitem data "name") as [name| |];
    try (split; [reflexivity|discriminate]).
  destruct (getitem data "url") as [url| |];
    try (split; [reflexivity|discriminate]).
  split.
  - apply rtc_once. constructor. exact Ei.
  - intros a [= <-]. split; [|auto]. exists i. split; [reflexivity|].
    cbn [snd add_artist _artists a_id]. apply lookup_insert_eq.
Qed.

Lemma mapM_Artist_from_data_does (datas : list json) (w : world) :
  does (mapM Artist.from_data datas) w
       (fun ls w' => Forall2 (fun data l => filed_artist data l w') datas ls
                     /\ same_songs w w').
Proof.
  revert w. induction datas as [|data datas IH]; intros w.
  - apply does_ret. split; [constructor|split; reflexivity].
  - cbn [mapM]. eapply does_bind'; [apply Artist_from_data_does|].
    intros l w1 _ [Hl [Hs1 Hr1]].
    eapply does_bind'; [apply IH|].
    intros ls w2 H12 [Hls [Hs2 Hr2]]. apply does_ret. split.
    + constructor; [|exact Hls].
      destruct Hl as (i & Hi & Hl). exists i. split; [exact Hi|].
      eapply lookup_weaken; [exact Hl|]. apply (steps_keep w1 w2 H12).
    + split; congruence.
Qed.

(** What [Song.from_data] returns on [data] from the store [w]: the song
    filed under the id of [data]; the store is [w] itself when the id was
    filed already, and otherwise [w] with new artists and, last in the
    list of songs, one new song made of the fields of [data]. *)
Definition made_song (data : json) (w : world) (l : loc) (w' : world) : Prop :=
  exists i,
    rbind (getitem data "id") as_id = Ok i
    /\ _songs w' !! i = Some l
    /\ match _songs w !! i with
       | Some l0 => l = l0 /\ w' = w
       | None =>
           exists title full_title url primary featured artist featured_artists,
             getitem data "title" = Ok (JStr title)
             /\ getitem data "full_title" = Ok (JStr full_title)
             /\ getitem data "url" = Ok url
             /\ getitem data "primary_artist" = Ok primary
             /\ rbind (getitem data "featured_artists") py_iter = Ok featured
             /\ filed_artist primary artist w'
             /\ Forall2 (fun d f => filed_artist d f w') featured
                        featured_artists
             /\ l = length (songs w)
             /\ songs w'
                = songs w ++ [mkSong i (nfkd title) (nfkd full_title) url
                                     artist featured_artists None]
             /\ _songs w' = <[i := l]> (_songs w)
       end.

Lemma normalize_NFKD_ok (v : json) (s : pystr) :
  normalize_NFKD v = Ok s -> exists t, v = JStr t /\ s = nfkd t.
Proof. destruct v; try discriminate. intros [= <-]. eauto. Qed.

Lemma rbind_ok {A B} (r : result A) (k : A -> result B) (b : B) :
  rbind r k = Ok b -> exists a, r = Ok a /\ k a = Ok b.
Proof. destruct r; try discriminate. eauto. Qed.

Lemma does_bind_lift {A B} (r : result A) (k : A -> M B) (w : world)
      (Q : B -> world -> Prop) :
  (forall a, r = Ok a -> does (k a) w Q) -> does (bind (lift r) k) w Q.
Proof.
  intros H. unfold does, bind, lift in *.
  destruct r as [a| |]; [apply H; reflexivity|..];
    (split; [reflexivity|discriminate]).
Qed.

Lemma does_bind_find_song {B} (i : Z) (k : option loc -> M B) (w : world)
      (Q : B -> world -> Prop) :
  does (k (_songs w !! i)) w Q -> does (bind (find_song i) k) w Q.
Proof. intros H. exact H. Qed.

Lemma does_construct (s : Song) (w : world) (title full_title : pystr) :
  _songs w !! s_id s = None ->
  registered w (s_artist s) ->
  Forall (registered w) (s_featured_artists s) ->
  s_title s = nfkd title ->
  s_full_title s = nfkd full_title ->
  s_lyrics s = None ->
  does (song <- new_song s ;;
        update_artist (s_artist s) (append_song song) ;;;
        forM_ (s_featured_artists s)
              (fun featured_artist =>
                 update_artist featured_artist (append_featured_on song)) ;;;
        register_song (s_id s) song ;;;
        ret song) w
       (fun l w' => l = length (songs w) /\ w' = add_song s w).
Proof.
  intros Hfree Hp Hf Ht Hft Hl. unfold does. rewrite Song_construct_run.
  cbn [fst snd]. split; [|intros a [= <-]; auto].
  apply rtc_once. destruct s as [i t ft url p fs ly]. cbn in *. subst.
  constructor; assumption.
Qed.

Lemma Song_from_data_does (data : json) (w : world) :
  does (Song.from_data data) w (made_song data w).
Proof.
  unfold Song.from_data, made_song.
  apply does_bind_lift. intros i Hi.
  apply does_bind_find_song. destruct (_songs w !! i) as [l0|] eqn:Ereg.
  { apply does_ret. exists i. rewrite Ereg. auto. }
  apply does_bind_lift. intros title Ht.
  apply does_bind_lift. intros full_title Hft.
  apply does_bind_lift. intros url Hurl.
  apply does_bind_lift. intros primary Hp.
  eapply does_bind'; [apply Artist_from_data_does|].
  cbn beta. intros artist w1 H1 [Ha [Hs1 Hr1]].
  apply does_bind_lift. intros featured Hf.
  eapply does_bind'; [apply mapM_Artist_from_data_does|].
  cbn beta. intros fas w2 H12 [Hfas [Hs2 Hr2]].
  apply rbind_ok in Ht as (vt & Hvt & Ht).
  apply normalize_NFKD_ok in Ht as (t & -> & ->).
  apply rbind_ok in Hft as (vft & Hvft & Hft).
  apply normalize_NFKD_ok in Hft as (ft & -> & ->).
  assert (Ha2 : filed_artist primary artist w2).
  { destruct Ha as (j & Hj & Ha). exists j. split; [exact Hj|].
    eapply lookup_weaken; [exact Ha|]. apply (steps_keep w1 w2 H12). }
  eapply does_weaken.
  - apply (does_construct (mkSong i (nfkd t) (nfkd ft) url artist fas None)
                          w2 t ft); cbn; try reflexivity.
    + rewrite Hr2, Hr1. exact Ereg.
    + destruct Ha2 as (j & _ & Ha2). exists j. exact Ha2.
    + clear -Hfas. induction Hfas as [|d f ds fs (j & _ & Hj) _ IH];
        constructor; [exists j; exact Hj|exact IH].
  - cbn beta. intros l w3 _ [-> ->]. exists i. rewrite Ereg.
    split; [exact Hi|].
    cbn [add_song _songs songs _artists s_id]. rewrite Hs2, Hs1, Hr2, Hr1.
    split; [apply lookup_insert_eq|].
    exists t, ft, url, primary, featured, artist, fas.
    unfold filed_artist. cbn [_artists]. auto 12.
Qed.

End Does.

(** *** Every operation is a sequence of changes *)

(** [m] changes the store by steps only, whatever it returns or raises. *)
Definition by_steps {U : Unicode} {A} (m : M A) : Prop :=
  forall w, rtc step w (snd (m w)).

Section BySteps.
Context {U : Unicode}.

Lemma by_steps_ret {A} (a : A) : by_steps (ret a).
Proof. intros w. reflexivity. Qed.

Lemma by_steps_lift {A} (r : result A) : by_steps (lift r).
Proof. intros w. reflexivity. Qed.

Lemma by_steps_bind {A B} (m : M A) (k : A -> M B) :
  by_steps m -> (forall a, by_steps (k a)) -> by_steps (bind m k).
Proof.
  intros Hm Hk w. specialize (Hm w). unfold bind.
  destruct (m w) as [[a| |] w1]; cbn [snd] in *; [|exact Hm..].
  etransitivity; [exact Hm|apply Hk].
Qed.

Lemma by_steps_try_except {A} (m h : M A) :
  by_steps m -> by_steps h -> by_steps (try_except m h).
Proof.
  intros Hm Hh w. specialize (Hm w). unfold try_except.
  destruct (m w) as [[a|e|] w1]; cbn [snd] in *; [exact Hm| |exact Hm].
  destruct (is_Exception e); [|exact Hm].
  etransitivity; [exact Hm|apply Hh].
Qed.

Lemma by_steps_forM_ {A} (l : list A) (f : A -> M unit) :
  (forall x, by_steps (f x)) -> by_steps (forM_ l f).
Proof.
  intros Hf. induction l as [|x l IH]; [apply by_steps_ret|].
  cbn [forM_]. apply by_steps_bind; [apply Hf|intros _; exact IH].
Qed.

Lemma by_steps_get_song (l : loc) : by_steps (get_song l).
Proof. intros w. unfold get_song. destruct (songs w !! l); reflexivity. Qed.

Lemma by_steps_get_artist (l : loc) : by_steps (get_artist l).
Proof. intros w. unfold get_artist. destruct (artists w !! l); reflexivity. Qed.

Lemma by_steps_update_song (l : loc) (v : option pystr) :
  by_steps (update_song l (set_lyrics v)).
Proof. intros w. apply rtc_once. apply (step_lyrics w l v). Qed.

Lemma by_steps_log_request (url : json) : by_steps (log_request url).
Proof. intros w. apply rtc_once. apply (step_request w url). Qed.

Lemma by_steps_Artist_from_data (data : json) :
  by_steps (Artist.from_data data).
Proof. intros w. apply (Artist_from_data_does data w). Qed.

Lemma by_steps_Song_from_data (data : json) : by_steps (Song.from_data data).
Proof. intros w. apply (Song_from_data_does data w). Qed.

Variable web_page : list json -> pystr -> result pystr.
Variable lyrics_container : pystr -> result pystr.

Lemma by_steps_get_song_lyrics (song : loc) :
  by_steps (Lyricist.get_song_lyrics web_page lyrics_container song).
Proof.
  unfold Lyricist.get_song_lyrics.
  apply by_steps_bind; [apply by_steps_get_song|]. intros s.
  apply by_steps_bind.
  - destruct (s_lyrics s); [apply by_steps_ret|].
    apply by_steps_try_except; [|apply by_steps_update_song].
    apply by_steps_bind.
    + unfold Lyricist.request_web.
      destruct (s_url s) as [| | | |path| |]; try apply by_steps_lift.
      intros w. cbn beta.
      apply (by_steps_bind (log_request (JStr path))
               (fun _ => lift (web_page (requests w) path)));
        [apply by_steps_log_request|intros _; apply by_steps_lift].
    + intros html. apply by_steps_bind; [apply by_steps_lift|].
      intros text. apply by_steps_update_song.
  - intros _. apply by_steps_bind; [apply by_steps_get_song|].
    intros s'. apply by_steps_ret.
Qed.

Lemma by_steps_get_artist_lyrics (artist : loc) :
  by_steps (Lyricist.get_artist_lyrics web_page lyrics_container artist).
Proof.
  unfold Lyricist.get_artist_lyrics.
  apply by_steps_bind; [apply by_steps_get_artist|]. intros a.
  apply by_steps_forM_. intros song.
  apply by_steps_bind; [apply by_steps_get_song_lyrics|].
  intros _. apply by_steps_ret.
Qed.

Lemma by_steps_load_artist (artist_json : json) :
  by_steps (Lyricist.load_artist artist_json).
Proof.
  assert (Hsong : forall song_json, by_steps (Lyricist.load_song song_json)).
  { intros song_json. unfold Lyricist.load_song.
    apply by_steps_bind; [apply by_steps_Song_from_data|]. intros song.
    apply by_steps_bind; [apply by_steps_lift|]. intros lyrics.
    apply by_steps_update_song. }
  unfold Lyricist.load_artist.
  apply by_steps_bind; [apply by_steps_Artist_from_data|]. intros artist.
  apply by_steps_bind; [apply by_steps_lift|]. intros saved_songs.
  apply by_steps_bind; [apply by_steps_lift|]. intros saved_featured_on.
  apply by_steps_bind; [apply by_steps_lift|]. intros song_jsons.
  apply by_steps_bind; [apply by_steps_forM_, Hsong|]. intros _.
  apply by_steps_bind; [apply by_steps_lift|]. intros song_jsons'.
  apply by_steps_bind; [apply by_steps_forM_, Hsong|]. intros _.
  apply by_steps_ret.
Qed.

(** So a built store stays built under the calls that change it. *)
Lemma built_after {A} (m : M A) (w : world) :
  by_steps m -> built w -> built (snd (m w)).
Proof. intros Hm Hw. unfold built in *. etransitivity; [exact Hw|apply Hm]. Qed.

End BySteps.

(** Running a [bind] whose first part returns. *)
Lemma bind_ok {A B} (m : M A) (k : A -> M B) (w w' : world) (a : A) :
  m w = (Ok a, w') -> bind m k w = k a w'.
Proof. intros E. unfold bind. rewrite E. reflexivity. Qed.

Lemma bind_lift_ok {A B} (r : result A) (k : A -> M B) (w : world) (a : A) :
  r = Ok a -> bind (lift r) k w = k a w.
Proof. intros ->. reflexivity. Qed.

(** *** First seen wins *)

(** A call of one of the two constructors. *)
Inductive call : Type :=
  | MakeArtist (data : json)
  | MakeSong (data : json).

Definition run_call {U : Unicode} (c : call) : M loc :=
  match c with
  | MakeArtist data => Artist.from_data data
  | MakeSong data => Song.from_data data
  end.

(** The store after a sequence of calls, whatever each of them returned
    or raised. *)
Fixpoint run_calls {U : Unicode} (cs : list call) (w : world) : world :=
  match cs with
  | [] => w
  | c :: cs' => run_calls cs' (snd (run_call c w))
  end.

Section FirstSeen.
Context {U : Unicode}.

Lemma run_calls_steps (cs : list call) (w : world) :
  rtc step w (run_calls cs w).
Proof.
  revert w. induction cs as [|c cs IH]; intros w; [reflexivity|].
  cbn [run_calls]. etransitivity; [|apply IH].
  destruct c as [data|data]; cbn [run_call].
  - apply (Artist_from_data_does data w).
  - apply (Song_from_data_does data w).
Qed.

Lemma Artist_from_data_found (data : json) (w : world) (i : Z) (l : loc) :
  rbind (getitem data "id") as_id = Ok i ->
  _artists w !! i = Some l ->
  Artist.from_data data w = (Ok l, w).
Proof. intros Hi Hl. rewrite Artist_from_data_run, Hi, Hl. reflexivity. Qed.

Lemma Song_from_data_found (data : json) (w : world) (i : Z) (l : loc) :
  rbind (getitem data "id") as_id = Ok i ->
  _songs w !! i = Some l ->
  Song.from_data data w = (Ok l, w).
Proof.
  intros Hi Hl. unfold Song.from_data, bind, lift, find_song.
  rewrite Hi, Hl. reflexivity.
Qed.

(** The artist that a first record makes, seen from any later store. *)
Definition artist_as_first_seen (w w2 : world) (first : json) (l : loc) : Prop :=
  exists a,
    artists w !! l = None
    /\ artists w2 !! l = Some a
    /\ rbind (getitem first "id") as_id = Ok (a_id a)
    /\ getitem first "name" = Ok (a_name a)
    /\ getitem first "url" = Ok (a_url a).

(** The song that a first record makes, seen from any later store. *)
Definition song_as_first_seen (w w2 : world) (first : json) (l : loc) : Prop :=
  exists s title full_title primary featured,
    songs w !! l = None
    /\ songs w2 !! l = Some s
    /\ rbind (getitem first "id") as_id = Ok (s_id s)
    /\ getitem first "title" = Ok (JStr title)
    /\ s_title s = nfkd title
    /\ getitem first "full_title" = Ok (JStr full_title)
    /\ s_full_title s = nfkd full_title
    /\ getitem first "url" = Ok (s_url s)
    /\ getitem first "primary_artist" = Ok primary
    /\ filed_artist primary (s_artist s) w2
    /\ rbind (getitem first "featured_artists") py_iter = Ok featured
    /\ Forall2 (fun d f => filed_artist d f w2) featured (s_featured_artists s).

Lemma Artist_first_seen (w w1 : world) (first later : json) (i : Z)
      (between : list call) (l : loc) :
  rbind (getitem first "id") as_id = Ok i ->
  rbind (getitem later "id") as_id = Ok i ->
  Artist.from_data first w = (Ok l, w1) ->
  Artist.from_data later (run_calls between w1)
  = (Ok l, run_calls between w1)
  /\ (_artists w !! i = None ->
      artist_as_first_seen w (run_calls between w1) first l).
Proof.
  intros Hfirst Hlater Hrun.
  pose proof (steps_keep _ _ (run_calls_steps between w1)) as Hk.
  destruct (does_run _ _ _ _ _ (Artist_from_data_does first w) Hrun)
    as [_ Hq].
  destruct (Hq l eq_refl) as [(j & Hj & Hl) _].
  assert (j = i) by congruence. subst j. split.
  - eapply Artist_from_data_found; [exact Hlater|].
    eapply lookup_weaken; [exact Hl|apply Hk].
  - intros Hnew. rewrite Artist_from_data_run, Hfirst, Hnew in Hrun.
    destruct (getitem first "name") as [name| |] eqn:En; try discriminate.
    destruct (getitem first "url") as [url| |] eqn:Eu; try discriminate.
    injection Hrun as <- <-.
    destruct (keeps_artist _ _ (length (artists w))
                           (mkArtist i name url [] []) Hk)
      as (a & Ha & Hcore).
    { cbn [add_artist artists]. rewrite lookup_app_r, Nat.sub_diag by lia.
      reflexivity. }
    exists a. unfold artist_core in Hcore. cbn in Hcore.
    injection Hcore as -> -> ->.
    split; [apply lookup_ge_None_2; lia|]. auto.
Qed.

Lemma Song_first_seen (w w1 : world) (first later : json) (i : Z)
      (between : list call) (l : loc) :
  rbind (getitem first "id") as_id = Ok i ->
  rbind (getitem later "id") as_id = Ok i ->
  Song.from_data first w = (Ok l, w1) ->
  Song.from_data later (run_calls between w1)
  = (Ok l, run_calls between w1)
  /\ (_songs w !! i = None ->
      song_as_first_seen w (run_calls between w1) first l).
Proof.
  intros Hfirst Hlater Hrun.
  pose proof (steps_keep _ _ (run_calls_steps between w1)) as Hk.
  destruct (does_run _ _ _ _ _ (Song_from_data_does first w) Hrun)
    as [_ Hq].
  destruct (Hq l eq_refl) as (j & Hj & Hl & Hmade).
  assert (j = i) by congruence. subst j. split.
  - eapply Song_from_data_found; [exact Hlater|].
    eapply lookup_weaken; [exact Hl|apply Hk].
  - intros Hnew. rewrite Hnew in Hmade.
    destruct Hmade as (title & full_title & url & primary & featured & artist
                       & fas & Ht & Hft & Hu & Hp & Hf & Ha & Hfas & -> & Hs & _).
    destruct (keeps_song _ _ (length (songs w))
                (mkSong i (nfkd title) (nfkd full_title) url artist fas None)
                Hk)
      as (s & Hs2 & Hcore).
    { rewrite Hs, lookup_app_r, Nat.sub_diag by lia. reflexivity. }
    unfold song_core in Hcore. cbn in Hcore.
    injection Hcore as E1 E2 E3 E4 E5 E6.
    exists s, title, full_title, primary, featured.
    rewrite E1, E2, E3, E4, E5, E6.
    split; [apply lookup_ge_None_2; lia|].
    repeat (split; [assumption || reflexivity|]).
    split.
    { destruct Ha as (j & Hj' & Ha). exists j. split; [exact Hj'|].
      eapply lookup_weaken; [exact Ha|apply Hk]. }
    split; [exact Hf|].
    eapply Forall2_impl; [exact Hfas|]. intros d f (j & Hj' & Hd).
    exists j. split; [exact Hj'|].
    eapply lookup_weaken; [exact Hd|apply Hk].
Qed.

(** A record with the fields that [Artist.from_data] reads. *)
Definition artist_record (data : json) : bool :=
  is_ok (rbind (getitem data "id") as_id)
  && is_ok (getitem data "name")
  && is_ok (getitem data "url").

Definition is_str (r : result json) : bool :=
  match r with
  | Ok (JStr _) => true
  | _ => false
  end.

(** A record with the fields that [Song.from_data] reads: an id, two
    titles that are strings, a url, and artists that are records. *)
Definition song_record (data : json) : bool :=
  is_ok (rbind (getitem data "id") as_id)
  && is_str (getitem data "title")
  && is_str (getitem data "full_title")
  && is_ok (getitem data "url")
  && match getitem data "primary_artist" with
     | Ok primary => artist_record primary
     | _ => false
     end
  && match rbind (getitem data "featured_artists") py_iter with
     | Ok featured => forallb artist_record featured
     | _ => false
     end.

Lemma Artist_from_data_returns (data : json) (w : world) :
  artist_record data = true ->
  exists l w', Artist.from_data data w = (Ok l, w').
Proof.
  unfold artist_record. intros H.
  apply andb_true_iff in H as [H Hurl]. apply andb_true_iff in H as [Hid Hname].
  rewrite Artist_from_data_run.
  destruct (rbind (getitem data "id") as_id) as [i| |]; try discriminate.
  destruct (getitem data "name") as [name| |]; try discriminate.
  destruct (getitem data "url") as [url| |]; try discriminate.
  destruct (_artists w !! i); eauto.
Qed.

Lemma mapM_Artist_from_data_returns (datas : list json) (w : world) :
  forallb artist_record datas = true ->
  exists ls w', mapM Artist.from_data datas w = (Ok ls, w').
Proof.
  revert w. induction datas as [|data datas IH]; intros w H;
    [eexists _, _; reflexivity|].
  cbn [forallb] in H. apply andb_true_iff in H as [Hd Hds].
  destruct (Artist_from_data_returns data w Hd) as (x & w1 & E1).
  destruct (IH w1 Hds) as (xs & w2 & E2).
  exists (x :: xs), w2. cbn [mapM].
  rewrite (bind_ok _ _ _ _ _ E1), (bind_ok _ _ _ _ _ E2). reflexivity.
Qed.

Lemma Song_from_data_returns (data : json) (w : world) :
  song_record data = true ->
  exists l w', Song.from_data data w = (Ok l, w').
Proof.
  unfold song_record, is_str. intros H.
  apply andb_true_iff in H as [H Hfeatured].
  apply andb_true_iff in H as [H Hprimary].
  apply andb_true_iff in H as [H Hurl].
  apply andb_true_iff in H as [H Hfull].
  apply andb_true_iff in H as [Hid Htitle].
  destruct (rbind (getitem data "id") as_id) as [i| |] eqn:Ei;
    try discriminate.
  destruct (getitem data "title") as [[| | | |title| |]| |] eqn:Et;
    try discriminate.
  destruct (getitem data "full_title") as [[| | | |full_title| |]| |] eqn:Eft;
    try discriminate.
  destruct (getitem data "url") as [url| |] eqn:Eu; try discriminate.
  destruct (getitem data "primary_artist") as [primary| |] eqn:Ep;
    try discriminate.
  destruct (rbind (getitem data "featured_artists") py_iter)
    as [featured| |] eqn:Ef; try discriminate.
  unfold Song.from_data. rewrite Ei, Et, Eft, Eu, Ep, Ef.
  rewrite (bind_lift_ok _ _ _ i) by reflexivity.
  unfold bind at 1, find_song. destruct (_songs w !! i); [eauto|].
  rewrite (bind_lift_ok _ _ _ (nfkd title)) by reflexivity.
  rewrite (bind_lift_ok _ _ _ (nfkd full_title)) by reflexivity.
  rewrite (bind_lift_ok _ _ _ url) by reflexivity.
  rewrite (bind_lift_ok _ _ _ primary) by reflexivity.
  destruct (Artist_from_data_returns primary w Hprimary) as (a & w1 & E1).
  rewrite (bind_ok _ _ _ _ _ E1).
  rewrite (bind_lift_ok _ _ _ featured) by reflexivity.
  destruct (mapM_Artist_from_data_returns featured w1 Hfeatured)
    as (fs & w2 & E2).
  rewrite (bind_ok _ _ _ _ _ E2).
  pose proof (Song_construct_run
                (mkSong i (nfkd title) (nfkd full_title) url a fs None) w2)
    as E3.
  cbn [s_id s_artist s_featured_artists] in E3. rewrite E3. eauto.
Qed.

(** C1.  Of the records with one id, the first decides.  Let the id of
    [first] be new to the registry, and [first] have the fields that the
    constructor reads.  Then [Artist.from_data] makes an object for it, at
    an address that held nothing; a call on any record with that id,
    whatever its other fields and whatever calls of the two constructors
    came in between, returns that same address and changes nothing; and
    the object at that address still has the fields of the first record.
    The same holds of [Song.from_data], the titles of the song being
    those of its first record in NFKD and its artists those that its
    first record names. *)
Theorem from_data_first_seen (w : world) (between : list call)
        (first later : json) (i : Z) (first_song later_song : json) (j : Z) :
  artist_record first = true ->
  rbind (getitem first "id") as_id = Ok i ->
  rbind (getitem later "id") as_id = Ok i ->
  _artists w !! i = None ->
  song_record first_song = true ->
  rbind (getitem first_song "id") as_id = Ok j ->
  rbind (getitem later_song "id") as_id = Ok j ->
  _songs w !! j = None ->
  (exists l w1,
     Artist.from_data first w = (Ok l, w1)
     /\ Artist.from_data later (run_calls between w1)
        = (Ok l, run_calls between w1)
     /\ artist_as_first_seen w (run_calls between w1) first l)
  /\ (exists l w1,
        Song.from_data first_song w = (Ok l, w1)
        /\ Song.from_data later_song (run_calls between w1)
           = (Ok l, run_calls between w1)
        /\ song_as_first_seen w (run_calls between w1) first_song l).
Proof.
  intros Hrecord Hfirst Hlater Hnew Hrecord' Hfirst' Hlater' Hnew'. split.
  - destruct (Artist_from_data_returns first w Hrecord) as (l & w1 & Hrun).
    destruct (Artist_first_seen w w1 first later i between l Hfirst Hlater
                Hrun) as [Hsame Hfields].
    exists l, w1. auto.
  - destruct (Song_from_data_returns first_song w Hrecord')
      as (l & w1 & Hrun).
    destruct (Song_first_seen w w1 first_song later_song j between l Hfirst'
                Hlater' Hrun) as [Hsame Hfields].
    exists l, w1. auto.
Qed.

End FirstSeen.

(** ** The snapshot *)

(** *** Stores that the program builds *)

(** How often [l] is listed in [ls]. *)
Definition count (l : loc) (ls : list loc) : nat :=
  length (List.filter (Nat.eqb l) ls).

(** How often the song [s] belongs on the [songs] of the artist at [l]
    (once if [l] is its artist), and on that artist's [featured_on]. *)
Definition is_by (l : loc) (s : Song) : nat := count l [s_artist s].
Definition features (l : loc) (s : Song) : nat := count l (s_featured_artists s).

(** The addresses [n], [n+1], ... of the songs of [h], each repeated as
    often as [m] says. *)
Fixpoint occurrences (n : nat) (m : Song -> nat) (h : list Song) : list loc :=
  match h with
  | [] => []
  | s :: h' => replicate (m s) n ++ occurrences (S n) m h'
  end.

Definition songs_of (w : world) (l : loc) : list loc :=
  occurrences 0 (is_by l) (songs w).

Definition featuring (w : world) (l : loc) : list loc :=
  occurrences 0 (features l) (songs w).

(** The two registries are one-to-one with the objects, every song names
    artists that exist and has its titles in NFKD, and the two lists of an
    artist are what the songs say. *)
Record sound {U : Unicode} (w : world) : Prop := {
  filed_artists : forall i l,
    _artists w !! i = Some l ->
    exists a, artists w !! l = Some a /\ a_id a = i;
  artists_filed : forall l a,
    artists w !! l = Some a -> _artists w !! a_id a = Some l;
  filed_songs : forall i l,
    _songs w !! i = Some l ->
    exists s, songs w !! l = Some s /\ s_id s = i;
  songs_filed : forall l s,
    songs w !! l = Some s -> _songs w !! s_id s = Some l;
  credits_exist : forall l s,
    songs w !! l = Some s ->
    Forall (fun f => (f < length (artists w))%nat)
           (s_artist s :: s_featured_artists s);
  titles_nfkd : forall l s,
    songs w !! l = Some s ->
    nfkd (s_title s) = s_title s /\ nfkd (s_full_title s) = s_full_title s;
  linked : forall l a,
    artists w !! l = Some a ->
    a_songs a = songs_of w l /\ a_featured_on a = featuring w l
}.

Lemma occurrences_snoc (n : nat) (m : Song -> nat) (h : list Song) (s : Song) :
  occurrences n m (h ++ [s])
  = occurrences n m h ++ replicate (m s) (n + length h)%nat.
Proof.
  revert n. induction h as [|x h IH]; intros n; cbn [occurrences app length].
  - rewrite Nat.add_0_r, app_nil_r. reflexivity.
  - rewrite IH, <- app_assoc. do 3 f_equal. lia.
Qed.

Lemma occurrences_none (n : nat) (m : Song -> nat) (h : list Song) :
  Forall (fun s => m s = 0%nat) h -> occurrences n m h = [].
Proof.
  intros H. revert n. induction H as [|s h Hs _ IH]; intros n; [reflexivity|].
  cbn [occurrences]. rewrite Hs, IH. reflexivity.
Qed.

Lemma occurrences_ext (n : nat) (m m' : Song -> nat) (h h' : list Song) :
  m <$> h = m' <$> h' -> occurrences n m h = occurrences n m' h'.
Proof.
  revert n h'. induction h as [|s h IH]; intros n [|s' h'] E;
    try discriminate; [reflexivity|].
  injection E as E1 E2. cbn [occurrences]. rewrite E1. f_equal.
  apply IH, E2.
Qed.

Lemma count_cons (l f : loc) (fs : list loc) :
  count l (f :: fs) = ((if Nat.eqb l f then 1 else 0) + count l fs)%nat.
Proof. unfold count. cbn [List.filter]. destruct (Nat.eqb l f); reflexivity. Qed.

Lemma count_zero (l : loc) (fs : list loc) :
  Forall (fun f => f <> l) fs -> count l fs = 0%nat.
Proof.
  induction 1 as [|f fs Hf _ IH]; [reflexivity|]. rewrite count_cons, IH.
  destruct (Nat.eqb_spec l f); [congruence|reflexivity].
Qed.

Lemma foldl_alter_lookup (g : Artist -> Artist) (fs : list loc)
      (h : list Artist) (l : loc) :
  foldl (fun h f => alter g f h) h fs !! l
  = Nat.iter (count l fs) g <$> h !! l.
Proof.
  revert h. induction fs as [|f fs IH]; intros h; cbn [foldl].
  - destruct (h !! l); reflexivity.
  - rewrite IH, count_cons. destruct (Nat.eqb_spec l f) as [->|Hne].
    + rewrite list_lookup_alter_eq. destruct (h !! f); [|reflexivity].
      cbn [fmap option_fmap option_map]. f_equal.
      cbn [Nat.add]. rewrite Nat.iter_succ_r. reflexivity.
    + rewrite list_lookup_alter_ne by congruence. reflexivity.
Qed.

Definition with_lists (a : Artist) (ss fs : list loc) : Artist :=
  mkArtist (a_id a) (a_name a) (a_url a) ss fs.

Lemma iter_append_song (k : nat) (n : loc) (a : Artist) :
  Nat.iter k (append_song n) a
  = with_lists a (a_songs a ++ replicate k n) (a_featured_on a).
Proof.
  induction k as [|k IH]; cbn [Nat.iter nat_rect].
  - destruct a. unfold with_lists. cbn. rewrite app_nil_r. reflexivity.
  - unfold Nat.iter in IH. rewrite IH. unfold append_song, with_lists.
    cbn [a_id a_name a_url a_songs a_featured_on].
    rewrite replicate_S_end, app_assoc. reflexivity.
Qed.

Lemma iter_append_featured_on (k : nat) (n : loc) (a : Artist) :
  Nat.iter k (append_featured_on n) a
  = with_lists a (a_songs a) (a_featured_on a ++ replicate k n).
Proof.
  induction k as [|k IH]; cbn [Nat.iter nat_rect].
  - destruct a. unfold with_lists. cbn. rewrite app_nil_r. reflexivity.
  - unfold Nat.iter in IH. rewrite IH. unfold append_featured_on, with_lists.
    cbn [a_id a_name a_url a_songs a_featured_on].
    rewrite replicate_S_end, app_assoc. reflexivity.
Qed.

(** An artist after a song has been linked. *)
Lemma link_song_lookup (n : loc) (s : Song) (h : list Artist) (l : loc) :
  link_song n s h !! l
  = (fun a => with_lists a (a_songs a ++ replicate (is_by l s) n)
                         (a_featured_on a ++ replicate (features l s) n))
      <$> h !! l.
Proof.
  unfold link_song. rewrite foldl_alter_lookup.
  change (alter (append_song n) (s_artist s) h)
    with (foldl (fun h f => alter (append_song n) f h) h [s_artist s]).
  rewrite foldl_alter_lookup. destruct (h !! l) as [a|]; [|reflexivity].
  cbn [fmap option_fmap option_map]. f_equal.
  rewrite iter_append_featured_on, iter_append_song. reflexivity.
Qed.

Section Sound.
Context {U : Unicode}.

Lemma sound_fresh : sound fresh.
Proof.
  constructor; cbn [fresh artists songs _artists _songs]; intros;
    try (rewrite lookup_empty in *); try discriminate;
    match goal with H : [] !! _ = Some _ |- _ => destruct l; discriminate H end.
Qed.

Lemma song_in_store (w : world) (s : Song) :
  s ∈ songs w -> exists l, songs w !! l = Some s.
Proof. apply list_elem_of_lookup_1. Qed.

(** No song names an artist that is not there yet. *)
Lemma nothing_by_newcomer (w : world) :
  sound w ->
  songs_of w (length (artists w)) = []
  /\ featuring w (length (artists w)) = [].
Proof.
  intros Hw. split; apply occurrences_none, Forall_forall; intros s Hs;
    apply song_in_store in Hs as [l Hl];
    pose proof (credits_exist w Hw l s Hl) as Hc;
    apply Forall_cons in Hc as [Hp Hf]; apply count_zero.
  - repeat constructor. lia.
  - eapply Forall_impl; [exact Hf|]. intros f Hlt. cbn beta in *. lia.
Qed.

Lemma sound_add_artist (w : world) (i : Z) (name url : json) :
  sound w ->
  _artists w !! i = None ->
  sound (add_artist (mkArtist i name url [] []) w).
Proof.
  intros Hw Hi.
  constructor; cbn [add_artist artists songs _artists _songs a_id].
  - intros j l Hj. destruct (decide (i = j)) as [->|Hne].
    + rewrite lookup_insert_eq in Hj. injection Hj as <-.
      eexists. split; [apply list_lookup_middle; reflexivity|reflexivity].
    + rewrite lookup_insert_ne in Hj by exact Hne.
      destruct (filed_artists w Hw j l Hj) as (a & Ha & Hid).
      exists a. split; [|exact Hid]. rewrite lookup_app_l; [exact Ha|].
      eapply lookup_lt_Some, Ha.
  - intros l a Ha. apply lookup_snoc_Some in Ha as [[_ Ha]|[-> <-]].
    + pose proof (artists_filed w Hw l a Ha) as Hf.
      rewrite lookup_insert_ne; [exact Hf|]. intros ->. congruence.
    + apply lookup_insert_eq.
  - apply (filed_songs w Hw).
  - apply (songs_filed w Hw).
  - intros l s Hs. eapply Forall_impl; [apply (credits_exist w Hw l s Hs)|].
    intros f Hf. cbn beta in *. rewrite length_app. lia.
  - apply (titles_nfkd w Hw).
  - intros l a Ha. unfold songs_of, featuring. cbn [songs add_artist].
    apply lookup_snoc_Some in Ha as [[_ Ha]|[-> <-]].
    + apply (linked w Hw l a Ha).
    + destruct (nothing_by_newcomer w Hw) as [E1 E2]. cbn [a_songs a_featured_on].
      unfold songs_of, featuring in *. rewrite E1, E2. auto.
Qed.

Lemma link_song_length (n : loc) (s : Song) (h : list Artist) :
  length (link_song n s h) = length h.
Proof.
  rewrite <- (length_fmap artist_core), link_song_core, length_fmap.
  reflexivity.
Qed.

Lemma sound_add_song (w : world) (s : Song) :
  sound w ->
  _songs w !! s_id s = None ->
  registered w (s_artist s) ->
  Forall (registered w) (s_featured_artists s) ->
  nfkd (s_title s) = s_title s ->
  nfkd (s_full_title s) = s_full_title s ->
  sound (add_song s w).
Proof.
  intros Hw Hi Hp Hf Ht Hft.
  assert (Hreg : forall l, registered w l -> (l < length (artists w))%nat).
  { intros l [j Hj]. destruct (filed_artists w Hw j l Hj) as (a & Ha & _).
    eapply lookup_lt_Some, Ha. }
  constructor; cbn [add_song artists songs _artists _songs].
  - intros j l Hj. destruct (filed_artists w Hw j l Hj) as (a & Ha & Hid).
    rewrite link_song_lookup, Ha. eexists. split; [reflexivity|exact Hid].
  - intros l a' Ha'. rewrite link_song_lookup in Ha'.
    destruct (artists w !! l) as [a|] eqn:Ha; [|discriminate].
    injection Ha' as <-. apply (artists_filed w Hw l a Ha).
  - intros j l Hj. destruct (decide (s_id s = j)) as [<-|Hne].
    + rewrite lookup_insert_eq in Hj. injection Hj as <-.
      exists s. split; [apply list_lookup_middle; reflexivity|reflexivity].
    + rewrite lookup_insert_ne in Hj by exact Hne.
      destruct (filed_songs w Hw j l Hj) as (x & Hx & Hid).
      exists x. split; [|exact Hid]. rewrite lookup_app_l; [exact Hx|].
      eapply lookup_lt_Some, Hx.
  - intros l x Hx. apply lookup_snoc_Some in Hx as [[_ Hx]|[-> <-]].
    + pose proof (songs_filed w Hw l x Hx) as Hfx.
      rewrite lookup_insert_ne; [exact Hfx|]. intros E. congruence.
    + apply lookup_insert_eq.
  - intros l x Hx. rewrite link_song_length.
    apply lookup_snoc_Some in Hx as [[_ Hx]|[-> <-]].
    + apply (credits_exist w Hw l x Hx).
    + constructor; [apply Hreg, Hp|].
      eapply Forall_impl; [exact Hf|]. intros f. apply Hreg.
  - intros l x Hx. apply lookup_snoc_Some in Hx as [[_ Hx]|[-> <-]].
    + apply (titles_nfkd w Hw l x Hx).
    + auto.
  - intros l a' Ha'. rewrite link_song_lookup in Ha'.
    destruct (artists w !! l) as [a|] eqn:Ha; [|discriminate].
    injection Ha' as <-. destruct (linked w Hw l a Ha) as [E1 E2].
    unfold songs_of, featuring, with_lists in *.
    cbn [a_songs a_featured_on songs add_song].
    rewrite !occurrences_snoc, E1, E2. auto.
Qed.

Lemma alter_set_lyrics_lookup (v : option pystr) (k l : loc) (h : list Song)
      (s' : Song) :
  alter (set_lyrics v) k h !! l = Some s' ->
  exists s, h !! l = Some s /\ song_core s' = song_core s.
Proof.
  intros H. destruct (decide (k = l)) as [->|Hne].
  - rewrite list_lookup_alter_eq in H. destruct (h !! l) as [s|]; [|discriminate].
    injection H as <-. exists s. auto.
  - rewrite list_lookup_alter_ne in H by exact Hne. exists s'. auto.
Qed.

Lemma set_lyrics_lookup (v : option pystr) (k l : loc) (h : list Song)
      (s : Song) :
  h !! l = Some s ->
  exists s', alter (set_lyrics v) k h !! l = Some s'
             /\ song_core s' = song_core s.
Proof.
  intros H. destruct (decide (k = l)) as [->|Hne].
  - rewrite list_lookup_alter_eq, H. eexists. split; reflexivity.
  - rewrite list_lookup_alter_ne by exact Hne. exists s. auto.
Qed.

Lemma sound_put_lyrics (w : world) (k : loc) (v : option pystr) :
  sound w -> sound (put_lyrics k v w).
Proof.
  intros Hw. unfold put_lyrics.
  constructor; cbn [with_songs artists songs _artists _songs].
  - apply (filed_artists w Hw).
  - apply (artists_filed w Hw).
  - intros j l Hj. destruct (filed_songs w Hw j l Hj) as (s & Hs & Hid).
    destruct (set_lyrics_lookup v k l _ s Hs) as (s' & Hs' & Hc).
    exists s'. split; [exact Hs'|]. injection Hc as E _. congruence.
  - intros l s' Hs'. apply alter_set_lyrics_lookup in Hs' as (s & Hs & Hc).
    injection Hc as E _. rewrite E. apply (songs_filed w Hw l s Hs).
  - intros l s' Hs'. apply alter_set_lyrics_lookup in Hs' as (s & Hs & Hc).
    injection Hc as _ _ _ _ E5 E6. rewrite E5, E6.
    apply (credits_exist w Hw l s Hs).
  - intros l s' Hs'. apply alter_set_lyrics_lookup in Hs' as (s & Hs & Hc).
    injection Hc as _ E2 E3 _ _ _. rewrite E2, E3.
    apply (titles_nfkd w Hw l s Hs).
  - intros l a Ha. destruct (linked w Hw l a Ha) as [E1 E2].
    unfold songs_of, featuring in *. cbn [songs with_songs].
    rewrite E1, E2. split; apply occurrences_ext; symmetry;
      apply fmap_alter_same; intros []; reflexivity.
Qed.

Lemma sound_step (w w' : world) :
  (forall s, nfkd (nfkd s) = nfkd s) ->
  sound w -> step w w' -> sound w'.
Proof.
  intros Hidem Hw Hs. destruct Hs as [w i name url Hi
                                     |w i t ft url p fs Hi Hp Hf
                                     |w k v
                                     |w url].
  - apply sound_add_artist; assumption.
  - apply sound_add_song; cbn; auto.
  - apply sound_put_lyrics; assumption.
  - destruct Hw. constructor; assumption.
Qed.

Lemma sound_steps (w w' : world) :
  (forall s, nfkd (nfkd s) = nfkd s) ->
  sound w -> rtc step w w' -> sound w'.
Proof.
  intros Hidem Hw Hs. induction Hs as [|w1 w2 w3 H12 _ IH]; [exact Hw|].
  apply IH. eapply sound_step; eassumption.
Qed.

Lemma built_sound (w : world) :
  (forall s, nfkd (nfkd s) = nfkd s) -> built w -> sound w.
Proof. intros Hidem Hb. eapply sound_steps; [exact Hidem|apply sound_fresh|exact Hb]. Qed.

End Sound.

(** *** What a snapshot has to bring back *)

(** A song as the round trip must return it: its id, its titles, its url,
    the id of its artist, the ids of its featured artists and its lyrics. *)
Record entry : Type := mkEntry {
  v_id : Z;
  v_title : pystr;
  v_full_title : pystr;
  v_url : json;
  v_artist : Z;
  v_featured : list Z;
  v_lyrics : option pystr
}.

Definition nobody : Artist := mkArtist 0 JNull JNull [] [].

(** The artist at an address ([nobody] at an address that holds none; a
    sound store has no such address in its songs). *)
Definition artist_at (w : world) (l : loc) : Artist :=
  default nobody (artists w !! l).

Definition view_of (w : world) (s : Song) : entry :=
  mkEntry (s_id s) (s_title s) (s_full_title s) (s_url s)
          (a_id (artist_at w (s_artist s)))
          (a_id ∘ artist_at w <$> s_featured_artists s)
          (s_lyrics s).

(** The song at an address, as an entry. *)
Definition song_view (w : world) (l : loc) : option entry :=
  view_of w <$> songs w !! l.

(** All songs of the store, in the order they were made. *)
Definition catalogue (w : world) : list entry := view_of w <$> songs w.

(** How often an entry belongs on the two lists of the artist with id
    [i]. *)
Definition by_artist (i : Z) (v : entry) : nat :=
  if Z.eqb i (v_artist v) then 1 else 0.

Definition featured_count (i : Z) (v : entry) : nat :=
  length (List.filter (Z.eqb i) (v_featured v)).

Definition songs_part (i : Z) (cat : list entry) : list entry :=
  flat_map (fun v => replicate (by_artist i v) v) cat.

Definition featured_part (i : Z) (cat : list entry) : list entry :=
  flat_map (fun v => replicate (featured_count i v) v) cat.

Lemma occurrences_lookup {B} (g : Song -> B) (m : Song -> nat)
      (pre h : list Song) :
  (fun l => g <$> (pre ++ h) !! l) <$> occurrences (length pre) m h
  = Some <$> flat_map (fun s => replicate (m s) (g s)) h.
Proof.
  revert pre. induction h as [|s h IH]; intros pre; [reflexivity|].
  cbn [occurrences flat_map]. rewrite !fmap_app, !fmap_replicate.
  rewrite list_lookup_middle by reflexivity. f_equal.
  specialize (IH (pre ++ [s])). rewrite <- app_assoc in IH. cbn [app] in IH.
  rewrite length_app, Nat.add_1_r in IH. exact IH.
Qed.

Section Views.
Context {U : Unicode}.

(** In a sound store two addresses hold the same id only if they are the
    same address. *)
Lemma artist_at_id (w : world) (l l' : loc) (a : Artist) :
  sound w ->
  artists w !! l = Some a ->
  (l' < length (artists w))%nat ->
  a_id (artist_at w l') = a_id a <-> l' = l.
Proof.
  intros Hw Ha Hl'. apply lookup_lt_is_Some_2 in Hl' as [b Hb].
  unfold artist_at. rewrite Hb. simpl. split.
  - intros E. pose proof (artists_filed w Hw l a Ha) as H1.
    pose proof (artists_filed w Hw l' b Hb) as H2.
    rewrite E, H1 in H2. injection H2 as ->. reflexivity.
  - intros ->. rewrite Ha in Hb. injection Hb as ->. reflexivity.
Qed.

Lemma is_by_view (w : world) (l l0 : loc) (a : Artist) (s : Song) :
  sound w -> artists w !! l = Some a -> songs w !! l0 = Some s ->
  is_by l s = by_artist (a_id a) (view_of w s).
Proof.
  intros Hw Ha Hs. pose proof (credits_exist w Hw l0 s Hs) as Hc.
  apply Forall_cons in Hc as [Hp _].
  unfold is_by, by_artist, view_of. cbn [v_artist]. rewrite count_cons.
  unfold count. cbn [List.filter length]. rewrite Nat.add_0_r.
  pose proof (artist_at_id w l (s_artist s) a Hw Ha Hp) as Hiff.
  destruct (Nat.eqb_spec l (s_artist s)) as [E|E];
    destruct (Z.eqb_spec (a_id a) (a_id (artist_at w (s_artist s)))) as [E'|E'];
    try reflexivity; exfalso.
  - apply E'. symmetry. apply Hiff. congruence.
  - apply E. symmetry. apply Hiff. congruence.
Qed.

Lemma features_view (w : world) (l l0 : loc) (a : Artist) (s : Song) :
  sound w -> artists w !! l = Some a -> songs w !! l0 = Some s ->
  features l s = featured_count (a_id a) (view_of w s).
Proof.
  intros Hw Ha Hs. pose proof (credits_exist w Hw l0 s Hs) as Hc.
  apply Forall_cons in Hc as [_ Hf].
  unfold features, featured_count, view_of, count. cbn [v_featured].
  induction Hf as [|f fs Hlt _ IH]; [reflexivity|].
  cbn [fmap list_fmap List.filter compose].
  pose proof (artist_at_id w l f a Hw Ha Hlt) as Hiff.
  destruct (Nat.eqb_spec l f) as [E|E];
    destruct (Z.eqb_spec (a_id a) (a_id (artist_at w f))) as [E'|E'];
    cbn [length]; try (rewrite IH; reflexivity); exfalso.
  - apply E'. symmetry. apply Hiff. congruence.
  - apply E. symmetry. apply Hiff. congruence.
Qed.

Lemma flat_map_replicate_ext {A B} (m m' : A -> nat) (g : A -> B) (h : list A) :
  Forall (fun s => m s = m' s) h ->
  flat_map (fun s => replicate (m s) (g s)) h
  = flat_map (fun s => replicate (m' s) (g s)) h.
Proof.
  induction 1 as [|s h Hs _ IH]; [reflexivity|]. cbn [flat_map].
  rewrite Hs, IH. reflexivity.
Qed.

Lemma flat_map_fmap {A B C} (f : A -> B) (g : B -> list C) (h : list A) :
  flat_map g (f <$> h) = flat_map (fun x => g (f x)) h.
Proof.
  induction h as [|x h IH]; [reflexivity|]. cbn [fmap list_fmap flat_map].
  f_equal. exact IH.
Qed.

(** The two lists of an artist, as entries, are read off the catalogue. *)
Lemma lists_from_catalogue (w : world) (l : loc) (a : Artist) :
  sound w ->
  artists w !! l = Some a ->
  song_view w <$> a_songs a = Some <$> songs_part (a_id a) (catalogue w)
  /\ song_view w <$> a_featured_on a
     = Some <$> featured_part (a_id a) (catalogue w).
Proof.
  intros Hw Ha. destruct (linked w Hw l a Ha) as [E1 E2].
  rewrite E1, E2. unfold songs_of, featuring, song_view, songs_part,
    featured_part, catalogue.
  rewrite !flat_map_fmap.
  pose proof (occurrences_lookup (view_of w) (is_by l) [] (songs w)) as H1.
  pose proof (occurrences_lookup (view_of w) (features l) [] (songs w)) as H2.
  cbn [app length] in H1, H2. rewrite H1, H2. split; f_equal;
    apply flat_map_replicate_ext, Forall_forall; intros s Hs;
    apply song_in_store in Hs as [l0 Hl0].
  - eapply is_by_view; eassumption.
  - eapply features_view; eassumption.
Qed.

End Views.

(** *** Catalogues *)

(** Loading a song into a catalogue: a song whose id is there already
    changes nothing, another one goes to the end. *)
Definition has_id (i : Z) (cat : list entry) : bool :=
  existsb (fun u => Z.eqb (v_id u) i) cat.

Definition merge (cat : list entry) (v : entry) : list entry :=
  if has_id (v_id v) cat then cat else cat ++ [v].

Definition merged (cat vs : list entry) : list entry := foldl merge cat vs.

Definition one_per_id (cat : list entry) : Prop := NoDup (v_id <$> cat).

Lemma has_id_spec (i : Z) (cat : list entry) :
  has_id i cat = true <-> exists u, u ∈ cat /\ v_id u = i.
Proof.
  unfold has_id. rewrite existsb_exists. split.
  - intros (u & Hu & E). exists u. rewrite list_elem_of_In.
    apply Z.eqb_eq in E. auto.
  - intros (u & Hu & E). exists u. rewrite <- list_elem_of_In.
    apply Z.eqb_eq in E. auto.
Qed.

Lemma has_id_ids (i : Z) (cat : list entry) :
  has_id i cat = false -> i ∉ v_id <$> cat.
Proof.
  intros H Hin. apply list_elem_of_fmap in Hin as (u & -> & Hu).
  assert (has_id (v_id u) cat = true) by (apply has_id_spec; eauto).
  congruence.
Qed.

Lemma same_id_same_entry (cat : list entry) (u v : entry) :
  one_per_id cat -> u ∈ cat -> v ∈ cat -> v_id u = v_id v -> u = v.
Proof.
  unfold one_per_id. induction cat as [|x cat IH]; intros Hnd Hu Hv E.
  - inversion Hu.
  - cbn [fmap list_fmap] in Hnd. apply NoDup_cons in Hnd as [Hx Hnd].
    apply elem_of_cons in Hu as [->|Hu], Hv as [->|Hv]; auto.
    + exfalso. apply Hx. rewrite E. apply list_elem_of_fmap_2, Hv.
    + exfalso. apply Hx. rewrite <- E. apply list_elem_of_fmap_2, Hu.
Qed.

Lemma merged_grows (vs cat : list entry) :
  exists more, merged cat vs = cat ++ more /\ forall z, z ∈ more -> z ∈ vs.
Proof.
  revert cat. induction vs as [|v vs IH]; intros cat.
  - exists []. rewrite app_nil_r. split; [reflexivity|]. intros z Hz. inversion Hz.
  - cbn [merged foldl]. fold (merged (merge cat v) vs).
    destruct (IH (merge cat v)) as (more & E & Hmore). unfold merge in *.
    destruct (has_id (v_id v) cat).
    + exists more. split; [exact E|]. intros z Hz. right. auto.
    + exists (v :: more). rewrite E, <- app_assoc. split; [reflexivity|].
      intros z Hz. apply elem_of_cons in Hz as [->|Hz]; [left|right; auto].
Qed.

Lemma merged_one_per_id (vs cat : list entry) :
  one_per_id cat -> one_per_id (merged cat vs).
Proof.
  revert cat. induction vs as [|v vs IH]; intros cat Hcat; [exact Hcat|].
  cbn [merged foldl]. apply IH. unfold merge.
  destruct (has_id (v_id v) cat) eqn:E; [exact Hcat|].
  unfold one_per_id in *. rewrite fmap_app. apply NoDup_app.
  split; [exact Hcat|]. split; [|apply NoDup_singleton].
  intros i Hi Hv. apply list_elem_of_singleton in Hv as ->.
  eapply has_id_ids; eassumption.
Qed.

Lemma merged_has (vs cat : list entry) (v : entry) :
  v ∈ vs -> exists u, u ∈ merged cat vs /\ v_id u = v_id v.
Proof.
  revert cat. induction vs as [|x vs IH]; intros cat Hv; [inversion Hv|].
  cbn [merged foldl]. fold (merged (merge cat x) vs).
  apply elem_of_cons in Hv as [->|Hv]; [|apply IH, Hv].
  destruct (merged_grows vs (merge cat x)) as (more & E & _). rewrite E.
  unfold merge. destruct (has_id (v_id x) cat) eqn:Ex.
  - apply has_id_spec in Ex as (u & Hu & Eu). exists u.
    split; [apply elem_of_app; left; exact Hu|exact Eu].
  - exists x. split; [|reflexivity]. rewrite !elem_of_app.
    left. right. apply list_elem_of_singleton. reflexivity.
Qed.

Lemma merged_fresh (vs cat : list entry) :
  one_per_id (cat ++ vs) -> merged cat vs = cat ++ vs.
Proof.
  revert cat. induction vs as [|v vs IH]; intros cat Hnd.
  - rewrite app_nil_r. reflexivity.
  - cbn [merged foldl]. fold (merged (merge cat v) vs). unfold merge.
    destruct (has_id (v_id v) cat) eqn:E.
    + exfalso. apply has_id_spec in E as (u & Hu & Eu).
      unfold one_per_id in Hnd. rewrite fmap_app in Hnd.
      apply NoDup_app in Hnd as (_ & Hdis & _).
      apply (Hdis (v_id u)); [apply list_elem_of_fmap_2, Hu|].
      rewrite Eu. cbn [fmap list_fmap]. left.
    + rewrite IH; rewrite <- app_assoc; [reflexivity|exact Hnd].
Qed.

(** The part of a catalogue that belongs to an artist. *)
Lemma songs_part_elem (i : Z) (cat : list entry) (v : entry) :
  v ∈ songs_part i cat <-> v ∈ cat /\ by_artist i v = 1%nat.
Proof.
  unfold songs_part. rewrite list_elem_of_In, in_flat_map. split.
  - intros (u & Hu & Hv). rewrite <- list_elem_of_In in Hu, Hv.
    unfold by_artist in *. destruct (Z.eqb i (v_artist u)) eqn:E.
    + apply list_elem_of_singleton in Hv as ->. rewrite E. auto.
    + inversion Hv.
  - intros [Hv E]. exists v. rewrite <- !list_elem_of_In. split; [exact Hv|].
    rewrite E. left.
Qed.

Lemma featured_part_elem (i : Z) (cat : list entry) (v : entry) :
  v ∈ featured_part i cat <-> v ∈ cat /\ featured_count i v <> 0%nat.
Proof.
  unfold featured_part. rewrite list_elem_of_In, in_flat_map. split.
  - intros (u & Hu & Hv). rewrite <- list_elem_of_In in Hu, Hv.
    apply elem_of_replicate in Hv as [-> Hn]. auto.
  - intros [Hv E]. exists v. rewrite <- !list_elem_of_In. split; [exact Hv|].
    apply elem_of_replicate. auto.
Qed.

Lemma songs_part_ids (i : Z) (cat : list entry) :
  one_per_id cat -> one_per_id (songs_part i cat).
Proof.
  unfold one_per_id. induction cat as [|v cat IH]; intros Hnd; [constructor|].
  cbn [fmap list_fmap] in Hnd. apply NoDup_cons in Hnd as [Hv Hnd].
  unfold songs_part. cbn [flat_map]. fold (songs_part i cat).
  unfold by_artist. destruct (Z.eqb i (v_artist v)); cbn [replicate app];
    [|apply IH, Hnd].
  cbn [fmap list_fmap]. apply NoDup_cons. split; [|apply IH, Hnd].
  intros Hin. apply Hv. apply list_elem_of_fmap in Hin as (u & E & Hu).
  apply songs_part_elem in Hu as [Hu _]. rewrite E.
  apply list_elem_of_fmap_2, Hu.
Qed.

Lemma songs_part_all (i : Z) (vs : list entry) :
  Forall (fun v => by_artist i v = 1%nat) vs -> songs_part i vs = vs.
Proof.
  induction 1 as [|v vs Hv _ IH]; [reflexivity|].
  unfold songs_part. cbn [flat_map]. fold (songs_part i vs).
  rewrite Hv, IH. reflexivity.
Qed.

Lemma songs_part_none (i : Z) (vs : list entry) :
  Forall (fun v => by_artist i v = 0%nat) vs -> songs_part i vs = [].
Proof.
  induction 1 as [|v vs Hv _ IH]; [reflexivity|].
  unfold songs_part. cbn [flat_map]. fold (songs_part i vs).
  rewrite Hv, IH. reflexivity.
Qed.

(** Loading the songs of an artist and then the songs that feature the
    artist gives a catalogue whose part for the artist is the first
    list. *)
Lemma songs_part_merged (i : Z) (cat : list entry) :
  one_per_id cat ->
  songs_part i (merged [] (songs_part i cat ++ featured_part i cat))
  = songs_part i cat.
Proof.
  intros Hcat. unfold merged. rewrite foldl_app. fold (merged [] (songs_part i cat)).
  rewrite (merged_fresh (songs_part i cat) [])
    by (apply songs_part_ids, Hcat).
  cbn [app]. fold (merged (songs_part i cat) (featured_part i cat)).
  destruct (merged_grows (featured_part i cat) (songs_part i cat))
    as (more & E & Hmore).
  pose proof (merged_one_per_id (featured_part i cat) (songs_part i cat)
                (songs_part_ids i cat Hcat)) as Hnd.
  rewrite E in *. unfold songs_part at 1. rewrite flat_map_app.
  fold (songs_part i (songs_part i cat)). fold (songs_part i more).
  rewrite (songs_part_none i more), (songs_part_all i (songs_part i cat)),
    app_nil_r; [reflexivity| |].
  - apply Forall_forall. intros z Hz. apply songs_part_elem in Hz as [_ Hz].
    exact Hz.
  - apply Forall_forall. intros z Hz.
    destruct (by_artist i z) as [|[|n]] eqn:Ez; [reflexivity| |].
    + exfalso. assert (Hzc : z ∈ songs_part i cat).
      { apply songs_part_elem. split; [|exact Ez].
        apply Hmore, featured_part_elem in Hz as [Hz _]. exact Hz. }
      unfold one_per_id in Hnd. rewrite fmap_app in Hnd.
      apply NoDup_app in Hnd as (_ & Hdis & _).
      apply (Hdis (v_id z)); apply list_elem_of_fmap_2; assumption.
    + unfold by_artist in Ez. destruct (Z.eqb i (v_artist z)); discriminate.
Qed.

Lemma flat_map_nil {A B} (g : A -> list B) (l : list A) :
  Forall (fun x => g x = []) l -> flat_map g l = [].
Proof.
  induction 1 as [|x l Hx _ IH]; [reflexivity|]. cbn [flat_map].
  rewrite Hx, IH. reflexivity.
Qed.

(** Two duplicate-free lists give the same [flat_map] up to order when
    they differ only in elements that contribute nothing. *)
Lemma flat_map_same_support {A B} (g : A -> list B) (l k : list A) :
  NoDup l -> NoDup k ->
  (forall x, x ∈ l -> x ∈ k) ->
  (forall x, x ∈ k -> g x <> [] -> x ∈ l) ->
  flat_map g l ≡ₚ flat_map g k.
Proof.
  intros Hl Hk Hlk Hkl.
  destruct (submseteq_Permutation l k (NoDup_submseteq l k Hl Hlk))
    as (rest & Hperm).
  rewrite Hperm, flat_map_app.
  rewrite (flat_map_nil g rest); [rewrite app_nil_r; reflexivity|].
  apply Forall_forall. intros x Hx.
  destruct (g x) as [|y ys] eqn:E; [reflexivity|]. exfalso.
  assert (Hxl : x ∈ l).
  { apply Hkl; [rewrite Hperm; apply elem_of_app; auto|congruence]. }
  rewrite Hperm in Hk. apply NoDup_app in Hk as (_ & Hdis & _).
  apply (Hdis x); assumption.
Qed.

(** And its part for the songs that feature the artist is the second
    list, up to order. *)
Lemma featured_part_merged (i : Z) (cat : list entry) :
  one_per_id cat ->
  featured_part i (merged [] (songs_part i cat ++ featured_part i cat))
  ≡ₚ featured_part i cat.
Proof.
  intros Hcat.
  set (vs := songs_part i cat ++ featured_part i cat).
  assert (Hvs : forall v, v ∈ vs -> v ∈ cat).
  { intros v Hv. apply elem_of_app in Hv as [Hv|Hv].
    - apply songs_part_elem in Hv as [Hv _]. exact Hv.
    - apply featured_part_elem in Hv as [Hv _]. exact Hv. }
  destruct (merged_grows vs []) as (more & E & Hmore). cbn [app] in E.
  assert (Hin : forall v, v ∈ merged [] vs -> v ∈ cat).
  { intros v Hv. rewrite E in Hv. auto. }
  apply flat_map_same_support.
  - eapply NoDup_fmap_1. apply (merged_one_per_id vs []). constructor.
  - eapply NoDup_fmap_1. exact Hcat.
  - exact Hin.
  - intros v Hv Hg.
    assert (Hvv : v ∈ vs).
    { apply elem_of_app. right. apply featured_part_elem.
      split; [exact Hv|]. intros E0. rewrite E0 in Hg. apply Hg. reflexivity. }
    destruct (merged_has vs [] v Hvv) as (u & Hu & Eu).
    rewrite <- (same_id_same_entry cat u v Hcat (Hin u Hu) Hv Eu). exact Hu.
Qed.

(** *** Writing *)

Definition artist_dict (a : Artist) : json :=
  JObj [(py "id", JInt (a_id a));
        (py "name", a_name a);
        (py "url", a_url a)].

(** What [Song.to_dict] returns for a song of the store [w]. *)
Definition song_dict (w : world) (s : Song) : json :=
  JObj [(py "id", JInt (s_id s));
        (py "title", JStr (s_title s));
        (py "full_title", JStr (s_full_title s));
        (py "url", s_url s);
        (py "primary_artist", artist_dict (artist_at w (s_artist s)));
        (py "featured_artists",
         JArr (artist_dict ∘ artist_at w <$> s_featured_artists s));
        (py "lyrics", lyrics_json (s_lyrics s))].

(** The songs on the two lists of the artist at [l], as the songs
    themselves say. *)
Definition own_songs (w : world) (l : loc) : list Song :=
  flat_map (fun s => replicate (is_by l s) s) (songs w).

Definition featuring_songs (w : world) (l : loc) : list Song :=
  flat_map (fun s => replicate (features l s) s) (songs w).

(** What [Artist.save] hands to [json.dump] for the artist at [l]. *)
Definition snapshot (w : world) (l : loc) (a : Artist) (now : json) : json :=
  JObj [(py "id", JInt (a_id a));
        (py "name", a_name a);
        (py "url", a_url a);
        (py "time", now);
        (py "songs", JArr (song_dict w <$> own_songs w l));
        (py "featured_on", JArr (song_dict w <$> featuring_songs w l))].

Lemma Artist_to_dict_run (w : world) (l : loc) (a : Artist) :
  artists w !! l = Some a ->
  Artist.to_dict l w = (Ok (artist_dict a), w).
Proof.
  intros Ha. unfold Artist.to_dict, bind, get_artist. rewrite Ha. reflexivity.
Qed.

Lemma mapM_Artist_to_dict_run (w : world) (ls : list loc) :
  Forall (fun l => (l < length (artists w))%nat) ls ->
  mapM Artist.to_dict ls w = (Ok (artist_dict ∘ artist_at w <$> ls), w).
Proof.
  induction 1 as [|l ls Hl _ IH]; [reflexivity|].
  apply lookup_lt_is_Some_2 in Hl as [a Ha].
  cbn [mapM]. unfold bind at 1. rewrite (Artist_to_dict_run w l a Ha).
  unfold bind at 1. rewrite IH. unfold ret, compose, artist_at.
  cbn [fmap list_fmap]. rewrite Ha. reflexivity.
Qed.

Section Writing.
Context {U : Unicode}.

Lemma Song_to_dict_run (w : world) (l : loc) (s : Song) :
  sound w ->
  songs w !! l = Some s ->
  Song.to_dict l w = (Ok (song_dict w s), w).
Proof.
  intros Hw Hs. pose proof (credits_exist w Hw l s Hs) as Hc.
  apply Forall_cons in Hc as [Hp Hf].
  apply lookup_lt_is_Some_2 in Hp as [p Hp].
  unfold Song.to_dict, bind at 1, get_song. rewrite Hs.
  unfold bind at 1. rewrite (mapM_Artist_to_dict_run w _ Hf).
  unfold bind at 1. rewrite (Artist_to_dict_run w _ p Hp).
  unfold ret, song_dict, artist_at. rewrite Hp. reflexivity.
Qed.

Lemma mapM_Song_to_dict_run (w : world) (ls : list loc) (ss : list Song) :
  sound w ->
  (fun l => songs w !! l) <$> ls = Some <$> ss ->
  mapM Song.to_dict ls w = (Ok (song_dict w <$> ss), w).
Proof.
  intros Hw. revert ss. induction ls as [|l ls IH]; intros [|s ss] E;
    try discriminate; [reflexivity|].
  cbn [fmap list_fmap] in E. injection E as Hs E.
  cbn [mapM]. unfold bind at 1. rewrite (Song_to_dict_run w l s Hw Hs).
  unfold bind at 1. rewrite (IH ss E). reflexivity.
Qed.

Lemma lists_are_songs (w : world) (l : loc) (a : Artist) :
  sound w ->
  artists w !! l = Some a ->
  (fun k => songs w !! k) <$> a_songs a = Some <$> own_songs w l
  /\ (fun k => songs w !! k) <$> a_featured_on a
     = Some <$> featuring_songs w l.
Proof.
  intros Hw Ha. destruct (linked w Hw l a Ha) as [E1 E2]. rewrite E1, E2.
  pose proof (occurrences_lookup (fun s => s) (is_by l) [] (songs w)) as H1.
  pose proof (occurrences_lookup (fun s => s) (features l) [] (songs w)) as H2.
  cbn [app length] in H1, H2. unfold songs_of, featuring, own_songs,
    featuring_songs. rewrite <- H1, <- H2.
  split; apply list_fmap_ext; intros _ k _; destruct (songs w !! k); reflexivity.
Qed.

Lemma Artist_save_run (w : world) (l : loc) (a : Artist) (now : json) :
  sound w ->
  artists w !! l = Some a ->
  Artist_save l now w = (Ok (snapshot w l a now), w).
Proof.
  intros Hw Ha. destruct (lists_are_songs w l a Hw Ha) as [E1 E2].
  unfold Artist_save, bind at 1, get_artist. rewrite Ha.
  unfold bind at 1. rewrite (mapM_Song_to_dict_run w _ _ Hw E1).
  unfold bind at 1. rewrite (mapM_Song_to_dict_run w _ _ Hw E2).
  reflexivity.
Qed.

End Writing.

(** *** Reading *)

Lemma as_lyrics_json (v : option pystr) : as_lyrics (lyrics_json v) = Ok v.
Proof. destruct v; reflexivity. Qed.

Lemma Artist_from_data_dict (a : Artist) (w : world) :
  exists l w', Artist.from_data (artist_dict a) w = (Ok l, w').
Proof.
  rewrite Artist_from_data_run.
  change (rbind (getitem (artist_dict a) "id") as_id) with (Ok (A:=Z) (a_id a)).
  change (getitem (artist_dict a) "name") with (Ok (a_name a)).
  change (getitem (artist_dict a) "url") with (Ok (a_url a)).
  cbv iota beta. destruct (_artists w !! a_id a); eauto.
Qed.

Lemma mapM_Artist_from_data_dicts (l : list Artist) (w : world) :
  exists ls w', mapM Artist.from_data (artist_dict <$> l) w = (Ok ls, w').
Proof.
  revert w. induction l as [|a l IH]; intros w; [eexists _, _; reflexivity|].
  destruct (Artist_from_data_dict a w) as (x & w1 & E1).
  destruct (IH w1) as (xs & w2 & E2).
  exists (x :: xs), w2. cbn [fmap list_fmap mapM].
  rewrite (bind_ok _ _ _ _ _ E1), (bind_ok _ _ _ _ _ E2). reflexivity.
Qed.

Section Reading.
Context {U : Unicode}.

Lemma Song_from_data_dict (w0 : world) (s : Song) (w : world) :
  exists l w', Song.from_data (song_dict w0 s) w = (Ok l, w').
Proof.
  unfold Song.from_data.
  rewrite (bind_lift_ok _ _ _ (s_id s)) by reflexivity.
  unfold bind at 1, find_song. destruct (_songs w !! s_id s); [eauto|].
  rewrite (bind_lift_ok _ _ _ (nfkd (s_title s))) by reflexivity.
  rewrite (bind_lift_ok _ _ _ (nfkd (s_full_title s))) by reflexivity.
  rewrite (bind_lift_ok _ _ _ (s_url s)) by reflexivity.
  rewrite (bind_lift_ok _ _ _ (artist_dict (artist_at w0 (s_artist s))))
    by reflexivity.
  destruct (Artist_from_data_dict (artist_at w0 (s_artist s)) w)
    as (p & w1 & E1).
  rewrite (bind_ok _ _ _ _ _ E1).
  rewrite (bind_lift_ok _ _ _
             (artist_dict <$> (artist_at w0 <$> s_featured_artists s))).
  2:{ cbn. rewrite list_fmap_compose. reflexivity. }
  destruct (mapM_Artist_from_data_dicts
              (artist_at w0 <$> s_featured_artists s) w1) as (fs & w2 & E2).
  rewrite (bind_ok _ _ _ _ _ E2).
  pose proof (Song_construct_run
                (mkSong (s_id s) (nfkd (s_title s)) (nfkd (s_full_title s))
                        (s_url s) p fs None) w2) as E3.
  cbn [s_id s_artist s_featured_artists] in E3. rewrite E3. eauto.
Qed.

Lemma keeps_artist_id (w w' : world) (f : loc) :
  keeps w w' ->
  (f < length (artists w))%nat ->
  a_id (artist_at w' f) = a_id (artist_at w f).
Proof.
  intros Hk Hf. apply lookup_lt_is_Some_2 in Hf as [a Ha].
  destruct (keeps_artist w w' f a Hk Ha) as (a' & Ha' & Hc).
  unfold artist_at. rewrite Ha, Ha'. simpl. injection Hc as -> _ _.
  reflexivity.
Qed.

Lemma view_of_keeps (w w' : world) (l : loc) (x : Song) :
  sound w -> keeps w w' -> songs w !! l = Some x ->
  view_of w' x = view_of w x.
Proof.
  intros Hw Hk Hx. pose proof (credits_exist w Hw l x Hx) as Hc.
  apply Forall_cons in Hc as [Hp Hf]. unfold view_of.
  rewrite (keeps_artist_id w w' _ Hk Hp). f_equal.
  induction Hf as [|f fs Hlt _ IH]; [reflexivity|].
  cbn [fmap list_fmap compose]. rewrite (keeps_artist_id w w' f Hk Hlt).
  f_equal. exact IH.
Qed.

Lemma filed_artist_dict (w : world) (a : Artist) (p : loc) :
  sound w -> filed_artist (artist_dict a) p w ->
  a_id (artist_at w p) = a_id a.
Proof.
  intros Hw (j & Hj & Hp).
  change (rbind (getitem (artist_dict a) "id") as_id)
    with (Ok (A:=Z) (a_id a)) in Hj. injection Hj as <-.
  destruct (filed_artists w Hw _ _ Hp) as (b & Hb & Hid).
  unfold artist_at. rewrite Hb. exact Hid.
Qed.

Lemma filed_artist_dicts (w : world) (l : list Artist) (fs : list loc) :
  sound w ->
  Forall2 (fun d f => filed_artist d f w) (artist_dict <$> l) fs ->
  a_id ∘ artist_at w <$> fs = a_id <$> l.
Proof.
  intros Hw. revert fs. induction l as [|a l IH]; intros fs H.
  - inversion H. reflexivity.
  - cbn [fmap list_fmap] in H. inversion H as [|d f ds fs' Hd Hds]; subst.
    cbn [fmap list_fmap compose].
    rewrite (filed_artist_dict w a f Hw Hd). f_equal. apply IH, Hds.
Qed.

Lemma alter_fixed {A} (f : A -> A) (k : nat) (h : list A) (x : A) :
  h !! k = Some x -> f x = x -> alter f k h = h.
Proof.
  intros Hk Hx. apply list_eq. intros i. destruct (decide (k = i)) as [->|Hne].
  - rewrite list_lookup_alter_eq, Hk. simpl. rewrite Hx. reflexivity.
  - rewrite list_lookup_alter_ne by exact Hne. reflexivity.
Qed.

Lemma alter_last {A} (f : A -> A) (h : list A) (x : A) :
  alter f (length h) (h ++ [x]) = h ++ [f x].
Proof.
  pose proof (alter_app_r f h [x] 0) as H. rewrite Nat.add_0_r in H.
  exact H.
Qed.

Lemma catalogue_has_id (w : world) (i : Z) :
  sound w -> _songs w !! i = None -> has_id i (catalogue w) = false.
Proof.
  intros Hw Hi. destruct (has_id i (catalogue w)) eqn:E; [|reflexivity].
  apply has_id_spec in E as (u & Hu & Eu). unfold catalogue in Hu.
  apply list_elem_of_fmap in Hu as (x & -> & Hx).
  apply song_in_store in Hx as [l Hl].
  pose proof (songs_filed w Hw l x Hl) as Hf. cbn [view_of v_id] in Eu.
  congruence.
Qed.

(** One turn of the loop of [load_artist] on what [Song.to_dict] wrote
    for the song [s] of the store [w0]: in the catalogue, the song is
    merged in. *)
Lemma load_song_entry (w0 : world) (s : Song) (w : world) :
  (forall x, nfkd (nfkd x) = nfkd x) ->
  sound w ->
  nfkd (s_title s) = s_title s ->
  nfkd (s_full_title s) = s_full_title s ->
  (forall u, u ∈ catalogue w -> v_id u = s_id s -> u = view_of w0 s) ->
  exists w',
    Lyricist.load_song (song_dict w0 s) w = (Ok tt, w')
    /\ rtc step w w'
    /\ catalogue w' = merge (catalogue w) (view_of w0 s).
Proof.
  intros Hidem Hw Ht Hft Hsame.
  destruct (Song_from_data_dict w0 s w) as (l & w1 & Erun).
  destruct (does_run _ _ _ _ _ (Song_from_data_does (song_dict w0 s) w) Erun)
    as [Hsteps Hq].
  destruct (Hq l eq_refl) as (i & Hi & Hl & Hmade). clear Hq.
  change (rbind (getitem (song_dict w0 s) "id") as_id)
    with (Ok (A:=Z) (s_id s)) in Hi. injection Hi as <-.
  exists (put_lyrics l (s_lyrics s) w1). split; [|split].
  - unfold Lyricist.load_song. rewrite (bind_ok _ _ _ _ _ Erun).
    rewrite (bind_lift_ok _ _ _ (s_lyrics s)) by apply as_lyrics_json.
    reflexivity.
  - etransitivity; [exact Hsteps|]. apply rtc_once. constructor.
  - unfold merge. change (v_id (view_of w0 s)) with (s_id s).
    destruct (_songs w !! s_id s) as [l0|] eqn:Ereg.
    + destruct Hmade as [-> ->].
      destruct (filed_songs w Hw _ _ Ereg) as (x & Hx & Hid).
      assert (Hin : view_of w x ∈ catalogue w).
      { unfold catalogue. apply list_elem_of_fmap_2.
        eapply list_elem_of_lookup_2, Hx. }
      assert (Hhas : has_id (s_id s) (catalogue w) = true).
      { apply has_id_spec. exists (view_of w x). auto. }
      rewrite Hhas. pose proof (Hsame _ Hin Hid) as Hv.
      assert (Hly : s_lyrics x = s_lyrics s).
      { apply (f_equal v_lyrics) in Hv. exact Hv. }
      unfold catalogue, put_lyrics. cbn [with_songs songs].
      rewrite (alter_fixed _ _ _ x Hx).
      * reflexivity.
      * rewrite <- Hly. destruct x. reflexivity.
    + rewrite (catalogue_has_id w _ Hw Ereg).
      destruct Hmade as (title & full_title & url & primary & featured
                         & artist & fas & Htitle & Hfull & Hurl & Hprim & Hfeat
                         & Hartist & Hfas & -> & Hsongs & _).
      change (getitem (song_dict w0 s) "title")
        with (Ok (JStr (s_title s))) in Htitle. injection Htitle as <-.
      change (getitem (song_dict w0 s) "full_title")
        with (Ok (JStr (s_full_title s))) in Hfull. injection Hfull as <-.
      change (getitem (song_dict w0 s) "url") with (Ok (s_url s)) in Hurl.
      injection Hurl as <-.
      change (getitem (song_dict w0 s) "primary_artist")
        with (Ok (artist_dict (artist_at w0 (s_artist s)))) in Hprim.
      injection Hprim as <-.
      change (rbind (getitem (song_dict w0 s) "featured_artists") py_iter)
        with (Ok (artist_dict ∘ artist_at w0 <$> s_featured_artists s))
        in Hfeat.
      injection Hfeat as <-.
      pose proof (sound_steps w w1 Hidem Hw Hsteps) as Hw1.
      pose proof (steps_keep w w1 Hsteps) as Hk.
      set (w' := put_lyrics (length (songs w)) (s_lyrics s) w1).
      assert (Hk' : keeps w w').
      { apply steps_keep. etransitivity; [exact Hsteps|].
        apply rtc_once. constructor. }
      assert (Esongs : songs w'
                       = songs w ++ [set_lyrics (s_lyrics s)
                           (mkSong (s_id s) (nfkd (s_title s))
                                   (nfkd (s_full_title s)) (s_url s) artist
                                   fas None)]).
      { unfold w', put_lyrics. cbn [with_songs songs].
        rewrite Hsongs, alter_last. reflexivity. }
      unfold catalogue. rewrite Esongs, fmap_app. f_equal.
      * apply list_fmap_ext. intros k x Hx.
        apply (view_of_keeps w w' k x Hw Hk' Hx).
      * cbn [fmap list_fmap]. f_equal. unfold view_of, set_lyrics.
        cbn [s_id s_title s_full_title s_url s_artist s_featured_artists
             s_lyrics].
        rewrite Ht, Hft. change (artist_at w') with (artist_at w1).
        rewrite (filed_artist_dict w1 _ _ Hw1 Hartist).
        rewrite list_fmap_compose in Hfas.
        rewrite (filed_artist_dicts w1 _ _ Hw1 Hfas).
        rewrite <- list_fmap_compose. reflexivity.
Qed.

Lemma merge_within (cat : list entry) (v : entry) (C : list entry) :
  (forall u, u ∈ cat -> u ∈ C) -> v ∈ C ->
  forall u, u ∈ merge cat v -> u ∈ C.
Proof.
  intros Hcat Hv u. unfold merge. destruct (has_id (v_id v) cat); [apply Hcat|].
  intros Hu. apply elem_of_app in Hu as [Hu|Hu]; [apply Hcat, Hu|].
  apply list_elem_of_singleton in Hu as ->. exact Hv.
Qed.

(** The loop of [load_artist] over what [Artist.save] wrote for the
    songs [ss] of the store [w0]. *)
Lemma load_songs_entries (w0 : world) (C : list entry) (ss : list Song) :
  (forall x, nfkd (nfkd x) = nfkd x) ->
  one_per_id C ->
  Forall (fun s => nfkd (s_title s) = s_title s
                   /\ nfkd (s_full_title s) = s_full_title s
                   /\ view_of w0 s ∈ C) ss ->
  forall w,
    sound w ->
    (forall u, u ∈ catalogue w -> u ∈ C) ->
    exists w',
      forM_ (song_dict w0 <$> ss) Lyricist.load_song w = (Ok tt, w')
      /\ rtc step w w'
      /\ catalogue w' = merged (catalogue w) (view_of w0 <$> ss).
Proof.
  intros Hidem HC Hss. induction Hss as [|s ss (Ht & Hft & Hin) _ IH];
    intros w Hw Hcat.
  - exists w. repeat split; reflexivity.
  - destruct (load_song_entry w0 s w Hidem Hw Ht Hft) as (w1 & E1 & S1 & C1).
    { intros u Hu Hid. apply (same_id_same_entry C); auto. }
    destruct (IH w1) as (w2 & E2 & S2 & C2).
    { eapply sound_steps; eassumption. }
    { rewrite C1. apply merge_within; assumption. }
    exists w2. cbn [fmap list_fmap forM_ merged foldl].
    rewrite (bind_ok _ _ _ _ _ E1). split; [exact E2|].
    split; [etransitivity; eassumption|]. rewrite C2, C1. reflexivity.
Qed.

Lemma sound_one_per_id (w : world) : sound w -> one_per_id (catalogue w).
Proof.
  intros Hw. unfold one_per_id, catalogue. apply NoDup_alt. intros i j x Hi Hj.
  rewrite !list_lookup_fmap in Hi, Hj.
  destruct (songs w !! i) as [si|] eqn:Ei; [|discriminate].
  destruct (songs w !! j) as [sj|] eqn:Ej; [|discriminate].
  cbn in Hi, Hj. injection Hi as Hi. injection Hj as Hj.
  pose proof (songs_filed w Hw i si Ei) as Fi.
  pose proof (songs_filed w Hw j sj Ej) as Fj.
  rewrite Hi in Fi. rewrite Hj, Fi in Fj. injection Fj as ->. reflexivity.
Qed.

Lemma fmap_Some_inj {A} (l k : list A) : Some <$> l = Some <$> k -> l = k.
Proof.
  revert k. induction l as [|x l IH]; intros [|y k] E; try discriminate;
    [reflexivity|].
  cbn [fmap list_fmap] in E. injection E as -> E. f_equal. apply IH, E.
Qed.

Lemma fmap_through_Some {X A B} (f : A -> B) (g : X -> option A)
      (ls : list X) (ss : list A) :
  g <$> ls = Some <$> ss ->
  (fun x => f <$> g x) <$> ls = Some <$> (f <$> ss).
Proof.
  revert ss. induction ls as [|x ls IH]; intros [|s ss] E; try discriminate;
    [reflexivity|].
  cbn [fmap list_fmap] in *. injection E as Hx E. rewrite Hx.
  f_equal. apply IH, E.
Qed.

(** The songs on the lists of an artist, as entries. *)
Lemma own_songs_views (w : world) (l : loc) (a : Artist) :
  sound w ->
  artists w !! l = Some a ->
  view_of w <$> own_songs w l = songs_part (a_id a) (catalogue w)
  /\ view_of w <$> featuring_songs w l
     = featured_part (a_id a) (catalogue w).
Proof.
  intros Hw Ha. destruct (lists_from_catalogue w l a Hw Ha) as [V1 V2].
  destruct (lists_are_songs w l a Hw Ha) as [S1 S2].
  unfold song_view in V1, V2.
  rewrite (fmap_through_Some (view_of w) _ _ _ S1) in V1.
  rewrite (fmap_through_Some (view_of w) _ _ _ S2) in V2.
  split; apply fmap_Some_inj; assumption.
Qed.

Lemma listed_songs_fit (w : world) (m : Song -> nat) :
  sound w ->
  Forall (fun s => nfkd (s_title s) = s_title s
                   /\ nfkd (s_full_title s) = s_full_title s
                   /\ view_of w s ∈ catalogue w)
         (flat_map (fun s => replicate (m s) s) (songs w)).
Proof.
  intros Hw. apply Forall_forall. intros s Hs.
  apply list_elem_of_In, in_flat_map in Hs as (x & Hx & Hs).
  apply list_elem_of_In, elem_of_replicate in Hs as [-> _].
  apply list_elem_of_In in Hx. pose proof Hx as Hin.
  apply song_in_store in Hx as [k Hk].
  destruct (titles_nfkd w Hw k x Hk) as [Ht Hft].
  repeat split; [exact Ht|exact Hft|].
  unfold catalogue. apply list_elem_of_fmap_2, Hin.
Qed.

(** Loading what was saved, into an empty store. *)
Lemma load_snapshot (w : world) (l : loc) (a : Artist) (now : json) :
  (forall x, nfkd (nfkd x) = nfkd x) ->
  sound w ->
  artists w !! l = Some a ->
  exists w' a',
    Lyricist.load_artist (snapshot w l a now) fresh = (Ok 0%nat, w')
    /\ sound w'
    /\ artists w' !! 0%nat = Some a'
    /\ artist_core a' = artist_core a
    /\ catalogue w'
       = merged [] (songs_part (a_id a) (catalogue w)
                    ++ featured_part (a_id a) (catalogue w)).
Proof.
  intros Hidem Hw Ha.
  set (w1 := add_artist (mkArtist (a_id a) (a_name a) (a_url a) [] []) fresh).
  assert (E1 : Artist.from_data (snapshot w l a now) fresh = (Ok 0%nat, w1)).
  { rewrite Artist_from_data_run.
    change (rbind (getitem (snapshot w l a now) "id") as_id)
      with (Ok (A:=Z) (a_id a)).
    change (getitem (snapshot w l a now) "name") with (Ok (a_name a)).
    change (getitem (snapshot w l a now) "url") with (Ok (a_url a)).
    cbv iota beta. cbn [fresh _artists]. rewrite lookup_empty. reflexivity. }
  assert (Hw1 : sound w1).
  { apply sound_add_artist; [apply sound_fresh|apply lookup_empty]. }
  pose proof (sound_one_per_id w Hw) as HC.
  destruct (own_songs_views w l a Hw Ha) as [X Y].
  destruct (load_songs_entries w (catalogue w) (own_songs w l) Hidem HC
              (listed_songs_fit w _ Hw) w1 Hw1)
    as (w2 & E2 & S2 & C2).
  { intros u Hu. inversion Hu. }
  destruct (load_songs_entries w (catalogue w) (featuring_songs w l) Hidem HC
              (listed_songs_fit w _ Hw) w2)
    as (w3 & E3 & S3 & C3).
  { eapply sound_steps; eassumption. }
  { intros u Hu. rewrite C2 in Hu.
    destruct (merged_grows (view_of w <$> own_songs w l) (catalogue w1))
      as (more & Em & Hmore).
    rewrite Em in Hu. cbn [app] in Hu. apply Hmore in Hu. rewrite X in Hu.
    apply songs_part_elem in Hu as [Hu _]. exact Hu. }
  assert (S13 : rtc step w1 w3) by (etransitivity; eassumption).
  destruct (keeps_artist w1 w3 0%nat
              (mkArtist (a_id a) (a_name a) (a_url a) [] [])
              (steps_keep _ _ S13) eq_refl) as (a' & Ha' & Hcore).
  exists w3, a'. split; [|split; [|split; [|split]]].
  - unfold Lyricist.load_artist. rewrite (bind_ok _ _ _ _ _ E1).
    rewrite (bind_lift_ok _ _ _ (JArr (song_dict w <$> own_songs w l)))
      by reflexivity.
    rewrite (bind_lift_ok _ _ _ (JArr (song_dict w <$> featuring_songs w l)))
      by reflexivity.
    rewrite (bind_lift_ok _ _ _ (song_dict w <$> own_songs w l))
      by reflexivity.
    rewrite (bind_ok _ _ _ _ _ E2).
    rewrite (bind_lift_ok _ _ _ (song_dict w <$> featuring_songs w l))
      by reflexivity.
    rewrite (bind_ok _ _ _ _ _ E3). reflexivity.
  - eapply sound_steps; eassumption.
  - exact Ha'.
  - exact Hcore.
  - rewrite C3, C2, X, Y. unfold merged. rewrite foldl_app. reflexivity.
Qed.

(** C5.  Let [w] be a store that the program has built, and [artist] an
    artist in it.  [save_artist] writes a document, and [load_artist],
    run on that document in an empty store, returns an artist with the
    same id, name and url whose [songs] are, in the same order, songs
    with the same id, title, full title, url, artist id, featured artist
    ids and lyrics, and whose [featured_on] holds, up to order, songs
    that agree in the same way. *)
Theorem save_load_round_trip (w : world) (artist : loc) (a : Artist)
        (now : json) :
  (forall x, nfkd (nfkd x) = nfkd x) ->
  built w ->
  artists w !! artist = Some a ->
  exists doc artist' w' a',
    Lyricist.save_artist artist now w = (Ok doc, w)
    /\ Lyricist.load_artist doc fresh = (Ok artist', w')
    /\ artists w' !! artist' = Some a'
    /\ artist_core a' = artist_core a
    /\ Forall is_Some (song_view w <$> a_songs a ++ a_featured_on a)
    /\ song_view w' <$> a_songs a' = song_view w <$> a_songs a
    /\ song_view w' <$> a_featured_on a' ≡ₚ song_view w <$> a_featured_on a.
Proof.
  intros Hidem Hb Ha. pose proof (built_sound w Hidem Hb) as Hw.
  destruct (load_snapshot w artist a now Hidem Hw Ha)
    as (w' & a' & Eload & Hw' & Ha' & Hcore & Hcat).
  destruct (lists_from_catalogue w artist a Hw Ha) as [V1 V2].
  destruct (lists_from_catalogue w' 0%nat a' Hw' Ha') as [V1' V2'].
  assert (Hid : a_id a' = a_id a) by (injection Hcore; auto).
  pose proof (sound_one_per_id w Hw) as HC.
  exists (snapshot w artist a now), 0%nat, w', a'.
  split; [apply Artist_save_run; assumption|].
  split; [exact Eload|]. split; [exact Ha'|]. split; [exact Hcore|].
  split; [|split].
  - rewrite fmap_app, V1, V2, <- fmap_app. apply Forall_fmap, Forall_true.
    intros v. cbn. eauto.
  - rewrite V1', V1, Hid, Hcat, songs_part_merged by exact HC. reflexivity.
  - rewrite V2', V2, Hid, Hcat. apply fmap_Permutation.
    apply featured_part_merged, HC.
Qed.

End Reading.

(** * Worked examples *)

(** One artist with one song, the lyrics of the song being [lyrics]. *)
Definition charli : Artist :=
  mkArtist 45349 (JStr (py "Charli XCX"))
           (JStr (py "https://genius.com/artists/Charli-xcx")) [0%nat] [].

Definition boom_clap (lyrics : option pystr) : Song :=
  mkSong 378195 (py "Boom Clap") (py "Boom Clap by Charli XCX")
         (JStr (py "https://genius.com/Charli-xcx-boom-clap-lyrics"))
         0%nat [] lyrics.

Definition one_song (lyrics : option pystr) : world :=
  mkWorld [charli] [boom_clap lyrics] {[45349 := 0%nat]} {[378195 := 0%nat]} [].

(** A host that is down, and a page without a lyrics container. *)
Definition host_down : list json -> pystr -> result pystr :=
  fun _ _ => Raise Failure.

Definition no_container : pystr -> result pystr := fun _ => Raise IndexError.

(** The records of the API for the same song, and a later record with the
    same ids and other fields. *)
Definition charli_data : json :=
  JObj [(py "id", JInt 45349); (py "name", JStr (py "Charli XCX"));
        (py "url", JStr (py "https://genius.com/artists/Charli-xcx"))].

Definition boom_clap_data : json :=
  JObj [(py "id", JInt 378195); (py "title", JStr (py "Boom Clap"));
        (py "full_title", JStr (py "Boom Clap by Charli XCX"));
        (py "url", JStr (py "https://genius.com/Charli-xcx-boom-clap-lyrics"));
        (py "primary_artist", charli_data);
        (py "featured_artists", JArr [])].

Definition renamed_data : json :=
  JObj [(py "id", JInt 45349); (py "name", JStr (py "Charlotte Aitchison"))].

Definition page_songs : list json :=
  [JObj [(py "primary_artist", credit "Someone Else" 7);
         (py "featured_artists", JArr [credit "Charli XCX" 45349])]].

Lemma get_song_lyrics_cached_witness :
  Lyricist.get_song_lyrics (U:=basic_latin) host_down no_container 0%nat
                           (one_song (Some []))
  = (Ok (Some []), one_song (Some [])).
Proof.
  apply (get_song_lyrics_cached (U:=basic_latin) host_down no_container
           (one_song (Some [])) 0%nat (boom_clap (Some [])));
    [reflexivity|discriminate].
Defined.

Lemma lyric_failures_contained_witness :
  exists w', Lyricist.get_artist_lyrics (U:=basic_latin) host_down no_container
                                        0%nat (one_song None)
             = (Ok tt, w').
Proof.
  apply (lyric_failures_contained (U:=basic_latin) host_down no_container
           (one_song None) 0%nat charli).
  - split; intros; reflexivity.
  - reflexivity.
  - repeat constructor. exists (boom_clap None). reflexivity.
Defined.

(** C2, at a store where the claim fails: the song has not been fetched,
    and the search raises instead of returning a list. *)
Lemma search_artist_lyrics_raises :
  Lyricist.search_artist_lyrics (U:=basic_latin) 0%nat
                                (Lyricist.One (py "love")) true false
                                (one_song None)
  = (Raise TypeError, one_song None).
Proof. reflexivity. Qed.

Lemma search_artist_lyrics_result_witness :
  Lyricist.search_artist_lyrics (U:=basic_latin) 0%nat
                                (Lyricist.One (py "Boom!")) true false
                                (one_song (Some (py "boom clap")))
  = (Ok [0%nat], one_song (Some (py "boom clap"))).
Proof.
  apply (search_artist_lyrics_result (U:=basic_latin)
           (one_song (Some (py "boom clap"))) 0%nat charli
           (Lyricist.One (py "Boom!")) true false).
  - reflexivity.
  - repeat constructor. eexists _, _. split; reflexivity.
Defined.

(** C10, at an input where the claim fails: with no query at all nothing
    is tested, and the search returns although the song has not been
    fetched; with [match_all] it even returns that song. *)
Lemma search_artist_lyrics_no_query :
  Lyricist.search_artist_lyrics (U:=basic_latin) 0%nat (Lyricist.Many [])
                                true false (one_song None)
  = (Ok [], one_song None)
  /\ Lyricist.search_artist_lyrics (U:=basic_latin) 0%nat (Lyricist.Many [])
                                   true true (one_song None)
     = (Ok [0%nat], one_song None).
Proof. split; reflexivity. Qed.

Lemma search_artist_lyrics_unfetched_witness :
  Lyricist.search_artist_lyrics (U:=basic_latin) 0%nat
                                (Lyricist.Many [py "boom"; py "clap"])
                                true true (one_song None)
  = (Raise TypeError, one_song None).
Proof.
  apply (search_artist_lyrics_unfetched (U:=basic_latin) (one_song None)
           0%nat charli).
  - reflexivity.
  - repeat constructor. exists (boom_clap None). reflexivity.
  - constructor. exists (boom_clap None). split; reflexivity.
  - discriminate.
Defined.

Lemma get_artist_id_first_credit_witness :
  Lyricist.get_artist_id (fun alias => Ok alias)
                         (fun _ => Ok (JArr page_songs)) one_hit
                         (py "Charli XCX")
  = Ok (JInt 45349).
Proof.
  apply (get_artist_id_first_credit (fun alias => Ok alias)
           (fun _ => Ok (JArr page_songs)) one_hit
           (py "Charli XCX") (py "Charli XCX") page_songs [] (JInt 45349));
    reflexivity.
Defined.

Lemma normalize_lyrics_steps_witness :
  @normalize_lyrics basic_latin three_newlines
  = @normalize_in_order basic_latin three_newlines
  /\ @collapse_newlines ([97%N] ++ repeat newline 3 ++ [98%N])
     = @collapse_newlines [97%N] ++ repeat newline 2
       ++ @collapse_newlines [98%N].
Proof.
  apply (normalize_lyrics_steps (U:=basic_latin) three_newlines [97%N] [98%N] 3);
    discriminate.
Defined.

Lemma normalize_lyrics_idempotent_witness :
  @normalize_lyrics basic_latin
     (@normalize_lyrics basic_latin (py "[Hook] Hello, World!"))
  = @normalize_lyrics basic_latin (py "[Hook] Hello, World!").
Proof.
  apply (normalize_lyrics_idempotent (U:=basic_latin)
           (py "[Hook] Hello, World!") basic_latin_laws).
  reflexivity.
Defined.

(** A later record of the song: the same id, another title, and nothing
    else. *)
Definition retitled_data : json :=
  JObj [(py "id", JInt 378195); (py "title", JStr (py "Boom Clap (Remix)"))].

Lemma from_data_first_seen_witness :
  (exists l w1,
     Artist.from_data charli_data fresh = (Ok l, w1)
     /\ Artist.from_data renamed_data
          (run_calls (U:=basic_latin) [MakeSong boom_clap_data] w1)
        = (Ok l, run_calls (U:=basic_latin) [MakeSong boom_clap_data] w1)
     /\ artist_as_first_seen fresh
          (run_calls (U:=basic_latin) [MakeSong boom_clap_data] w1)
          charli_data l)
  /\ (exists l w1,
        Song.from_data (U:=basic_latin) boom_clap_data fresh = (Ok l, w1)
        /\ Song.from_data (U:=basic_latin) retitled_data
             (run_calls (U:=basic_latin) [MakeSong boom_clap_data] w1)
           = (Ok l, run_calls (U:=basic_latin) [MakeSong boom_clap_data] w1)
        /\ song_as_first_seen (U:=basic_latin) fresh
             (run_calls (U:=basic_latin) [MakeSong boom_clap_data] w1)
             boom_clap_data l).
Proof.
  apply (from_data_first_seen (U:=basic_latin) fresh
           [MakeSong boom_clap_data] charli_data renamed_data 45349
           boom_clap_data retitled_data 378195);
    reflexivity.
Defined.

(** The store after the song of the example has been made and its lyrics
    fetched. *)
Definition made_store : world :=
  put_lyrics 0 (Some (py "boom clap"))
             (run_calls (U:=basic_latin) [MakeSong boom_clap_data] fresh).

Lemma made_store_built : built (U:=basic_latin) made_store.
Proof.
  unfold built, made_store. eapply rtc_r; [apply run_calls_steps|].
  constructor.
Qed.

Lemma save_load_round_trip_witness :
  exists doc artist' w' a',
    Lyricist.save_artist 0%nat (JFloat 1 30) made_store = (Ok doc, made_store)
    /\ Lyricist.load_artist (U:=basic_latin) doc fresh = (Ok artist', w')
    /\ artists w' !! artist' = Some a'
    /\ artist_core a' = artist_core (artist_at made_store 0)
    /\ Forall is_Some
              (song_view made_store
                 <$> a_songs (artist_at made_store 0)
                     ++ a_featured_on (artist_at made_store 0))
    /\ song_view w' <$> a_songs a'
       = song_view made_store <$> a_songs (artist_at made_store 0)
    /\ song_view w' <$> a_featured_on a'
       ≡ₚ song_view made_store <$> a_featured_on (artist_at made_store 0).
Proof.
  apply (save_load_round_trip (U:=basic_latin) made_store 0%nat
           (artist_at made_store 0) (JFloat 1 30)).
  - reflexivity.
  - exact made_store_built.
  - vm_compute. reflexivity.
Defined.

(** * More of the program *)

(** ** Text helpers *)

Section MoreText.
Context {U : Unicode}.

Lemma filter_filter {A} (f : A -> bool) (l : list A) :
  List.filter f (List.filter f l) = List.filter f l.
Proof.
  induction l as [|x l IH]; [reflexivity|]. cbn [List.filter].
  destruct (f x) eqn:E; [|exact IH]. cbn [List.filter]. rewrite E, IH.
  reflexivity.
Qed.

(** X1.  [_remove_punctuation] leaves only word and space code points,
    works piece by piece, and does nothing to its own output. *)
Theorem remove_punctuation_stable (s t : pystr) :
  Forall (fun c => kept c = true) (_remove_punctuation s)
  /\ _remove_punctuation (s ++ t)
     = _remove_punctuation s ++ _remove_punctuation t
  /\ _remove_punctuation (_remove_punctuation s) = _remove_punctuation s.
Proof.
  unfold _remove_punctuation. split; [apply filter_kept|].
  split; [apply List.filter_app|apply filter_filter].
Qed.

Lemma contains_tail (q : pystr) (c : N) (s : pystr) :
  contains q (c :: s) = false -> contains q s = false.
Proof. cbn [contains]. intros H. apply orb_false_iff in H. tauto. Qed.

(** No closing bracket with a newline behind it, no header. *)
Lemma header_span_none (s : pystr) :
  contains [rbracket; newline] s = false -> header_span s = None.
Proof.
  induction s as [|c s IH]; intros H; [reflexivity|].
  pose proof (contains_tail _ _ _ H) as Ht. specialize (IH Ht).
  cbn [header_span]. destruct (N.eqb c newline); [reflexivity|].
  destruct (N.eqb c rbracket) eqn:Ec; [|rewrite IH; reflexivity].
  destruct s as [|d s]; [reflexivity|].
  destruct (N.eqb d newline) eqn:Ed; [|rewrite IH; reflexivity].
  exfalso. cbn [contains startswith] in H.
  rewrite (N.eqb_sym rbracket c), (N.eqb_sym newline d), Ec, Ed in H.
  discriminate.
Qed.

(** X2.  The removal of headers touches only texts in which a closing
    bracket stands right before a newline: any other text, brackets or
    not, comes out as it went in. *)
Theorem strip_headers_needs_bracket_newline (s : pystr) :
  contains [rbracket; newline] s = false -> strip_headers s = s.
Proof.
  unfold strip_headers. induction s as [|c s IH]; intros H; [reflexivity|].
  pose proof (contains_tail _ _ _ H) as Ht.
  cbn [strip_from]. rewrite (header_span_none s Ht), (IH Ht).
  destruct (N.eqb c lbracket); reflexivity.
Qed.

Lemma header_span_line (body rest : pystr) :
  Forall (fun c => c <> newline /\ c <> rbracket) body ->
  header_span (body ++ rbracket :: newline :: rest)
  = Some (length body + 2)%nat.
Proof.
  induction 1 as [|c body [Hn Hr] _ IH]; [reflexivity|].
  cbn [app header_span length]. apply N.eqb_neq in Hn, Hr.
  rewrite Hn, Hr, IH. reflexivity.
Qed.

Lemma strip_from_skip (k : nat) (pre rest : pystr) :
  length pre = k -> strip_from k (pre ++ rest) = strip_from O rest.
Proof.
  revert pre. induction k as [|k IH]; intros pre Hk.
  - destruct pre; [reflexivity|discriminate].
  - destruct pre as [|c pre]; [discriminate|]. cbn [app strip_from].
    apply IH. simpl in Hk. lia.
Qed.

(** X3.  A header on one line, that is an opening bracket, a body
    without newline or closing bracket, a closing bracket and a newline,
    is removed with its newline wherever the scan meets it. *)
Theorem strip_headers_header_line (body rest : pystr) :
  Forall (fun c => c <> newline /\ c <> rbracket) body ->
  strip_headers (lbracket :: body ++ rbracket :: newline :: rest)
  = strip_headers rest.
Proof.
  intros Hbody. unfold strip_headers. cbn [strip_from].
  rewrite N.eqb_refl, (header_span_line body rest Hbody).
  change (body ++ rbracket :: newline :: rest)
    with (body ++ [rbracket; newline] ++ rest).
  rewrite app_assoc. apply strip_from_skip. rewrite length_app. reflexivity.
Qed.

End MoreText.

Lemma strip_headers_needs_bracket_newline_witness :
  strip_headers (py "[Chorus] la la [la]") = py "[Chorus] la la [la]".
Proof.
  apply strip_headers_needs_bracket_newline. reflexivity.
Defined.

Lemma strip_headers_header_line_witness :
  strip_headers (lbracket :: py "Verse 1" ++ rbracket :: newline :: py "la")
  = strip_headers (py "la").
Proof.
  apply strip_headers_header_line. repeat constructor; discriminate.
Defined.

(** ** Fetching and searching together *)

Section MoreFetch.
Context {U : Unicode}.
Variable web_page : list json -> pystr -> result pystr.
Variable lyrics_container : pystr -> result pystr.

Abbreviation get_song_lyrics :=
    (Lyricist.get_song_lyrics web_page lyrics_container).
Abbreviation get_artist_lyrics :=
    (Lyricist.get_artist_lyrics web_page lyrics_container).
Abbreviation hosts_ordinary := (hosts_ordinary web_page lyrics_container).

(** One call of [get_song_lyrics] with a host whose failures are
    exceptions: it returns a string, the song has it afterwards, at most
    one request is logged, and songs that had lyrics are as they were. *)
Lemma get_song_lyrics_step (w : world) (song : loc) :
  hosts_ordinary ->
  is_Some (songs w !! song) ->
  exists text w',
    get_song_lyrics song w = (Ok (Some text), w')
    /\ artists w' = artists w
    /\ length (songs w') = length (songs w)
    /\ (exists s, songs w' !! song = Some s /\ s_lyrics s = Some text)
    /\ (forall k, has_text w k -> songs w' !! k = songs w !! k)
    /\ (length (requests w') <= S (length (requests w)))%nat.
Proof.
  intros Hh [s Hs]. destruct (s_lyrics s) as [text|] eqn:Hl.
  - exists text, w. rewrite <- Hl.
    split; [apply get_song_lyrics_hit; [exact Hs|congruence]|].
    repeat split; eauto.
  - pose proof (get_song_lyrics_miss web_page lyrics_container w song s Hs Hl
                  (fetched_ordinary _ _ _ _ Hh)) as Hm.
    cbv zeta in Hm.
    assert (Hv : exists text,
               match fetched web_page lyrics_container (requests w) (s_url s)
               with
               | Ok t => Some (normalize_lyrics t)
               | _ => Some []
               end = Some text)
      by (destruct (fetched _ _ _ _); eauto).
    destruct Hv as [text Hv]. rewrite Hv in Hm.
    exists text. eexists. split; [exact Hm|]. cbn [artists songs requests
      with_songs with_requests].
    split; [reflexivity|]. split; [apply length_insert|].
    split; [|split].
    + exists (set_lyrics (Some text) s). split; [|reflexivity].
      apply list_lookup_insert_eq. eapply lookup_lt_Some; eauto.
    + intros k (s' & t' & Hk & Ht'). apply list_lookup_insert_ne.
      intros <-. congruence.
    + rewrite length_app. destruct (s_url s); simpl; lia.
Qed.

(** X4.  Asking twice for the lyrics of a song: the first call leaves
    the song with a string, so the second call returns the same string
    and changes nothing; the page is requested at most once. *)
Theorem get_song_lyrics_twice (w : world) (song : loc) :
  hosts_ordinary ->
  is_Some (songs w !! song) ->
  exists text w',
    get_song_lyrics song w = (Ok (Some text), w')
    /\ get_song_lyrics song w' = (Ok (Some text), w')
    /\ (length (requests w') <= S (length (requests w)))%nat.
Proof.
  intros Hh Hs.
  destruct (get_song_lyrics_step w song Hh Hs)
    as (text & w' & E & _ & _ & (s' & Hs' & Hl') & _ & Hreq).
  exists text, w'. split; [exact E|]. split; [|exact Hreq].
  rewrite <- Hl'. apply get_song_lyrics_hit; [exact Hs'|congruence].
Qed.

Lemma fetch_loop_fills (l : list loc) :
  hosts_ordinary ->
  forall w,
    Forall (fun song => is_Some (songs w !! song)) l ->
    exists w',
      forM_ l (fun song => get_song_lyrics song ;;; ret tt) w = (Ok tt, w')
      /\ artists w' = artists w
      /\ length (songs w') = length (songs w)
      /\ (forall k, has_text w k -> songs w' !! k = songs w !! k)
      /\ Forall (has_text w') l.
Proof.
  intros Hh. induction l as [|song l IH]; intros w Hall.
  - exists w. repeat split; auto.
  - apply Forall_cons in Hall as [Hsong Hall].
    destruct (get_song_lyrics_step w song Hh Hsong)
      as (text & w1 & E & Ha & Hlen & (s1 & Hs1 & Hl1) & Hold & _).
    destruct (IH w1) as (w2 & E2 & Ha2 & Hlen2 & Hold2 & Hfill).
    { eapply Forall_impl; [exact Hall|]. intros x Hx. cbv beta in *.
      apply lookup_lt_is_Some. rewrite Hlen. apply lookup_lt_is_Some, Hx. }
    assert (Hkeep : forall k, has_text w1 k -> has_text w2 k).
    { intros k (s & t & Hk & Ht).
      exists s, t. rewrite (Hold2 k); [auto|]. exists s, t. auto. }
    exists w2. cbn [forM_]. unfold bind at 1 2. rewrite E. unfold ret at 1.
    rewrite E2. split; [reflexivity|]. split; [congruence|].
    split; [congruence|]. split.
    + intros k Hk. rewrite <- (Hold k Hk). apply Hold2.
      destruct Hk as (s & t & Hs & Ht). exists s, t.
      rewrite (Hold k); [auto|]. exists s, t. auto.
    + constructor; [|exact Hfill]. apply Hkeep. exists s1, text. auto.
Qed.

Lemma fetch_loop_cached (l : list loc) (w : world) :
  Forall (has_text w) l ->
  forM_ l (fun song => get_song_lyrics song ;;; ret tt) w = (Ok tt, w).
Proof.
  induction 1 as [|song l (s & text & Hs & Hl) _ IH]; [reflexivity|].
  cbn [forM_]. unfold bind at 1 2.
  rewrite (get_song_lyrics_hit web_page lyrics_container w song s Hs)
    by congruence.
  unfold ret at 1. exact IH.
Qed.

Lemma get_artist_lyrics_unfold (w : world) (artist : loc) (a : Artist) :
  artists w !! artist = Some a ->
  get_artist_lyrics artist w
  = forM_ (a_songs a ++ a_featured_on a)
          (fun song => get_song_lyrics song ;;; ret tt) w.
Proof.
  intros Ha. unfold Lyricist.get_artist_lyrics, bind, get_artist.
  cbn beta. rewrite Ha. reflexivity.
Qed.

(** X5.  Once [get_artist_lyrics] has run for an artist, running it
    again returns at once: every song has its lyrics, so the second run
    changes nothing and asks for no page. *)
Theorem get_artist_lyrics_twice (w : world) (artist : loc) (a : Artist) :
  hosts_ordinary ->
  artists w !! artist = Some a ->
  Forall (fun song => is_Some (songs w !! song))
         (a_songs a ++ a_featured_on a) ->
  exists w',
    get_artist_lyrics artist w = (Ok tt, w')
    /\ get_artist_lyrics artist w' = (Ok tt, w').
Proof.
  intros Hh Ha Hall.
  destruct (fetch_loop_fills _ Hh w Hall) as (w' & E & Ha' & _ & _ & Hfill).
  exists w'. rewrite (get_artist_lyrics_unfold w artist a Ha).
  split; [exact E|].
  rewrite (get_artist_lyrics_unfold w' artist a) by congruence.
  apply fetch_loop_cached, Hfill.
Qed.

(** X6.  After [get_artist_lyrics], every search on that artist
    returns a list: no candidate is left with [None], whatever the
    queries and the two flags, and the search changes nothing. *)
Theorem search_after_get_artist_lyrics (w : world) (artist : loc)
        (a : Artist) :
  hosts_ordinary ->
  artists w !! artist = Some a ->
  Forall (fun song => is_Some (songs w !! song))
         (a_songs a ++ a_featured_on a) ->
  exists w',
    get_artist_lyrics artist w = (Ok tt, w')
    /\ forall lyrics featured match_all,
         Lyricist.search_artist_lyrics artist lyrics featured match_all w'
         = (Ok (List.filter (wanted w' (normalized lyrics) match_all)
                            (all_songs_of a featured)), w').
Proof.
  intros Hh Ha Hall.
  destruct (fetch_loop_fills _ Hh w Hall) as (w' & E & Ha' & _ & _ & Hfill).
  exists w'. rewrite (get_artist_lyrics_unfold w artist a Ha).
  split; [exact E|]. intros lyrics featured match_all.
  rewrite (search_artist_lyrics_unfold w' artist a) by congruence.
  apply search_loop_fetched. unfold all_songs_of.
  destruct featured; [exact Hfill|].
  apply Forall_app in Hfill. tauto.
Qed.

End MoreFetch.

Section MoreSearch.
Context {U : Unicode}.

Lemma search_loop_reads_only (qs : list pystr) (match_all : bool)
      (all_songs : list loc) (w : world) :
  snd (Lyricist.search_loop qs match_all all_songs w) = w.
Proof.
  induction all_songs as [|song rest IH]; [reflexivity|].
  cbn [Lyricist.search_loop]. unfold bind at 1, get_song.
  destruct (songs w !! song) as [s|]; [|reflexivity].
  destruct (is_empty_str (s_lyrics s)); [exact IH|].
  unfold bind at 1, lift.
  destruct (mapR _ qs); [|reflexivity..].
  unfold bind, ret.
  destruct (Lyricist.search_loop qs match_all rest w) as [[ms|e|] w'];
    exact IH.
Qed.

(** X7.  [search_artist_lyrics] only reads: whether it returns or
    raises, and whatever the artist, the queries and the flags, the store
    after the call is the store before it. *)
Theorem search_artist_lyrics_reads_only (w : world) (artist : loc)
        (lyrics : Lyricist.queries) (featured match_all : bool) :
  snd (Lyricist.search_artist_lyrics artist lyrics featured match_all w) = w.
Proof.
  unfold Lyricist.search_artist_lyrics, bind, get_artist. cbn beta.
  destruct (artists w !! artist) as [a|]; [|reflexivity].
  apply search_loop_reads_only.
Qed.

Lemma filter_sublist {A} (f g : A -> bool) (l : list A) :
  (forall x, f x = true -> g x = true) ->
  sublist (List.filter f l) (List.filter g l).
Proof.
  intros Hfg. induction l as [|x l IH]; [constructor|].
  cbn [List.filter]. destruct (f x) eqn:Ef.
  - rewrite (Hfg x Ef). constructor. exact IH.
  - destruct (g x); [constructor|]; exact IH.
Qed.

Lemma all_then_any {A} (p : A -> bool) (l : list A) :
  l <> [] -> forallb p l = true -> existsb p l = true.
Proof.
  destruct l as [|x l]; [congruence|]. cbn [forallb existsb].
  intros _ H. apply andb_true_iff in H as [-> _]. reflexivity.
Qed.

(** X8.  With at least one query and fetched candidates, the songs
    found with [match_all] are among those found without it, in the same
    order. *)
Theorem match_all_finds_fewer (w : world) (artist : loc) (a : Artist)
        (lyrics : Lyricist.queries) (featured : bool) :
  artists w !! artist = Some a ->
  Forall (has_text w) (all_songs_of a featured) ->
  lyrics <> Lyricist.Many [] ->
  exists every some,
    Lyricist.search_artist_lyrics artist lyrics featured true w
    = (Ok every, w)
    /\ Lyricist.search_artist_lyrics artist lyrics featured false w
       = (Ok some, w)
    /\ sublist every some.
Proof.
  intros Ha Hall Hq. eexists _, _.
  rewrite !(search_artist_lyrics_unfold w artist a) by exact Ha.
  rewrite !search_loop_fetched by exact Hall.
  split; [reflexivity|]. split; [reflexivity|].
  apply filter_sublist. intros k. unfold wanted.
  destruct (songs w !! k) as [s|]; [|discriminate].
  destruct (s_lyrics s) as [text|]; [|discriminate].
  destruct (negb (str_eqb text [])); [|discriminate]. cbn [andb].
  unfold text_matches. apply all_then_any.
  destruct lyrics as [q|[|q qs]]; cbn; congruence.
Qed.

(** The song at [song] has lyrics other than the empty string. *)
Definition has_words (w : world) (song : loc) : bool :=
  match songs w !! song with
  | Some s =>
      match s_lyrics s with
      | Some (_ :: _) => true
      | _ => false
      end
  | None => false
  end.

Lemma contains_empty (s : pystr) : contains [] s = true.
Proof. destruct s; reflexivity. Qed.

(** X9.  A query made of punctuation only is the empty string once
    normalized, and the empty string is part of every text: among fetched
    candidates such a search returns every song whose lyrics are not
    empty, with either flag. *)
Theorem blank_query_finds_all (w : world) (artist : loc) (a : Artist)
        (lyric : pystr) (featured match_all : bool) :
  artists w !! artist = Some a ->
  Forall (has_text w) (all_songs_of a featured) ->
  _remove_punctuation (casefold lyric) = [] ->
  Lyricist.search_artist_lyrics artist (Lyricist.One lyric) featured
                                match_all w
  = (Ok (List.filter (has_words w) (all_songs_of a featured)), w).
Proof.
  intros Ha Hall Hblank.
  rewrite (search_artist_lyrics_unfold w artist a) by exact Ha.
  rewrite search_loop_fetched by exact Hall.
  f_equal. f_equal. apply List.filter_ext. intros k.
  unfold wanted, has_words, normalized. cbn [List.map]. rewrite Hblank.
  destruct (songs w !! k) as [s|]; [|reflexivity].
  destruct (s_lyrics s) as [[|c text]|]; [reflexivity| |reflexivity].
  unfold text_matches. cbn [forallb existsb str_eqb negb andb].
  rewrite contains_empty. destruct match_all; reflexivity.
Qed.

End MoreSearch.

Lemma host_down_ordinary : hosts_ordinary host_down no_container.
Proof. split; intros; reflexivity. Qed.

Lemma get_song_lyrics_twice_witness :
  exists text w',
    Lyricist.get_song_lyrics (U:=basic_latin) host_down no_container 0%nat
                             (one_song None)
    = (Ok (Some text), w')
    /\ Lyricist.get_song_lyrics (U:=basic_latin) host_down no_container 0%nat w'
       = (Ok (Some text), w')
    /\ (length (requests w') <= S (length (requests (one_song None))))%nat.
Proof.
  apply (get_song_lyrics_twice (U:=basic_latin) host_down no_container
           (one_song None) 0%nat).
  - exact host_down_ordinary.
  - exists (boom_clap None). reflexivity.
Defined.

Lemma get_artist_lyrics_twice_witness :
  exists w',
    Lyricist.get_artist_lyrics (U:=basic_latin) host_down no_container 0%nat
                               (one_song None)
    = (Ok tt, w')
    /\ Lyricist.get_artist_lyrics (U:=basic_latin) host_down no_container
                                  0%nat w'
       = (Ok tt, w').
Proof.
  apply (get_artist_lyrics_twice (U:=basic_latin) host_down no_container
           (one_song None) 0%nat charli).
  - exact host_down_ordinary.
  - reflexivity.
  - repeat constructor. exists (boom_clap None). reflexivity.
Defined.

Lemma search_after_get_artist_lyrics_witness :
  exists w',
    Lyricist.get_artist_lyrics (U:=basic_latin) host_down no_container 0%nat
                               (one_song None)
    = (Ok tt, w')
    /\ forall lyrics featured match_all,
         Lyricist.search_artist_lyrics (U:=basic_latin) 0%nat lyrics featured
                                       match_all w'
         = (Ok (List.filter
                  (wanted w' (normalized (U:=basic_latin) lyrics) match_all)
                  (all_songs_of charli featured)), w').
Proof.
  apply (search_after_get_artist_lyrics (U:=basic_latin) host_down
           no_container (one_song None) 0%nat charli).
  - exact host_down_ordinary.
  - reflexivity.
  - repeat constructor. exists (boom_clap None). reflexivity.
Defined.

Lemma match_all_finds_fewer_witness :
  exists every some,
    Lyricist.search_artist_lyrics (U:=basic_latin) 0%nat
      (Lyricist.Many [py "boom"; py "bang"]) true true
      (one_song (Some (py "boom clap")))
    = (Ok every, one_song (Some (py "boom clap")))
    /\ Lyricist.search_artist_lyrics (U:=basic_latin) 0%nat
         (Lyricist.Many [py "boom"; py "bang"]) true false
         (one_song (Some (py "boom clap")))
       = (Ok some, one_song (Some (py "boom clap")))
    /\ sublist every some.
Proof.
  apply (match_all_finds_fewer (U:=basic_latin)
           (one_song (Some (py "boom clap"))) 0%nat charli).
  - reflexivity.
  - repeat constructor. eexists _, _. split; reflexivity.
  - discriminate.
Defined.

Lemma blank_query_finds_all_witness :
  Lyricist.search_artist_lyrics (U:=basic_latin) 0%nat
    (Lyricist.One (py "?!")) true false (one_song (Some (py "boom clap")))
  = (Ok (List.filter (has_words (one_song (Some (py "boom clap"))))
                     (all_songs_of charli true)),
     one_song (Some (py "boom clap"))).
Proof.
  apply (blank_query_finds_all (U:=basic_latin)
           (one_song (Some (py "boom clap"))) 0%nat charli).
  - reflexivity.
  - repeat constructor. eexists _, _. split; reflexivity.
  - reflexivity.
Defined.

(** ** The constructors when they fail *)

(** From [w] to [w'] nothing happened but the making of artists: the
    songs, their registry and the log are the same, the artists of [w]
    are the first artists of [w'] and are filed as before, and each new
    artist is filed under its id and has no song on either list. *)
Definition only_artists_added (w w' : world) : Prop :=
  songs w' = songs w
  /\ _songs w' = _songs w
  /\ requests w' = requests w
  /\ _artists w ⊆ _artists w'
  /\ exists news,
       artists w' = artists w ++ news
       /\ Forall (fun a => a_songs a = [] /\ a_featured_on a = []) news
       /\ forall k a,
            news !! k = Some a ->
            _artists w' !! a_id a = Some (length (artists w) + k)%nat.

Lemma only_artists_added_refl (w : world) : only_artists_added w w.
Proof.
  repeat split; try reflexivity. exists []. rewrite app_nil_r.
  repeat split; [constructor|]. intros k a Hk. destruct k; discriminate.
Qed.

Lemma only_artists_added_trans (w1 w2 w3 : world) :
  only_artists_added w1 w2 -> only_artists_added w2 w3 ->
  only_artists_added w1 w3.
Proof.
  intros (A1 & B1 & C1 & D1 & n1 & E1 & F1 & G1)
         (A2 & B2 & C2 & D2 & n2 & E2 & F2 & G2).
  repeat split; try congruence; [etransitivity; eassumption|].
  exists (n1 ++ n2). rewrite E2, E1, app_assoc. split; [reflexivity|].
  split; [apply Forall_app; auto|].
  intros k a Hk. apply lookup_app_Some in Hk as [Hk|[Hlen Hk]].
  - eapply lookup_weaken; [apply G1, Hk|exact D2].
  - rewrite (G2 _ _ Hk), E1, length_app. f_equal. lia.
Qed.

Lemma Artist_from_data_adds (data : json) (w : world) :
  only_artists_added w (snd (Artist.from_data data w)).
Proof.
  rewrite Artist_from_data_run.
  destruct (rbind (getitem data "id") as_id) as [i| |];
    try apply only_artists_added_refl.
  destruct (_artists w !! i) eqn:Ei; [apply only_artists_added_refl|].
  destruct (getitem data "name") as [name| |];
    try apply only_artists_added_refl.
  destruct (getitem data "url") as [url| |];
    try apply only_artists_added_refl.
  cbn [snd]. repeat split; try reflexivity.
  - cbn [add_artist _artists a_id]. apply insert_subseteq, Ei.
  - eexists. split; [reflexivity|]. split; [repeat constructor|].
    intros [|k] a Hk; [|destruct k; discriminate]. injection Hk as <-.
    cbn [add_artist _artists a_id]. rewrite Nat.add_0_r.
    apply lookup_insert_eq.
Qed.

Lemma mapM_Artist_from_data_adds (datas : list json) (w : world) :
  only_artists_added w (snd (mapM Artist.from_data datas w)).
Proof.
  revert w. induction datas as [|data datas IH]; intros w;
    [apply only_artists_added_refl|].
  cbn [mapM]. unfold bind at 1.
  pose proof (Artist_from_data_adds data w) as H1.
  destruct (Artist.from_data data w) as [[l| |] w1]; cbn [snd] in *;
    try exact H1.
  unfold bind at 1. specialize (IH w1).
  destruct (mapM Artist.from_data datas w1) as [[ls| |] w2]; cbn [snd] in *;
    eapply only_artists_added_trans; eassumption.
Qed.

(** [m], run from [w], returns, or leaves a store that [w0] is related
    to by [R]. *)
Definition returns_or {A} (R : world -> world -> Prop) (w0 : world)
           (m : M A) (w : world) : Prop :=
  is_ok (fst (m w)) = true \/ R w0 (snd (m w)).

Lemma returns_or_bind_lift {A B} (R : world -> world -> Prop) (w0 : world)
      (r : result A) (k : A -> M B) (w : world) :
  R w0 w ->
  (forall a, r = Ok a -> returns_or R w0 (k a) w) ->
  returns_or R w0 (bind (lift r) k) w.
Proof.
  intros Hw Hk. unfold returns_or, bind, lift in *.
  destruct r as [a| |]; [apply Hk; reflexivity|right; exact Hw..].
Qed.

Lemma returns_or_bind {A B} (R : world -> world -> Prop) (w0 : world)
      (m : M A) (k : A -> M B) (w : world) :
  R w0 (snd (m w)) ->
  (forall a, returns_or R w0 (k a) (snd (m w))) ->
  returns_or R w0 (bind m k) w.
Proof.
  intros Hw Hk. unfold returns_or, bind in *.
  destruct (m w) as [[a| |] w1]; cbn [fst snd] in *;
    [apply Hk|right; exact Hw..].
Qed.

Section MoreEntities.
Context {U : Unicode}.

Lemma Artist_from_data_ok_or_same (data : json) (w : world) :
  is_ok (fst (Artist.from_data data w)) = true
  \/ snd (Artist.from_data data w) = w.
Proof.
  rewrite Artist_from_data_run.
  destruct (rbind (getitem data "id") as_id) as [i| |]; auto.
  destruct (_artists w !! i); auto.
  destruct (getitem data "name"); auto.
  destruct (getitem data "url"); auto.
Qed.

(** X10.  [Artist.from_data] reads the id, the name and the url before
    it makes anything: when it raises (a key is missing, the record is
    not an object) the store is as it was. *)
Theorem Artist_from_data_all_or_nothing (data : json) (w : world) (e : exn) :
  fst (Artist.from_data data w) = Raise e ->
  snd (Artist.from_data data w) = w.
Proof.
  intros E. destruct (Artist_from_data_ok_or_same data w) as [H|H];
    [|exact H].
  rewrite E in H. discriminate.
Qed.

Lemma Song_from_data_ok_or_adds (data : json) (w : world) :
  is_ok (fst (Song.from_data data w)) = true
  \/ only_artists_added w (snd (Song.from_data data w)).
Proof.
  change (returns_or only_artists_added w (Song.from_data data) w).
  pose proof (only_artists_added_refl w) as Hw.
  unfold Song.from_data.
  apply returns_or_bind_lift; [exact Hw|]. intros i _.
  apply returns_or_bind; [exact Hw|]. intros found. cbn [find_song snd].
  destruct found as [l|]; [left; reflexivity|].
  apply returns_or_bind_lift; [exact Hw|]. intros title _.
  apply returns_or_bind_lift; [exact Hw|]. intros full_title _.
  apply returns_or_bind_lift; [exact Hw|]. intros url _.
  apply returns_or_bind_lift; [exact Hw|]. intros primary _.
  pose proof (Artist_from_data_adds primary w) as H1.
  apply returns_or_bind; [exact H1|]. intros artist.
  apply returns_or_bind_lift; [exact H1|]. intros featured _.
  pose proof (mapM_Artist_from_data_adds featured
                (snd (Artist.from_data primary w))) as H2.
  apply returns_or_bind;
    [eapply only_artists_added_trans; eassumption|].
  intros featured_artists. left.
  rewrite (Song_construct_run
             (mkSong i title full_title url artist featured_artists None)).
  reflexivity.
Qed.

(** X11.  [Song.from_data] makes the artists of a record before the
    song: when it raises, no song has been made or filed and nothing was
    appended to a list, but the artists it made on the way stay in the
    store, filed under their ids and without songs. *)
Theorem Song_from_data_leaves_artists (data : json) (w : world) (e : exn) :
  fst (Song.from_data data w) = Raise e ->
  only_artists_added w (snd (Song.from_data data w)).
Proof.
  intros E. destruct (Song_from_data_ok_or_adds data w) as [H|H];
    [|exact H].
  rewrite E in H. discriminate.
Qed.

End MoreEntities.

(** ** What holds in every store the program builds *)

Lemma count_app (k : loc) (l1 l2 : list loc) :
  count k (l1 ++ l2) = (count k l1 + count k l2)%nat.
Proof. unfold count. rewrite List.filter_app, length_app. reflexivity. Qed.

Lemma count_replicate (k n : loc) (c : nat) :
  count k (replicate c n) = if Nat.eqb k n then c else 0%nat.
Proof.
  induction c as [|c IH]; [destruct (Nat.eqb k n); reflexivity|].
  cbn [replicate]. rewrite count_cons, IH. destruct (Nat.eqb k n); reflexivity.
Qed.

Lemma count_elem (k : loc) (l : list loc) :
  k ∈ l <-> (0 < count k l)%nat.
Proof.
  induction l as [|x l IH].
  - split; [intros H; inversion H|cbn; lia].
  - rewrite elem_of_cons, count_cons, IH.
    destruct (Nat.eqb_spec k x) as [E|E]; [split; [lia|auto]|].
    cbn [Nat.add]. tauto.
Qed.

(** How often an address is among the occurrences. *)
Lemma count_occurrences (k n : loc) (m : Song -> nat) (h : list Song) :
  count k (occurrences n m h)
  = if (n <=? k)%nat then from_option m 0%nat (h !! (k - n)%nat) else 0%nat.
Proof.
  revert n. induction h as [|s h IH]; intros n; cbn [occurrences].
  - destruct (n <=? k)%nat; reflexivity.
  - rewrite count_app, count_replicate, IH.
    destruct (Nat.eqb_spec k n) as [->|Hne].
    + rewrite Nat.leb_refl, Nat.sub_diag.
      destruct (Nat.leb_spec (S n) n); [lia|]. cbn. lia.
    + destruct (Nat.leb_spec (S n) k), (Nat.leb_spec n k); try lia.
      replace (k - n)%nat with (S (k - S n)) by lia. reflexivity.
Qed.

Lemma occurrences_sorted (n : nat) (m : Song -> nat) (h : list Song) :
  StronglySorted le (occurrences n m h) /\ Forall (le n) (occurrences n m h).
Proof.
  revert n. induction h as [|s h IH]; intros n; cbn [occurrences];
    [split; constructor|].
  destruct (IH (S n)) as [Hs Hall].
  assert (Hn : Forall (le n) (occurrences (S n) m h)).
  { eapply Forall_impl; [exact Hall|]. intros; cbv beta in *; lia. }
  induction (m s) as [|c [IHs IHall]]; cbn [replicate app]; [auto|].
  split; constructor; auto.
Qed.

Lemma occurrences_increasing (n : nat) (m : Song -> nat) (h : list Song) :
  (forall s, (m s <= 1)%nat) ->
  StronglySorted lt (occurrences n m h) /\ Forall (le n) (occurrences n m h).
Proof.
  intros Hm. revert n. induction h as [|s h IH]; intros n; cbn [occurrences];
    [split; constructor|].
  destruct (IH (S n)) as [Hs Hall].
  assert (Hn : Forall (le n) (occurrences (S n) m h)).
  { eapply Forall_impl; [exact Hall|]. intros; cbv beta in *; lia. }
  specialize (Hm s). destruct (m s) as [|[|c]]; [auto| |lia].
  cbn [replicate app]. split; constructor; auto.
Qed.

Lemma is_by_one (l : loc) (s : Song) :
  is_by l s = if Nat.eqb l (s_artist s) then 1%nat else 0%nat.
Proof.
  unfold is_by. rewrite count_cons. destruct (Nat.eqb l (s_artist s));
    reflexivity.
Qed.

Section MoreInvariants.
Context {U : Unicode}.
Hypothesis nfkd_idempotent : forall s, nfkd (nfkd s) = nfkd s.

(** X12.  One object per id: in a store built by the program, an id is
    filed in a registry under an address exactly when the object at that
    address has this id, for artists and for songs; so no two objects of
    a kind share an id. *)
Theorem one_object_per_id (w : world) :
  built w ->
  (forall i l, _artists w !! i = Some l
               <-> exists a, artists w !! l = Some a /\ a_id a = i)
  /\ (forall i l, _songs w !! i = Some l
                  <-> exists s, songs w !! l = Some s /\ s_id s = i).
Proof.
  intros Hb. pose proof (built_sound w nfkd_idempotent Hb) as Hw.
  split; intros i l; split.
  - apply (filed_artists w Hw).
  - intros (a & Ha & <-). apply (artists_filed w Hw), Ha.
  - apply (filed_songs w Hw).
  - intros (s & Hs & <-). apply (songs_filed w Hw), Hs.
Qed.

(** X13.  The [songs] of an artist are exactly the songs that name it
    as their artist, each once, in the order they were made. *)
Theorem artist_songs_exact (w : world) (l : loc) (a : Artist) :
  built w ->
  artists w !! l = Some a ->
  StronglySorted lt (a_songs a)
  /\ forall k, k ∈ a_songs a
               <-> exists s, songs w !! k = Some s /\ s_artist s = l.
Proof.
  intros Hb Ha. pose proof (built_sound w nfkd_idempotent Hb) as Hw.
  destruct (linked w Hw l a Ha) as [-> _]. unfold songs_of. split.
  - apply occurrences_increasing. intros s. rewrite is_by_one.
    destruct (Nat.eqb l (s_artist s)); lia.
  - intros k. rewrite count_elem, count_occurrences. cbn [Nat.leb].
    rewrite Nat.sub_0_r. destruct (songs w !! k) as [s|]; cbn [from_option].
    + rewrite is_by_one. destruct (Nat.eqb_spec l (s_artist s)); split.
      * eauto.
      * lia.
      * lia.
      * intros (s' & [= <-] & E). congruence.
    + split; [lia|]. intros (s' & E & _). discriminate.
Qed.

(** X14.  The [featured_on] of an artist holds a song as often as the
    song lists the artist among its featured artists, and nothing else,
    in the order the songs were made. *)
Theorem featured_on_exact (w : world) (l : loc) (a : Artist) :
  built w ->
  artists w !! l = Some a ->
  StronglySorted le (a_featured_on a)
  /\ forall k, count k (a_featured_on a)
               = match songs w !! k with
                 | Some s => count l (s_featured_artists s)
                 | None => 0%nat
                 end.
Proof.
  intros Hb Ha. pose proof (built_sound w nfkd_idempotent Hb) as Hw.
  destruct (linked w Hw l a Ha) as [_ ->]. unfold featuring. split.
  - apply occurrences_sorted.
  - intros k. rewrite count_occurrences. cbn [Nat.leb].
    rewrite Nat.sub_0_r. destruct (songs w !! k); reflexivity.
Qed.

(** X15.  What [Artist.to_dict] writes for an artist of the store,
    [Artist.from_data] reads back as that very artist, and neither call
    changes the store. *)
Theorem Artist_to_dict_from_data (w w' : world) (l : loc) (d : json) :
  built w ->
  Artist.to_dict l w = (Ok d, w') ->
  w' = w /\ Artist.from_data d w = (Ok l, w).
Proof.
  intros Hb E. pose proof (built_sound w nfkd_idempotent Hb) as Hw.
  unfold Artist.to_dict, bind, get_artist in E.
  destruct (artists w !! l) as [a|] eqn:Ha; [|discriminate].
  injection E as <- <-. split; [reflexivity|].
  apply (Artist_from_data_found _ w (a_id a) l); [reflexivity|].
  apply (artists_filed w Hw), Ha.
Qed.

(** X16.  The same for songs: what [Song.to_dict] writes,
    [Song.from_data] reads back as that very song, without making a
    song or an artist. *)
Theorem Song_to_dict_from_data (w w' : world) (l : loc) (d : json) :
  built w ->
  Song.to_dict l w = (Ok d, w') ->
  w' = w /\ Song.from_data d w = (Ok l, w).
Proof.
  intros Hb E. pose proof (built_sound w nfkd_idempotent Hb) as Hw.
  destruct (songs w !! l) as [s|] eqn:Hs.
  - rewrite (Song_to_dict_run w l s Hw Hs) in E. injection E as <- <-.
    split; [reflexivity|].
    apply (Song_from_data_found _ w (s_id s) l); [reflexivity|].
    apply (songs_filed w Hw), Hs.
  - unfold Song.to_dict, bind, get_song in E. rewrite Hs in E. discriminate.
Qed.

End MoreInvariants.

(** ** Loading, again and before a search *)

Lemma filter_permutation {A} (f : A -> bool) (l k : list A) :
  l ≡ₚ k -> List.filter f l ≡ₚ List.filter f k.
Proof.
  induction 1 as [|x l k _ IH|x y l|l1 l2 l3 _ IH1 _ IH2]; cbn [List.filter].
  - reflexivity.
  - destruct (f x); [constructor|]; exact IH.
  - destruct (f x), (f y); try reflexivity. constructor.
  - etransitivity; eassumption.
Qed.

Lemma fmap_filter {A B} (g : A -> B) (p : B -> bool) (l : list A) :
  g <$> List.filter (fun x => p (g x)) l = List.filter p (g <$> l).
Proof.
  induction l as [|x l IH]; [reflexivity|]. cbn [List.filter fmap list_fmap].
  destruct (p (g x)); cbn [fmap list_fmap]; rewrite IH; reflexivity.
Qed.

(** [wanted], read off the entry of a song. *)
Definition entry_wanted (qs : list pystr) (match_all : bool)
           (v : option entry) : bool :=
  match v with
  | Some e =>
      match v_lyrics e with
      | Some text => negb (str_eqb text []) && text_matches qs match_all text
      | None => false
      end
  | None => false
  end.

Definition entry_has_text (v : option entry) : Prop :=
  exists e text, v = Some e /\ v_lyrics e = Some text.

Lemma wanted_view (w : world) (qs : list pystr) (match_all : bool) (k : loc) :
  wanted w qs match_all k = entry_wanted qs match_all (song_view w k).
Proof.
  unfold wanted, entry_wanted, song_view.
  destruct (songs w !! k); reflexivity.
Qed.

Lemma has_text_view (w : world) (ks : list loc) :
  Forall (has_text w) ks <-> Forall entry_has_text (song_view w <$> ks).
Proof.
  rewrite Forall_fmap. apply Forall_iff. intros k.
  unfold has_text, entry_has_text, song_view, compose. split.
  - intros (s & text & -> & Hl). eexists _, text. split; [reflexivity|exact Hl].
  - intros (e & text & He & Hl). destruct (songs w !! k) as [s|];
      [|discriminate].
    injection He as <-. exists s, text. auto.
Qed.

Lemma filter_wanted_views (w : world) (qs : list pystr) (match_all : bool)
      (ks : list loc) :
  song_view w <$> List.filter (wanted w qs match_all) ks
  = List.filter (entry_wanted qs match_all) (song_view w <$> ks).
Proof.
  rewrite <- fmap_filter. f_equal. apply List.filter_ext, wanted_view.
Qed.

Section MoreSnapshot.
Context {U : Unicode}.
Hypothesis nfkd_idempotent : forall s, nfkd (nfkd s) = nfkd s.

(** A song that the store has under the same id and with the same
    lyrics: loading it changes nothing. *)
Lemma load_song_known (w0 w : world) (s : Song) :
  sound w ->
  view_of w0 s ∈ catalogue w ->
  Lyricist.load_song (song_dict w0 s) w = (Ok tt, w).
Proof.
  intros Hw Hin. unfold catalogue in Hin.
  apply list_elem_of_fmap in Hin as (x & Hv & Hx).
  apply song_in_store in Hx as [k Hk].
  pose proof (songs_filed w Hw k x Hk) as Hreg.
  assert (Hid : s_id x = s_id s) by (apply (f_equal v_id) in Hv; auto).
  assert (Hly : s_lyrics x = s_lyrics s)
    by (apply (f_equal v_lyrics) in Hv; auto).
  rewrite Hid in Hreg. unfold Lyricist.load_song.
  rewrite (bind_ok _ _ _ _ _
             (Song_from_data_found (song_dict w0 s) w (s_id s) k eq_refl Hreg)).
  rewrite (bind_lift_ok _ _ _ (s_lyrics s)) by apply as_lyrics_json.
  unfold update_song. rewrite (alter_fixed _ _ _ x Hk).
  - destruct w; reflexivity.
  - rewrite <- Hly. destruct x; reflexivity.
Qed.

Lemma load_songs_known (w0 w : world) (ss : list Song) :
  sound w ->
  Forall (fun s => view_of w0 s ∈ catalogue w) ss ->
  forM_ (song_dict w0 <$> ss) Lyricist.load_song w = (Ok tt, w).
Proof.
  intros Hw. induction 1 as [|s ss Hs _ IH]; [reflexivity|].
  cbn [fmap list_fmap forM_].
  rewrite (bind_ok _ _ _ _ _ (load_song_known w0 w s Hw Hs)). exact IH.
Qed.

(** What loading a snapshot into an empty store gives. *)
Lemma loaded_lists (w : world) (l : loc) (a : Artist) (now : json) :
  sound w ->
  artists w !! l = Some a ->
  exists w' a',
    Lyricist.load_artist (snapshot w l a now) fresh = (Ok 0%nat, w')
    /\ sound w'
    /\ artists w' !! 0%nat = Some a'
    /\ a_id a' = a_id a
    /\ song_view w' <$> a_songs a' = song_view w <$> a_songs a
    /\ song_view w' <$> a_featured_on a' ≡ₚ song_view w <$> a_featured_on a
    /\ Forall (fun s => view_of w s ∈ catalogue w')
              (own_songs w l ++ featuring_songs w l).
Proof.
  intros Hw Ha.
  destruct (load_snapshot w l a now nfkd_idempotent Hw Ha)
    as (w' & a' & Eload & Hw' & Ha' & Hcore & Hcat).
  destruct (lists_from_catalogue w l a Hw Ha) as [V1 V2].
  destruct (lists_from_catalogue w' 0%nat a' Hw' Ha') as [V1' V2'].
  assert (Hid : a_id a' = a_id a) by (injection Hcore; auto).
  pose proof (sound_one_per_id w Hw) as HC.
  destruct (own_songs_views w l a Hw Ha) as [X Y].
  exists w', a'. split; [exact Eload|]. split; [exact Hw'|].
  split; [exact Ha'|]. split; [exact Hid|]. split; [|split].
  - rewrite V1', V1, Hid, Hcat, songs_part_merged by exact HC. reflexivity.
  - rewrite V2', V2, Hid, Hcat. apply fmap_Permutation.
    apply featured_part_merged, HC.
  - apply Forall_forall. intros s Hs.
    assert (Hown : view_of w s ∈ songs_part (a_id a) (catalogue w)
                                 ++ featured_part (a_id a) (catalogue w)).
    { rewrite <- X, <- Y, <- fmap_app. apply list_elem_of_fmap_2, Hs. }
    assert (Hpart : forall u,
               u ∈ songs_part (a_id a) (catalogue w)
                   ++ featured_part (a_id a) (catalogue w) ->
               u ∈ catalogue w).
    { intros u Hu. apply elem_of_app in Hu as [Hu|Hu].
      - apply songs_part_elem in Hu. tauto.
      - apply featured_part_elem in Hu. tauto. }
    destruct (merged_has _ [] _ Hown) as (u & Hu & Eu).
    rewrite Hcat.
    destruct (merged_grows
                (songs_part (a_id a) (catalogue w)
                 ++ featured_part (a_id a) (catalogue w)) [])
      as (more & Em & Hmore).
    assert (Hcu : u ∈ catalogue w).
    { apply Hpart, Hmore. rewrite Em in Hu. exact Hu. }
    rewrite <- (same_id_same_entry (catalogue w) u (view_of w s) HC Hcu
                  (Hpart _ Hown) Eu).
    exact Hu.
Qed.

(** X17.  Loading the same snapshot a second time changes nothing: the
    artist and every song are found under their ids, no object is made,
    no list grows, and the lyrics are set to what they are. *)
Theorem load_artist_twice (w : world) (artist : loc) (a : Artist)
        (now : json) :
  built w ->
  artists w !! artist = Some a ->
  exists doc artist' w',
    Lyricist.save_artist artist now w = (Ok doc, w)
    /\ Lyricist.load_artist doc fresh = (Ok artist', w')
    /\ Lyricist.load_artist doc w' = (Ok artist', w').
Proof.
  intros Hb Ha. pose proof (built_sound w nfkd_idempotent Hb) as Hw.
  destruct (loaded_lists w artist a now Hw Ha)
    as (w' & a' & Eload & Hw' & Ha' & Hid & _ & _ & Hknown).
  exists (snapshot w artist a now), 0%nat, w'.
  split; [apply Artist_save_run; assumption|]. split; [exact Eload|].
  apply Forall_app in Hknown as [K1 K2].
  assert (E1 : Artist.from_data (snapshot w artist a now) w' = (Ok 0%nat, w')).
  { apply (Artist_from_data_found _ w' (a_id a) 0%nat); [reflexivity|].
    rewrite <- Hid. apply (artists_filed w' Hw'), Ha'. }
  unfold Lyricist.load_artist. rewrite (bind_ok _ _ _ _ _ E1).
  rewrite (bind_lift_ok _ _ _ (JArr (song_dict w <$> own_songs w artist)))
    by reflexivity.
  rewrite (bind_lift_ok _ _ _
             (JArr (song_dict w <$> featuring_songs w artist)))
    by reflexivity.
  rewrite (bind_lift_ok _ _ _ (song_dict w <$> own_songs w artist))
    by reflexivity.
  rewrite (bind_ok _ _ _ _ _ (load_songs_known w w' _ Hw' K1)).
  rewrite (bind_lift_ok _ _ _ (song_dict w <$> featuring_songs w artist))
    by reflexivity.
  rewrite (bind_ok _ _ _ _ _ (load_songs_known w w' _ Hw' K2)). reflexivity.
Qed.

(** X18.  A search gives the same songs after a save and a load as
    before: when the candidates have their lyrics, the search on the
    loaded artist returns songs with the same ids, titles, urls, artists
    and lyrics as the search on the saved one, in the same order if the
    featured songs are left out and up to order if they are included. *)
Theorem search_after_load (w : world) (artist : loc) (a : Artist)
        (now : json) (lyrics : Lyricist.queries) (featured match_all : bool) :
  built w ->
  artists w !! artist = Some a ->
  Forall (has_text w) (all_songs_of a featured) ->
  exists doc artist' w' found found',
    Lyricist.save_artist artist now w = (Ok doc, w)
    /\ Lyricist.load_artist doc fresh = (Ok artist', w')
    /\ Lyricist.search_artist_lyrics artist lyrics featured match_all w
       = (Ok found, w)
    /\ Lyricist.search_artist_lyrics artist' lyrics featured match_all w'
       = (Ok found', w')
    /\ song_view w' <$> found' ≡ₚ song_view w <$> found
    /\ (featured = false -> song_view w' <$> found' = song_view w <$> found).
Proof.
  intros Hb Ha Hall. pose proof (built_sound w nfkd_idempotent Hb) as Hw.
  destruct (loaded_lists w artist a now Hw Ha)
    as (w' & a' & Eload & Hw' & Ha' & _ & V1 & V2 & _).
  assert (Hviews : song_view w' <$> all_songs_of a' featured
                   ≡ₚ song_view w <$> all_songs_of a featured).
  { unfold all_songs_of. destruct featured; [|rewrite V1; reflexivity].
    rewrite !fmap_app, V1, V2. reflexivity. }
  assert (Hall' : Forall (has_text w') (all_songs_of a' featured)).
  { apply has_text_view. rewrite Hviews. apply has_text_view, Hall. }
  exists (snapshot w artist a now), 0%nat, w'. eexists _, _.
  split; [apply Artist_save_run; assumption|]. split; [exact Eload|].
  rewrite (search_artist_lyrics_unfold w artist a) by exact Ha.
  rewrite (search_artist_lyrics_unfold w' 0%nat a') by exact Ha'.
  rewrite !search_loop_fetched by assumption.
  split; [reflexivity|]. split; [reflexivity|].
  rewrite !filter_wanted_views. split.
  - apply filter_permutation, Hviews.
  - intros ->. cbn [all_songs_of]. rewrite V1. reflexivity.
Qed.

End MoreSnapshot.

Lemma basic_latin_nfkd_idempotent (s : pystr) :
  @nfkd basic_latin (@nfkd basic_latin s) = @nfkd basic_latin s.
Proof. reflexivity. Qed.

Lemma one_object_per_id_witness :
  (forall i l, _artists made_store !! i = Some l
               <-> exists a, artists made_store !! l = Some a /\ a_id a = i)
  /\ (forall i l, _songs made_store !! i = Some l
                  <-> exists s, songs made_store !! l = Some s /\ s_id s = i).
Proof.
  apply (one_object_per_id (U:=basic_latin) basic_latin_nfkd_idempotent
           made_store).
  exact made_store_built.
Defined.

Lemma artist_songs_exact_witness :
  StronglySorted lt (a_songs (artist_at made_store 0))
  /\ forall k, k ∈ a_songs (artist_at made_store 0)
               <-> exists s, songs made_store !! k = Some s
                             /\ s_artist s = 0%nat.
Proof.
  apply (artist_songs_exact (U:=basic_latin) basic_latin_nfkd_idempotent
           made_store 0%nat (artist_at made_store 0)).
  - exact made_store_built.
  - reflexivity.
Defined.

Lemma featured_on_exact_witness :
  StronglySorted le (a_featured_on (artist_at made_store 0))
  /\ forall k, count k (a_featured_on (artist_at made_store 0))
               = match songs made_store !! k with
                 | Some s => count 0%nat (s_featured_artists s)
                 | None => 0%nat
                 end.
Proof.
  apply (featured_on_exact (U:=basic_latin) basic_latin_nfkd_idempotent
           made_store 0%nat (artist_at made_store 0)).
  - exact made_store_built.
  - reflexivity.
Defined.

Lemma Artist_to_dict_from_data_witness :
  made_store = made_store
  /\ Artist.from_data charli_data made_store = (Ok 0%nat, made_store).
Proof.
  apply (Artist_to_dict_from_data (U:=basic_latin) basic_latin_nfkd_idempotent
           made_store made_store 0%nat charli_data).
  - exact made_store_built.
  - reflexivity.
Defined.

Lemma Song_to_dict_from_data_witness :
  made_store = made_store
  /\ Song.from_data (U:=basic_latin)
       (song_dict made_store (boom_clap (Some (py "boom clap")))) made_store
     = (Ok 0%nat, made_store).
Proof.
  apply (Song_to_dict_from_data (U:=basic_latin) basic_latin_nfkd_idempotent
           made_store made_store 0%nat).
  - exact made_store_built.
  - reflexivity.
Defined.

Lemma load_artist_twice_witness :
  exists doc artist' w',
    Lyricist.save_artist 0%nat (JFloat 1 30) made_store = (Ok doc, made_store)
    /\ Lyricist.load_artist (U:=basic_latin) doc fresh = (Ok artist', w')
    /\ Lyricist.load_artist (U:=basic_latin) doc w' = (Ok artist', w').
Proof.
  apply (load_artist_twice (U:=basic_latin) basic_latin_nfkd_idempotent
           made_store 0%nat (artist_at made_store 0) (JFloat 1 30)).
  - exact made_store_built.
  - reflexivity.
Defined.

Lemma search_after_load_witness :
  exists doc artist' w' found found',
    Lyricist.save_artist 0%nat (JFloat 1 30) made_store = (Ok doc, made_store)
    /\ Lyricist.load_artist (U:=basic_latin) doc fresh = (Ok artist', w')
    /\ Lyricist.search_artist_lyrics (U:=basic_latin) 0%nat
         (Lyricist.One (py "Boom!")) false false made_store
       = (Ok found, made_store)
    /\ Lyricist.search_artist_lyrics (U:=basic_latin) artist'
         (Lyricist.One (py "Boom!")) false false w'
       = (Ok found', w')
    /\ song_view w' <$> found' ≡ₚ song_view made_store <$> found
    /\ (false = false ->
        song_view w' <$> found' = song_view made_store <$> found).
Proof.
  apply (search_after_load (U:=basic_latin) basic_latin_nfkd_idempotent
           made_store 0%nat (artist_at made_store 0) (JFloat 1 30)
           (Lyricist.One (py "Boom!")) false false).
  - exact made_store_built.
  - reflexivity.
  - repeat constructor. eexists _, _. split; reflexivity.
Defined.

(** ** Ids in paths *)

(** [str(z)] for an [int]: its decimal digits, with a minus sign when it
    is negative. *)
Definition str_of_int (z : Z) : pystr :=
  py (DecimalString.NilZero.string_of_int (Z.to_int z)).

(** [f"{v}"] for the values an id comes as: an [int] from the API, or the
    string of the command line. *)
Definition format (v : json) : result pystr :=
  match v with
  | JNull => Ok (py "None")
  | JBool true => Ok (py "True")
  | JBool false => Ok (py "False")
  | JInt z => Ok (str_of_int z)
  | JStr s => Ok s
  | _ => Unmodelled
  end.

(** [f"{save_dir}/{artist_id}.json"], the path that [save_artist],
    [is_id_saved] and [load_artist] build. *)
Definition file_path (save_dir : pystr) (artist_id : json) : result pystr :=
  rbind (format artist_id)
        (fun name => Ok (save_dir ++ py "/" ++ name ++ py ".json")).

Lemma py_inj (s t : string) : py s = py t -> s = t.
Proof.
  unfold py. intros E.
  rewrite <- (string_of_list_ascii_of_string s),
          <- (string_of_list_ascii_of_string t).
  f_equal. revert E.
  generalize (list_ascii_of_string s) (list_ascii_of_string t).
  intros l. induction l as [|a l IH]; intros [|b k] E; try discriminate;
    [reflexivity|].
  cbn [List.map] in E. injection E as Ea Ek.
  rewrite <- (ascii_N_embedding a), <- (ascii_N_embedding b), Ea.
  f_equal. apply IH, Ek.
Qed.

Lemma str_of_int_inj (i j : Z) : str_of_int i = str_of_int j -> i = j.
Proof.
  intros E. apply py_inj in E.
  assert (Hnil : forall z, Z.to_int z <> Decimal.Pos Decimal.Nil
                           /\ Z.to_int z <> Decimal.Neg Decimal.Nil).
  { intros [|p|p]; cbn; split; try discriminate; intros [= H];
      exact (DecimalPos.Unsigned.to_uint_nonnil p H). }
  apply (f_equal DecimalString.NilZero.int_of_string) in E.
  rewrite !DecimalString.NilZero.isi in E by apply Hnil.
  injection E as E. apply DecimalZ.to_int_inj, E.
Qed.

(** X19.  The file of an artist is named by the artist's id alone: two
    ids give the same path only if they are equal, and an id given as a
    string names the file that [save_artist] writes for the [int] [i]
    exactly when it is the decimal writing of [i]. *)
Theorem file_path_names_id (save_dir : pystr) (i j : Z) (s : pystr) :
  (file_path save_dir (JInt i) = file_path save_dir (JInt j) <-> i = j)
  /\ (file_path save_dir (JStr s) = file_path save_dir (JInt i)
      <-> s = str_of_int i).
Proof.
  assert (Hname : forall a b : pystr,
             Ok (save_dir ++ py "/" ++ a ++ py ".json")
             = Ok (save_dir ++ py "/" ++ b ++ py ".json") -> a = b).
  { intros a b E. injection E as E. apply (app_inv_head save_dir) in E.
    apply (app_inv_head (py "/")) in E.
    apply (app_inv_tail (py ".json")) in E. exact E. }
  unfold file_path. cbn [format rbind]. split; split.
  - intros E. apply str_of_int_inj, Hname, E.
  - intros ->. reflexivity.
  - apply Hname.
  - intros ->. reflexivity.
Qed.

(** ** The API *)

(** What the session hands back for a request: the status code, and
    what [res.json()] returns or raises. *)
Record response : Type := mkResponse {
  status_code : Z;
  json_body : result json
}.

(** [res.get("response", res)] *)
Definition get_response (res : json) : result json :=
  match res with
  | JObj fields => Ok (default res (assoc (py "response") fields))
  | _ => Raise AttributeError
  end.

Definition API_URL : pystr := py "http://api.genius.com".

Module API.
Section WithSession.
Context {U : Unicode}.

(** [self._session.request("GET", url, params=params,
    headers=self._header)], as the host answers a url and its
    parameters, or the exception of a failed connection. *)
Variable session_request : pystr -> list (pystr * json) -> result response.

(** [GeniusRequester.request] with [web=False]. *)
Definition request (path : pystr) (params : list (pystr * json))
  : result json :=
  let path := if startswith (py "/") path then List.tl path else path in
  let url := API_URL ++ py "/" ++ path in
  rbind (session_request url params) (fun res =>
  if negb (Z.eqb (status_code res) 200) then Raise Failure
  else rbind (json_body res) get_response).

(** [Lyricist.get_artist_from_id] *)
Definition get_artist_from_id (artist_id : json) : M loc :=
  id_text <- lift (format artist_id) ;;
  let path := py "/artists/" ++ id_text in
  data <- lift (request path []) ;;
  artist_data <- lift (getitem data "artist") ;;
  Artist.from_data artist_data.

(** One turn of the loop of [get_artist_songs]: the request, the next
    page, then the songs. *)
Definition songs_page (path : pystr) (page : json) : M json :=
  res <- lift (request path [(py "per_page", JInt 50); (py "page", page)]) ;;
  page <- lift (getitem res "next_page") ;;
  songs <- lift (rbind (getitem res "songs") py_iter) ;;
  forM_ songs (fun song_data => Song.from_data song_data ;;; ret tt) ;;;
  ret page.

(** The loop [while page is not None], for [fuel] turns at most; [None]
    when the turns run out before the loop ends. *)
Fixpoint songs_pages (fuel : nat) (path : pystr) (page : json) (w : world)
  : option (result unit * world) :=
  match page with
  | JNull => Some (Ok tt, w)
  | _ =>
      match fuel with
      | O => None
      | S fuel' =>
          match songs_page path page w with
          | (Ok page', w') => songs_pages fuel' path page' w'
          | (Raise e, w') => Some (Raise e, w')
          | (Unmodelled, w') => Some (Unmodelled, w')
          end
      end
  end.

(** [Lyricist.get_artist_songs] *)
Definition get_artist_songs (fuel : nat) (artist : loc) (w : world)
  : option (result unit * world) :=
  match artists w !! artist with
  | Some a =>
      songs_pages fuel (py "artists/" ++ str_of_int (a_id a) ++ py "/songs")
                  (JInt 1) w
  | None => Some (Unmodelled, w)
  end.

End WithSession.
End API.

Lemma bind_assoc {A B C} (m : M A) (k : A -> M B) (h : B -> M C)
      (w : world) :
  bind (bind m k) h w = bind m (fun a => bind (k a) h) w.
Proof. unfold bind. destruct (m w) as [[a| |] w1]; reflexivity. Qed.

Lemma bind_raise {A B} (m : M A) (k : A -> M B) (w w' : world) (e : exn) :
  m w = (Raise e, w') -> bind m k w = (Raise e, w').
Proof. intros E. unfold bind. rewrite E. reflexivity. Qed.

Lemma bind_unmodelled {A B} (m : M A) (k : A -> M B) (w w' : world) :
  m w = (Unmodelled, w') -> bind m k w = (Unmodelled, w').
Proof. intros E. unfold bind. rewrite E. reflexivity. Qed.

Lemma forM__app {A} (l1 l2 : list A) (f : A -> M unit) (w : world) :
  forM_ (l1 ++ l2) f w = (forM_ l1 f ;;; forM_ l2 f) w.
Proof.
  revert w. induction l1 as [|x l1 IH]; intros w; [reflexivity|].
  cbn [app forM_]. unfold bind. destruct (f x w) as [[[]| |] w1];
    [|reflexivity..].
  rewrite IH. reflexivity.
Qed.

Lemma bind_forM__app {A B} (l1 l2 : list A) (f : A -> M unit)
      (k : unit -> M B) (w : world) :
  bind (forM_ (l1 ++ l2) f) k w
  = bind (forM_ l1 f) (fun _ => bind (forM_ l2 f) k) w.
Proof.
  unfold bind at 1. rewrite forM__app. rewrite <- bind_assoc. reflexivity.
Qed.

(** The addresses on the lists of an artist hold songs. *)
Lemma lists_hold_songs {U : Unicode} (w : world) (l : loc) (a : Artist) :
  sound w ->
  artists w !! l = Some a ->
  Forall (fun song => is_Some (songs w !! song))
         (a_songs a ++ a_featured_on a).
Proof.
  intros Hw Ha. destruct (linked w Hw l a Ha) as [-> ->].
  apply Forall_app. unfold songs_of, featuring.
  split; apply Forall_forall; intros k Hk; apply count_elem in Hk;
    rewrite count_occurrences in Hk; cbn [Nat.leb] in Hk;
    rewrite Nat.sub_0_r in Hk; destruct (songs w !! k); eauto;
    cbn in Hk; lia.
Qed.

Section Paging.
Context {U : Unicode}.
Variable session_request : pystr -> list (pystr * json) -> result response.

Abbreviation request := (API.request session_request).
Abbreviation songs_page := (API.songs_page session_request).
Abbreviation songs_pages := (API.songs_pages session_request).
Abbreviation get_artist_songs := (API.get_artist_songs session_request).
Abbreviation get_artist_from_id := (API.get_artist_from_id session_request).

(** The parameters of the request for a page. *)
Definition page_params (page : json) : list (pystr * json) :=
  [(py "per_page", JInt 50); (py "page", page)].

(** The path that [get_artist_songs] asks for. *)
Definition songs_path (a : Artist) : pystr :=
  py "artists/" ++ str_of_int (a_id a) ++ py "/songs".

(** What the host has in store from [page] on: [paged path n page
    datas r] when following [next_page] from [page] takes [n] requests
    and yields the records [datas], page after page, until a page names
    no next one ([r] is [Ok tt]) or until a request fails, an answer
    lacks ["next_page"] or its ["songs"] cannot be gone through ([r] is
    that failure). *)
Inductive paged (path : pystr) : nat -> json -> list json -> result unit -> Prop :=
  | paged_end : paged path 0 JNull [] (Ok tt)
  | paged_more n page res next page_songs datas r :
      page <> JNull ->
      request path (page_params page) = Ok res ->
      getitem res "next_page" = Ok next ->
      rbind (getitem res "songs") py_iter = Ok page_songs ->
      paged path n next datas r ->
      paged path (S n) page (page_songs ++ datas) r
  | paged_no_answer page e :
      page <> JNull ->
      request path (page_params page) = Raise e ->
      paged path 1 page [] (Raise e)
  | paged_no_next page res e :
      page <> JNull ->
      request path (page_params page) = Ok res ->
      getitem res "next_page" = Raise e ->
      paged path 1 page [] (Raise e)
  | paged_no_songs page res next e :
      page <> JNull ->
      request path (page_params page) = Ok res ->
      getitem res "next_page" = Ok next ->
      rbind (getitem res "songs") py_iter = Raise e ->
      paged path 1 page [] (Raise e).

Lemma songs_pages_null (fuel : nat) (path : pystr) (w : world) :
  songs_pages fuel path JNull w = Some (Ok tt, w).
Proof. destruct fuel; reflexivity. Qed.

Lemma songs_pages_turn (fuel : nat) (path : pystr) (page : json) (w : world) :
  page <> JNull ->
  songs_pages (S fuel) path page w
  = match songs_page path page w with
    | (Ok page', w') => songs_pages fuel path page' w'
    | (Raise e, w') => Some (Raise e, w')
    | (Unmodelled, w') => Some (Unmodelled, w')
    end.
Proof. intros Hp. destruct page; [congruence|reflexivity..]. Qed.

Lemma songs_pages_paged (path : pystr) (n : nat) (page : json)
      (datas : list json) (r : result unit) :
  paged path n page datas r ->
  forall fuel w,
    (n <= fuel)%nat ->
    songs_pages fuel path page w
    = Some ((forM_ datas
                   (fun song_data => Song.from_data song_data ;;; ret tt)
             ;;; lift r) w).
Proof.
  induction 1 as [|n page res next page_songs datas r Hpage Hres Hnext Hsongs
                    _ IH
                  |page e Hpage Hres
                  |page res e Hpage Hres Hnext
                  |page res next e Hpage Hres Hnext Hsongs];
    intros fuel w Hfuel.
  - apply songs_pages_null.
  - destruct fuel as [|fuel]; [lia|]. rewrite songs_pages_turn by exact Hpage.
    unfold API.songs_page. fold (page_params page).
    rewrite (bind_lift_ok _ _ _ res) by exact Hres.
    rewrite (bind_lift_ok _ _ _ next) by exact Hnext.
    rewrite (bind_lift_ok _ _ _ page_songs) by exact Hsongs.
    set (f := fun song_data : json => Song.from_data song_data ;;; ret tt).
    rewrite bind_forM__app.
    destruct (forM_ page_songs f w) as [[[]|e|] w1] eqn:E.
    + rewrite !(bind_ok _ _ _ _ _ E). unfold ret at 1.
      rewrite IH by lia. reflexivity.
    + rewrite !(bind_raise _ _ _ _ _ E). reflexivity.
    + rewrite !(bind_unmodelled _ _ _ _ E). reflexivity.
  - destruct fuel as [|fuel]; [lia|]. rewrite songs_pages_turn by exact Hpage.
    unfold API.songs_page. fold (page_params page).
    unfold bind at 1, lift at 1. rewrite Hres. reflexivity.
  - destruct fuel as [|fuel]; [lia|]. rewrite songs_pages_turn by exact Hpage.
    unfold API.songs_page. fold (page_params page).
    rewrite (bind_lift_ok _ _ _ res) by exact Hres.
    unfold bind at 1, lift at 1. rewrite Hnext. reflexivity.
  - destruct fuel as [|fuel]; [lia|]. rewrite songs_pages_turn by exact Hpage.
    unfold API.songs_page. fold (page_params page).
    rewrite (bind_lift_ok _ _ _ res) by exact Hres.
    rewrite (bind_lift_ok _ _ _ next) by exact Hnext.
    unfold bind at 1, lift at 1. rewrite Hsongs. reflexivity.
Qed.

(** X20.  [get_artist_songs] follows [next_page] from the first page
    and makes the songs page after page, in the order of the answers.  It
    ends when an answer names no next page; a request that fails, an
    answer without ["next_page"] or without songs to go through ends it
    with that exception, the songs of the pages before being made and
    none of that page, even when its songs are there; and a record that
    [Song.from_data] refuses ends it at that record. *)
Theorem get_artist_songs_pages (w : world) (artist : loc) (a : Artist)
        (n : nat) (datas : list json) (r : result unit) (fuel : nat) :
  artists w !! artist = Some a ->
  paged (songs_path a) n (JInt 1) datas r ->
  (n <= fuel)%nat ->
  get_artist_songs fuel artist w
  = Some ((forM_ datas (fun song_data => Song.from_data song_data ;;; ret tt)
           ;;; lift r) w).
Proof.
  intros Ha Hp Hfuel. unfold API.get_artist_songs. rewrite Ha.
  apply (songs_pages_paged _ _ _ _ _ Hp), Hfuel.
Qed.

Lemma songs_page_ok (path : pystr) (page p : json) (w w' : world) :
  songs_page path page w = (Ok p, w') ->
  exists res, request path (page_params page) = Ok res
              /\ getitem res "next_page" = Ok p.
Proof.
  unfold API.songs_page. fold (page_params page). unfold bind at 1, lift at 1.
  destruct (request path (page_params page)) as [res| |] eqn:Hres;
    [|discriminate..].
  unfold bind at 1, lift at 1.
  destruct (getitem res "next_page") as [next| |] eqn:Hnext;
    [|discriminate..].
  unfold bind at 1, lift at 1.
  destruct (rbind (getitem res "songs") py_iter) as [l| |]; [|discriminate..].
  unfold bind. destruct (forM_ l _ w) as [[[]| |] w1]; [|discriminate..].
  intros [= <- <-]. exists res. split; [reflexivity|exact Hnext].
Qed.

Lemma songs_pages_last (fuel : nat) (path : pystr) (page : json)
      (w w' : world) :
  page <> JNull ->
  songs_pages fuel path page w = Some (Ok tt, w') ->
  exists p res, request path (page_params p) = Ok res
                /\ getitem res "next_page" = Ok JNull.
Proof.
  revert page w. induction fuel as [|fuel IH]; intros page w Hpage E.
  - destruct page; [congruence|discriminate..].
  - rewrite songs_pages_turn in E by exact Hpage.
    destruct (songs_page path page w) as [[p| |] w1] eqn:Ep;
      [|discriminate..].
    destruct (songs_page_ok _ _ _ _ _ Ep) as (res & Hres & Hnext).
    assert (Hp : p = JNull \/ p <> JNull)
      by (destruct p; auto; right; discriminate).
    destruct Hp as [->|Hp]; [eauto|].
    apply (IH p w1 Hp E).
Qed.

(** X21.  [get_artist_songs] returns only after an answer whose
    ["next_page"] is [None]: with a host that names a next page in every
    answer the loop does not end. *)
Theorem get_artist_songs_last_page (fuel : nat) (artist : loc)
        (w w' : world) :
  get_artist_songs fuel artist w = Some (Ok tt, w') ->
  exists a p res,
    artists w !! artist = Some a
    /\ request (songs_path a) (page_params p) = Ok res
    /\ getitem res "next_page" = Ok JNull.
Proof.
  unfold API.get_artist_songs. destruct (artists w !! artist) as [a|];
    [|discriminate].
  intros E. apply songs_pages_last in E as (p & res & H); [|discriminate].
  exists a, p, res. auto.
Qed.

End Paging.

(** ** Writing the snapshot *)

(** [Artist.save] with its file: the document is built first, then the
    file is opened and the document dumped into it.  [write_file path
    obj] is what [open(path, "w")] and [json.dump(obj, file)] come to: it
    returns, or raises the exception of the file system (a
    [FileNotFoundError] when the directory of [path] does not exist). *)
Definition Artist_save_file (write_file : pystr -> json -> result unit)
           (self : loc) (path : pystr) (now : json) : M unit :=
  obj <- Artist_save self now ;;
  lift (write_file path obj).

(** [Lyricist.save_artist] with its file. *)
Definition save_artist_file (write_file : pystr -> json -> result unit)
           (artist : loc) (save_dir : pystr) (now : json) : M unit :=
  a <- get_artist artist ;;
  path <- lift (file_path save_dir (JInt (a_id a))) ;;
  Artist_save_file write_file artist path now.

(** ** From the API to the search *)

Section FetchBranch.
Context {U : Unicode}.
Variable session_request : pystr -> list (pystr * json) -> result response.
Variable web_page : list json -> pystr -> result pystr.
Variable lyrics_container : pystr -> result pystr.
Hypothesis nfkd_idempotent : forall s, nfkd (nfkd s) = nfkd s.

Lemma by_steps_get_artist_from_id (artist_id : json) :
  by_steps (API.get_artist_from_id session_request artist_id).
Proof.
  unfold API.get_artist_from_id.
  apply by_steps_bind; [apply by_steps_lift|]. intros id_text.
  apply by_steps_bind; [apply by_steps_lift|]. intros data.
  apply by_steps_bind; [apply by_steps_lift|]. intros artist_data.
  apply by_steps_Artist_from_data.
Qed.

Lemma by_steps_songs_page (path : pystr) (page : json) :
  by_steps (API.songs_page session_request path page).
Proof.
  unfold API.songs_page.
  apply by_steps_bind; [apply by_steps_lift|]. intros res.
  apply by_steps_bind; [apply by_steps_lift|]. intros next.
  apply by_steps_bind; [apply by_steps_lift|]. intros page_songs.
  apply by_steps_bind; [|intros _; apply by_steps_ret].
  apply by_steps_forM_. intros song_data.
  apply by_steps_bind; [apply by_steps_Song_from_data|].
  intros _. apply by_steps_ret.
Qed.

Lemma songs_pages_steps (fuel : nat) (path : pystr) (page : json)
      (w w' : world) (r : result unit) :
  API.songs_pages session_request fuel path page w = Some (r, w') ->
  rtc step w w'.
Proof.
  revert page w. induction fuel as [|fuel IH]; intros page w E.
  - destruct page; try discriminate. injection E as _ <-. reflexivity.
  - assert (Hp : page = JNull \/ page <> JNull)
      by (destruct page; auto; right; discriminate).
    destruct Hp as [->|Hp]; [injection E as _ <-; reflexivity|].
    rewrite songs_pages_turn in E by exact Hp.
    pose proof (by_steps_songs_page path page w) as Hs.
    destruct (API.songs_page session_request path page w) as [[p| |] w1];
      cbn [snd] in Hs.
    + etransitivity; [exact Hs|]. apply (IH p w1 E).
    + injection E as _ <-. exact Hs.
    + injection E as _ <-. exact Hs.
Qed.

Lemma get_artist_songs_steps (fuel : nat) (artist : loc) (w w' : world)
      (r : result unit) :
  API.get_artist_songs session_request fuel artist w = Some (r, w') ->
  rtc step w w'.
Proof.
  unfold API.get_artist_songs. destruct (artists w !! artist).
  - apply songs_pages_steps.
  - intros [= _ <-]. reflexivity.
Qed.

Lemma get_artist_from_id_registered (artist_id : json) (artist : loc)
      (w w' : world) :
  API.get_artist_from_id session_request artist_id w = (Ok artist, w') ->
  registered w' artist.
Proof.
  unfold API.get_artist_from_id. unfold bind at 1, lift at 1.
  destruct (format artist_id) as [id_text| |]; [|discriminate..].
  unfold bind at 1, lift at 1.
  destruct (API.request session_request _ []) as [data| |]; [|discriminate..].
  unfold bind at 1, lift at 1.
  destruct (getitem data "artist") as [artist_data| |]; [|discriminate..].
  intros E.
  destruct (does_run _ _ _ _ _ (Artist_from_data_does artist_data w) E)
    as [_ Hq].
  destruct (Hq artist eq_refl) as [(i & _ & Hi) _]. exists i. exact Hi.
Qed.


End FetchBranch.

(** The API of the worked example: every request is answered with one
    page that holds the song and names no next page. *)
Definition one_page : pystr -> list (pystr * json) -> result response :=
  fun _ _ =>
    Ok (mkResponse 200
          (Ok (JObj [(py "response",
                      JObj [(py "songs", JArr [boom_clap_data]);
                            (py "next_page", JNull);
                            (py "artist", charli_data)])]))).

Lemma one_page_paged :
  paged one_page (songs_path charli) 1 (JInt 1) ([boom_clap_data] ++ [])
        (Ok tt).
Proof.
  apply (paged_more one_page (songs_path charli) 0 (JInt 1)
           (JObj [(py "songs", JArr [boom_clap_data]);
                  (py "next_page", JNull);
                  (py "artist", charli_data)])
           JNull [boom_clap_data] [] (Ok tt));
    [discriminate|reflexivity..|constructor].
Qed.

Lemma get_artist_songs_pages_witness :
  API.get_artist_songs (U:=basic_latin) one_page 1 0%nat (one_song None)
  = Some ((forM_ ([boom_clap_data] ++ [])
                 (fun song_data =>
                    Song.from_data (U:=basic_latin) song_data ;;; ret tt)
           ;;; lift (Ok tt)) (one_song None)).
Proof.
  apply (get_artist_songs_pages (U:=basic_latin) one_page (one_song None)
           0%nat charli 1 ([boom_clap_data] ++ []) (Ok tt) 1).
  - reflexivity.
  - exact one_page_paged.
  - lia.
Defined.

Lemma get_artist_songs_last_page_witness :
  exists a p res,
    artists (one_song None) !! 0%nat = Some a
    /\ API.request one_page (songs_path a) (page_params p) = Ok res
    /\ getitem res "next_page" = Ok JNull.
Proof.
  apply (get_artist_songs_last_page (U:=basic_latin) one_page 1 0%nat
           (one_song None) (one_song None)).
  reflexivity.
Defined.

(** A file system without the directory of the snapshots. *)
Definition no_directory : pystr -> json -> result unit :=
  fun _ _ => Raise Failure.


(** ** The resolver, both tiers *)

Section MoreResolver.
Variable genius_name : pystr -> result pystr.
Variable artist_songs : pystr -> result json.
Variable search : pystr -> result json.

(** X23.  On a page that lists at least one song, with songs and hits
    of the shape the API gives them, [get_artist_id] is settled by the
    credits alone: it returns the id of the first credit on the page
    with the canonical name; when there is none it returns the id of the
    first hit of the search whose primary artist has that name, the
    featured artists of the hits never being looked at; and when no hit
    has it either it raises [ValueError]. *)
Theorem get_artist_id_two_tiers (alias name : pystr) (songs : list json)
        (song res : json) (hits : list json) :
  genius_name alias = Ok name ->
  rbind (artist_songs name) py_iter = Ok (songs ++ [song]) ->
  forallb wf_song (songs ++ [song]) = true ->
  search name = Ok res ->
  rbind (getitem res "hits") py_iter = Ok hits ->
  forallb wf_hit hits = true ->
  Lyricist.get_artist_id genius_name artist_songs search alias
  = match first_credit name (songs ++ [song]) with
    | Some i => Ok i
    | None =>
        match List.find (is_named name) (List.map hit_artist hits) with
        | Some r => Ok (id_of r)
        | None => Raise ValueError
        end
    end.
Proof.
  intros Hname Hsongs Hwf Hsearch Hhits Hwfh.
  destruct (first_credit name (songs ++ [song])) as [i|] eqn:Hfirst.
  - unfold Lyricist.get_artist_id. rewrite Hname. cbn [rbind].
    rewrite Hsongs. cbn [rbind].
    pose proof (scan_songs_found name (songs ++ [song]) [] i Hwf Hfirst) as H.
    rewrite app_nil_r in H. rewrite H. reflexivity.
  - apply (get_artist_id_fallback genius_name artist_songs search alias name
             songs song res hits); assumption.
Qed.

End MoreResolver.

Lemma get_artist_id_two_tiers_witness :
  Lyricist.get_artist_id (fun alias => Ok alias)
                         (fun _ => Ok (JArr page_songs)) two_hits
                         (py "A. G. Cook")
  = match first_credit (py "A. G. Cook") ([] ++ page_songs) with
    | Some i => Ok i
    | None =>
        match List.find (is_named (py "A. G. Cook"))
                        (List.map hit_artist
                                  [hit (credit "Someone Else" 7);
                                   hit (credit "A. G. Cook" 5)]) with
        | Some r => Ok (id_of r)
        | None => Raise ValueError
        end
    end.
Proof.
  apply (get_artist_id_two_tiers (fun alias => Ok alias)
           (fun _ => Ok (JArr page_songs)) two_hits
           (py "A. G. Cook") (py "A. G. Cook") []
           (JObj [(py "primary_artist", credit "Someone Else" 7);
                  (py "featured_artists", JArr [credit "Charli XCX" 45349])])
           (JObj [(py "hits", JArr [hit (credit "Someone Else" 7);
                                    hit (credit "A. G. Cook" 5)])])
           [hit (credit "Someone Else" 7); hit (credit "A. G. Cook" 5)]);
    reflexivity.
Defined.

(** ** Loading over a song that is there *)

Section MoreLoading.
Context {U : Unicode}.

(** X24.  For a song that is registered already, a turn of the loop of
    [load_artist] reads nothing of the record but its id and its lyrics:
    whatever lyrics the song had, fetched or not, are replaced by those
    of the record, also by [None], and nothing else changes. *)
Theorem load_song_overwrites (w : world) (song_json : json) (i : Z)
        (song : loc) (lyrics : option pystr) :
  rbind (getitem song_json "id") as_id = Ok i ->
  _songs w !! i = Some song ->
  rbind (getitem song_json "lyrics") as_lyrics = Ok lyrics ->
  Lyricist.load_song song_json w = (Ok tt, put_lyrics song lyrics w).
Proof.
  intros Hi Hsong Hlyrics. unfold Lyricist.load_song.
  rewrite (bind_ok _ _ _ _ _ (Song_from_data_found song_json w i song Hi Hsong)).
  rewrite (bind_lift_ok _ _ _ lyrics) by exact Hlyrics.
  reflexivity.
Qed.

End MoreLoading.

Lemma load_song_overwrites_witness :
  Lyricist.load_song (U:=basic_latin)
    (JObj [(py "id", JInt 378195); (py "lyrics", JNull)])
    (one_song (Some (py "boom clap")))
  = (Ok tt, put_lyrics 0%nat None (one_song (Some (py "boom clap")))).
Proof.
  apply (load_song_overwrites (U:=basic_latin)
           (one_song (Some (py "boom clap")))
           (JObj [(py "id", JInt 378195); (py "lyrics", JNull)])
           378195 0%nat None);
    reflexivity.
Defined.

(** A record of a song that lacks its featured artists. *)
Definition unfinished_data : json :=
  JObj [(py "id", JInt 378195); (py "title", JStr (py "Boom Clap"));
        (py "full_title", JStr (py "Boom Clap by Charli XCX"));
        (py "url", JStr (py "https://genius.com/Charli-xcx-boom-clap-lyrics"));
        (py "primary_artist", charli_data)].

Lemma Artist_from_data_all_or_nothing_witness :
  snd (Artist.from_data renamed_data fresh) = fresh.
Proof.
  apply (Artist_from_data_all_or_nothing renamed_data fresh KeyError).
  reflexivity.
Defined.

Lemma Song_from_data_leaves_artists_witness :
  only_artists_added fresh
    (snd (Song.from_data (U:=basic_latin) unfinished_data fresh)).
Proof.
  apply (Song_from_data_leaves_artists (U:=basic_latin) unfinished_data fresh
           KeyError).
  reflexivity.
Defined.
